(** * zurg-repair: the repair engine and its scheduler, verified

    A shallow embedding of [src/lib/zurg.ts], [src/lib/repair.ts],
    [src/lib/repair-runner.ts], [src/lib/scheduler.ts],
    [src/lib/torrentDetailsParser.ts] and [runOneTimeExecution] of
    [src/index.ts].

    Conventions of the embedding.
    - JavaScript numbers that hold counts and delays ([maxRetries],
      [retryDelay], [concurrencyLimit], loop indices) are [nat]: the
      configuration schema only admits integers, and no subtraction is
      performed on them.
    - An [async] function without shared state is a [Task]: a tree whose
      nodes are the [await]ed I/O operations, in program order.
    - The managed service, the timer and the event loop are a [Service]:
      a world state that answers each I/O operation and decides in which
      order the pending operations of a batch complete.
    - The orchestrating functions are computations in [M]: they thread the
      world, record the trace of the completed operations, and end normally,
      by a throw, or not at all. A loop whose end the code does not ensure
      takes a [fuel] that bounds its turns; running out of it is the outcome
      [OutOfFuel], and a call that has this outcome for every fuel never
      returns.
    - A method of the scheduler is a [Scheduler.Job]: it reads and writes
      [runningJobs] without interruption between two suspension points.
    - The two HTML extractors ([parseTorrentList], [parseTorrentFiles])
      bottom out in the cheerio library; they are taken as an [HtmlParser].
      The code of [parseTorrentFiles] itself is [TorrentDetailsParser], over
      the rows, cells and form actions cheerio selects.
    - The node-cron library is a [Cron]; the [Map] of the scheduled tasks is
      a [JsMap], its entries in insertion order.
    - Calls to the logger have no influence on control flow or on results
      and are left out. *)

From Stdlib Require Import Ascii String.
From stdpp Require Import base gmap strings list pretty.

Open Scope string_scope.
Open Scope list_scope.

(** ** Data model ([src/types/torrent.ts], [RepairResult] of [repair.ts]) *)

Module TorrentFile.
Record t : Type := mk { name : string; size : string; status : string; id : string }.
End TorrentFile.

Module Torrent.
Record t : Type := mk { name : string; hash : string; size : string; date : string }.
End Torrent.

Module DetailedTorrent.
Record t : Type := mk {
  name : string; hash : string; size : string; date : string;
  files : list TorrentFile.t }.

(** [{ ...torrent, files }] *)
Definition spread (torrent : Torrent.t) (files : list TorrentFile.t) : t :=
  {| name := Torrent.name torrent; hash := Torrent.hash torrent;
     size := Torrent.size torrent; date := Torrent.date torrent;
     files := files |}.

(** A [DetailedTorrent] used where a [Torrent] is expected. *)
Definition upcast (d : t) : Torrent.t :=
  {| Torrent.name := name d; Torrent.hash := hash d;
     Torrent.size := size d; Torrent.date := date d |}.
End DetailedTorrent.

Inductive RepairStatus : Type := repaired | failed | error.

Record RepairResult : Type := {
  torrentHash : string;
  fileId : string;
  fileName : string;
  status : RepairStatus;
  message : string }.

(** The elements of the [repairs] array: [{ torrent, file }]. *)
Record RepairTarget : Type := { torrent : Torrent.t; file : TorrentFile.t }.

(** ** Strings *)

(** [String.prototype.toLowerCase] on the ASCII letters. The only use is the
    comparison with ["available"], and no character outside ASCII lowers to
    one of its letters. *)
Definition lower_ascii (c : ascii) : ascii :=
  let n := nat_of_ascii c in
  if (65 <=? n)%nat && (n <=? 90)%nat then ascii_of_nat (n + 32) else c.

Fixpoint toLowerCase (s : string) : string :=
  match s with
  | EmptyString => EmptyString
  | String c rest => String (lower_ascii c) (toLowerCase rest)
  end.

(** [file.status.toLowerCase() === "available"] *)
Definition isAvailable (f : TorrentFile.t) : bool :=
  String.eqb (toLowerCase (TorrentFile.status f)) "available".

(** ** Exceptions and settled promises *)

(** A thrown value: an instance of [Error] with its name ("Error",
    "TypeError", ...) and its message, or anything else with its rendering by
    [String]. *)
Inductive exn : Type :=
| JsError (name msg : string)
| JsValue (rendering : string).

(** [new Error(msg)] *)
Definition newError (msg : string) : exn := JsError "Error" msg.

(** [error instanceof Error ? error.message : String(error)] *)
Definition errorMessage (e : exn) : string :=
  match e with JsError _ m => m | JsValue s => s end.

(** [String(reason)]; on an instance of [Error] it is
    [Error.prototype.toString]. *)
Definition String_of (e : exn) : string :=
  match e with
  | JsError name m =>
      if String.eqb name "" then m
      else if String.eqb m "" then name
      else name +:+ ": " +:+ m
  | JsValue s => s
  end.

(** [PromiseSettledResult<A>] *)
Inductive PromiseSettledResult (A : Type) : Type :=
| fulfilled (value : A)
| rejected (reason : exn).
Arguments fulfilled {A} value.
Arguments rejected {A} reason.

(** ** I/O operations *)

(** The four pages of the management console the program requests:
    GET /manage/, GET /manage/${hash}/,
    POST /manage/${torrentHash}/files/${fileId}/delete and
    POST /manage/${torrentHash}/files/${fileId}/restore. *)
Inductive endpoint : Type :=
| ManagePage
| DetailsPage (hash : string)
| DeleteAction (torrentHash fileId : string)
| RestoreAction (torrentHash fileId : string).

(** What the program reads of a [Response]. *)
Record Response : Type := { ok : bool; statusText : string; text : string }.

(** The suspension points: [await fetch(url, ...)], which may itself throw,
    and [await new Promise((resolve) => setTimeout(resolve, ms))]. *)
Inductive call : Type -> Type :=
| fetch (page : endpoint) (baseUrl : string) : call (exn + Response)
| setTimeout (ms : nat) : call unit.

(** ** Tasks: asynchronous functions as trees of awaited operations *)

Inductive Task (A : Type) : Type :=
| Ret (a : A)
| Throw (e : exn)
| Await {X : Type} (c : call X) (k : X -> Task A).
Arguments Ret {A} a.
Arguments Throw {A} e.
Arguments Await {A X} c k.

Fixpoint bind {A B : Type} (t : Task A) (f : A -> Task B) : Task B :=
  match t with
  | Ret a => f a
  | Throw e => Throw e
  | Await c k => Await c (fun x => bind (k x) f)
  end.

(** [try { t } catch (e) { handler e }] *)
Fixpoint try_catch {A : Type} (t : Task A) (handler : exn -> Task A) : Task A :=
  match t with
  | Ret a => Ret a
  | Throw e => handler e
  | Await c k => Await c (fun x => try_catch (k x) handler)
  end.

#[export] Instance Task_ret : MRet Task := @Ret.
#[export] Instance Task_bind : MBind Task := fun A B f t => bind t f.

Definition await {X : Type} (c : call X) : Task X := Await c Ret.

(** ** The HTML extractors *)

Class HtmlParser : Type := {
  parseTorrentList : string -> list Torrent.t;
  parseTorrentFiles : string -> list TorrentFile.t }.

(** ** [src/lib/zurg.ts]: the requests *)

Section Zurg.
Context {parser : HtmlParser}.

Definition getManagePageHtml (baseUrl : string) : Task string :=
  response ← await (fetch ManagePage baseUrl);
  match response with
  | inl e => Throw e
  | inr response =>
      if negb (ok response)
      then Throw (newError ("Failed to fetch manage page from " +:+ baseUrl +:+ ": "
                             +:+ statusText response))
      else mret (text response)
  end.

Definition getTorrentList (baseUrl : string) : Task (list Torrent.t) :=
  html ← getManagePageHtml baseUrl;
  mret (parseTorrentList html).

Definition getTorrentDetailsPageHtml (hash baseUrl : string) : Task string :=
  response ← await (fetch (DetailsPage hash) baseUrl);
  match response with
  | inl e => Throw e
  | inr response =>
      if negb (ok response)
      then Throw (newError ("Failed to fetch torrent details page for hash " +:+ hash
                             +:+ " from " +:+ baseUrl +:+ ": " +:+ statusText response))
      else mret (text response)
  end.

Definition getDetailedTorrent (torrent : Torrent.t) (baseUrl : string)
  : Task DetailedTorrent.t :=
  detailHtml ← getTorrentDetailsPageHtml (Torrent.hash torrent) baseUrl;
  let files := parseTorrentFiles detailHtml in
  mret (DetailedTorrent.spread torrent files).

Definition deleteFile (torrentHash fileId baseUrl : string) : Task unit :=
  response ← await (fetch (DeleteAction torrentHash fileId) baseUrl);
  match response with
  | inl e => Throw e
  | inr response =>
      if negb (ok response)
      then Throw (newError ("Failed to delete file " +:+ fileId +:+ " for torrent "
                             +:+ torrentHash +:+ " from " +:+ baseUrl +:+ ": "
                             +:+ statusText response))
      else mret tt
  end.

Definition restoreFile (torrentHash fileId baseUrl : string) : Task unit :=
  response ← await (fetch (RestoreAction torrentHash fileId) baseUrl);
  match response with
  | inl e => Throw e
  | inr response =>
      if negb (ok response)
      then Throw (newError ("Failed to restore file " +:+ fileId +:+ " for torrent "
                             +:+ torrentHash +:+ " from " +:+ baseUrl +:+ ": "
                             +:+ statusText response))
      else mret tt
  end.

(** ** [src/lib/repair.ts]: [repairFile] *)

(** How one turn of the verification loop ends: [return] from the function,
    [continue], or reach the end of the [try] statement. *)
Inductive LoopControl : Type :=
| Return (result : RepairResult)
| Continue
| Next.

Section RepairFile.
Variables (torrent : Torrent.t) (file : TorrentFile.t) (baseUrl : string).
Variables (maxRetries retryDelay : nat).

(** [const { hash: torrentHash } = torrent; const { id: fileId, name: fileName } = file;] *)
Abbreviation torrentHash' := (Torrent.hash torrent).
Abbreviation fileId' := (TorrentFile.id file).
Abbreviation fileName' := (TorrentFile.name file).

(** Lines 47-88: the [try]/[catch] inside the loop. *)
Definition verifyAttempt (attempt : nat) : Task LoopControl :=
  try_catch
    (updatedTorrent ← getDetailedTorrent torrent baseUrl;
     let updatedFile :=
       List.find (fun f => String.eqb (TorrentFile.id f) fileId')
                 (DetailedTorrent.files updatedTorrent) in
     match updatedFile with
     | None => mret Continue
     | Some updatedFile =>
         if isAvailable updatedFile
         then mret (Return
                {| torrentHash := torrentHash'; fileId := fileId'; fileName := fileName';
                   status := repaired;
                   message := "File repaired successfully after " +:+ pretty attempt
                              +:+ " verification attempt(s)" |})
         else mret Next
     end)
    (fun verifyError => mret Next).

(** Lines 46-106: [for (let attempt = 1; attempt <= maxRetries; attempt++)]
    and the statements after it. [remaining] counts the turns left: the loop
    is entered with [remaining = maxRetries] and [attempt = 1], so its guard
    [attempt <= maxRetries] holds exactly when [remaining] is not [0]. *)
Fixpoint verifyLoop (remaining attempt : nat) : Task RepairResult :=
  match remaining with
  | O =>
      mret {| torrentHash := torrentHash'; fileId := fileId'; fileName := fileName';
              status := failed;
              message := "File repair failed - still not available after "
                         +:+ pretty maxRetries +:+ " verification attempts" |}
  | S remaining =>
      control ← verifyAttempt attempt;
      match control with
      | Return result => mret result
      | Continue => verifyLoop remaining (S attempt)
      | Next =>
          _ ← (if (attempt <? maxRetries)%nat then await (setTimeout retryDelay)
               else mret tt);
          verifyLoop remaining (S attempt)
      end
  end.

Definition repairFile : Task RepairResult :=
  try_catch
    (_ ← deleteFile torrentHash' fileId' baseUrl;
     _ ← restoreFile torrentHash' fileId' baseUrl;
     _ ← await (setTimeout retryDelay);
     verifyLoop maxRetries 1)
    (fun caught =>
       let errorMessage := errorMessage caught in
       mret {| torrentHash := torrentHash'; fileId := fileId'; fileName := fileName';
               status := error;
               message := "Repair process failed: " +:+ errorMessage |}).

End RepairFile.
End Zurg.

(** ** The service, and running tasks against it *)

(** One completed I/O operation with the answer it got. *)
Inductive observation : Type :=
| Observed {X : Type} (c : call X) (x : X).

Definition trace : Type := list observation.

(** The environment of the program. [respond] is the answer an I/O operation
    gets in a state of the world; [completions] is the order in which the
    event loop completes the pending operations of the tasks of one batch,
    as a list of task indices. *)
Class Service : Type := {
  world : Type;
  respond : forall X : Type, call X -> world -> X * world;
  completions : world -> list nat * world }.

(** The outcome of a computation that may also not terminate: [OutOfFuel] is
    the outcome of a loop that has not ended within the fuel it was given. *)
Inductive completion (A : Type) : Type :=
| Normal (a : A)
| Abrupt (e : exn)
| OutOfFuel.
Arguments Normal {A} a.
Arguments Abrupt {A} e.
Arguments OutOfFuel {A}.

Section Running.
Context {service : Service}.

(** A task run alone to its end. *)
Fixpoint runTask {A : Type} (t : Task A) (w : world)
  : PromiseSettledResult A * world * trace :=
  match t with
  | Ret a => (fulfilled a, w, [])
  | Throw e => (rejected e, w, [])
  | Await c k =>
      let '(x, w1) := respond _ c w in
      let '(o, w2, tr) := runTask (k x) w1 in
      (o, w2, Observed c x :: tr)
  end.

(** The pending operation of task [j] completes: the task runs on to its
    next suspension point. *)
Definition resume {A : Type} (j : nat) (tasks : list (Task A)) (w : world)
  : list (Task A) * world * trace :=
  match tasks !! j with
  | Some (Await c k) =>
      let '(x, w1) := respond _ c w in (<[j := k x]> tasks, w1, [Observed c x])
  | _ => (tasks, w, [])
  end.

Fixpoint interleave {A : Type} (order : list nat) (tasks : list (Task A)) (w : world)
  : list (Task A) * world * trace :=
  match order with
  | [] => (tasks, w, [])
  | j :: order =>
      let '(tasks1, w1, tr1) := resume j tasks w in
      let '(tasks2, w2, tr2) := interleave order tasks1 w1 in
      (tasks2, w2, tr1 ++ tr2)
  end.

(** What is still pending after the listed completions is run to its end,
    task after task. *)
Fixpoint drain {A : Type} (tasks : list (Task A)) (w : world)
  : list (PromiseSettledResult A) * world * trace :=
  match tasks with
  | [] => ([], w, [])
  | t :: tasks =>
      let '(o, w1, tr1) := runTask t w in
      let '(os, w2, tr2) := drain tasks w1 in
      (o :: os, w2, tr1 ++ tr2)
  end.

(** Computations of the orchestrating functions. *)
Definition M (A : Type) : Type := world -> completion A * world * trace.

Definition retM {A : Type} (a : A) : M A := fun w => (Normal a, w, []).

Definition bindM {A B : Type} (m : M A) (f : A -> M B) : M B :=
  fun w =>
    match m w with
    | (Normal a, w1, tr1) => let '(r, w2, tr2) := f a w1 in (r, w2, tr1 ++ tr2)
    | (Abrupt e, w1, tr1) => (Abrupt e, w1, tr1)
    | (OutOfFuel, w1, tr1) => (OutOfFuel, w1, tr1)
    end.

Definition throwM {A : Type} (e : exn) : M A := fun w => (Abrupt e, w, []).

Definition diverge {A : Type} : M A := fun w => (OutOfFuel, w, []).

(** [try { m } catch (e) { handler e }] *)
Definition try_catchM {A : Type} (m : M A) (handler : exn -> M A) : M A :=
  fun w =>
    match m w with
    | (Abrupt e, w1, tr1) => let '(r, w2, tr2) := handler e w1 in (r, w2, tr1 ++ tr2)
    | other => other
    end.

(** [await t] *)
Definition awaitTask {A : Type} (t : Task A) : M A :=
  fun w =>
    let '(o, w1, tr) := runTask t w in
    (match o with fulfilled a => Normal a | rejected e => Abrupt e end, w1, tr).

(** [await Promise.allSettled(tasks)]: the tasks run interleaved, in the
    order the event loop completes their operations; the outcomes come in
    the order of the tasks. *)
Definition allSettled {A : Type} (tasks : list (Task A))
  : M (list (PromiseSettledResult A)) :=
  fun w =>
    let '(order, w0) := completions w in
    let '(tasks1, w1, tr1) := interleave order tasks w0 in
    let '(outcomes, w2, tr2) := drain tasks1 w1 in
    (Normal outcomes, w2, tr1 ++ tr2).

End Running.

#[export] Instance M_ret `{Service} : MRet M := @retM _.
#[export] Instance M_bind `{Service} : MBind M := fun A B f m => bindM m f.

(** [array.slice(start, end)] for indices that are natural numbers. *)
Definition slice {T : Type} (array : list T) (start end_ : nat) : list T :=
  drop start (take end_ array).

(** ** [src/lib/repair.ts]: [repairFilesConcurrently] *)

Section RepairFilesConcurrently.
Context {parser : HtmlParser} {service : Service}.
Variables (repairs : list RepairTarget) (baseUrl : string).
Variables (concurrencyLimit maxRetries retryDelay : nat).

(** Lines 162-186: [chunkResults.forEach((result, index) => ...)], from
    [index] on. *)
Fixpoint pushChunkResults (chunk : list RepairTarget)
    (chunkResults : list (PromiseSettledResult RepairResult)) (index : nat)
    (results : list RepairResult) : list RepairResult :=
  match chunkResults with
  | [] => results
  | result :: chunkResults =>
      let results :=
        match result with
        | fulfilled value => results ++ [value]
        | rejected reason =>
            match chunk !! index with
            | Some repair =>
                results ++
                [{| torrentHash := Torrent.hash (torrent repair);
                    fileId := TorrentFile.id (file repair);
                    fileName := TorrentFile.name (file repair);
                    status := error;
                    message := "Repair promise rejected: " +:+ String_of reason |}]
            | None => results
            end
        end in
      pushChunkResults chunk chunkResults (S index) results
  end.

(** Lines 144-187: [for (let i = 0; i < repairs.length; i += concurrencyLimit)].
    Nothing in the loop makes it end when [concurrencyLimit] is [0]; [fuel]
    bounds the number of turns. *)
Fixpoint repairLoop (fuel i : nat) (results : list RepairResult)
  : M (list RepairResult) :=
  match fuel with
  | O => diverge
  | S fuel =>
      if (i <? length repairs)%nat then
        let chunk := slice repairs i (i + concurrencyLimit) in
        let chunkPromises :=
          map (fun repair =>
                 repairFile (torrent repair) (file repair) baseUrl maxRetries retryDelay)
              chunk in
        chunkResults ← allSettled chunkPromises;
        repairLoop fuel (i + concurrencyLimit) (pushChunkResults chunk chunkResults 0 results)
      else mret results
  end.

Definition repairFilesConcurrently (fuel : nat) : M (list RepairResult) :=
  repairLoop fuel 0 [].

End RepairFilesConcurrently.

(** ** [src/lib/zurg.ts]: the details of all torrents *)

Section DetailedTorrents.
Context {parser : HtmlParser} {service : Service}.

(** Lines 64-95: [results.forEach((result, index) => ...)], from [index] on. *)
Fixpoint pushDetailed (torrents : list Torrent.t)
    (results : list (PromiseSettledResult DetailedTorrent.t)) (index : nat)
    (detailedTorrents : list DetailedTorrent.t) : list DetailedTorrent.t :=
  match results with
  | [] => detailedTorrents
  | result :: results =>
      let detailedTorrents :=
        match torrents !! index with
        | None => detailedTorrents
        | Some torrent =>
            match result with
            | fulfilled detailedTorrent =>
                let allFilesAvailable :=
                  forallb isAvailable (DetailedTorrent.files detailedTorrent) in
                if negb allFilesAvailable
                then detailedTorrents ++ [detailedTorrent]
                else detailedTorrents
            | rejected reason =>
                detailedTorrents ++
                [{| DetailedTorrent.name := Torrent.name torrent;
                    DetailedTorrent.hash := Torrent.hash torrent;
                    DetailedTorrent.size := Torrent.size torrent;
                    DetailedTorrent.date := Torrent.date torrent;
                    DetailedTorrent.files := [] |}]
            end
        end in
      pushDetailed torrents results (S index) detailedTorrents
  end.

Definition processBatch (torrents : list Torrent.t) (baseUrl : string)
  : M (list DetailedTorrent.t) :=
  results ← allSettled (map (fun torrent => getDetailedTorrent torrent baseUrl) torrents);
  mret (pushDetailed torrents results 0 []).

(** Lines 103-105 of [chunkArray]: [for (let i = 0; i < array.length; i += chunkSize)]. *)
Fixpoint chunkLoop {T : Type} (fuel : nat) (array : list T) (chunkSize i : nat)
    (chunks : list (list T)) : option (list (list T)) :=
  match fuel with
  | O => None
  | S fuel =>
      if (i <? length array)%nat
      then chunkLoop fuel array chunkSize (i + chunkSize)
                     (chunks ++ [slice array i (i + chunkSize)])
      else Some chunks
  end.

Definition chunkArray {T : Type} (fuel : nat) (array : list T) (chunkSize : nat)
  : option (list (list T)) :=
  chunkLoop fuel array chunkSize 0 [].

(** Lines 121-141: the loop over the chunks. *)
Fixpoint processChunks (baseUrl : string) (chunks : list (list Torrent.t))
    (allDetailedTorrents : list DetailedTorrent.t) : M (list DetailedTorrent.t) :=
  match chunks with
  | [] => mret allDetailedTorrents
  | chunk :: chunks =>
      allDetailedTorrents ←
        try_catchM
          (batchResults ← processBatch chunk baseUrl;
           mret (allDetailedTorrents ++ batchResults))
          (fun caught => mret allDetailedTorrents);
      processChunks baseUrl chunks allDetailedTorrents
  end.

Definition getDetailedTorrentsConcurrently (fuel : nat) (torrents : list Torrent.t)
    (baseUrl : string) (concurrencyLimit : nat) : M (list DetailedTorrent.t) :=
  match chunkArray fuel torrents concurrencyLimit with
  | None => diverge
  | Some chunks => processChunks baseUrl chunks []
  end.

End DetailedTorrents.

(** ** [src/lib/config.ts]: an instance, and [src/lib/repair-runner.ts] *)

Module ZurgInstance.
Record t : Type := mk {
  name : string;
  baseUrl : string;
  concurrencyLimit : nat;
  cronSchedule : string;
  enabled : bool;
  retryAttempts : nat;
  retryDelay : nat }.
End ZurgInstance.

(** The accumulator of the [reduce] that counts the results by status. *)
Module Summary.
Record t : Type := mk { repaired : nat; failed : nat; error : nat }.
End Summary.

(** [acc[result.status]++] *)
Definition countStatus (acc : Summary.t) (result : RepairResult) : Summary.t :=
  match status result with
  | repaired => Summary.mk (S (Summary.repaired acc)) (Summary.failed acc) (Summary.error acc)
  | failed => Summary.mk (Summary.repaired acc) (S (Summary.failed acc)) (Summary.error acc)
  | error => Summary.mk (Summary.repaired acc) (Summary.failed acc) (S (Summary.error acc))
  end.

(** [repairResults.reduce(..., { repaired: 0, failed: 0, error: 0 })] *)
Definition summarize (repairResults : list RepairResult) : Summary.t :=
  foldl countStatus (Summary.mk 0 0 0) repairResults.

(** Lines 394-405: the broken files of the detailed torrents, in order. *)
Definition collectBrokenFiles (detailedTorrents : list DetailedTorrent.t)
  : list RepairTarget :=
  flat_map
    (fun torrent =>
       let brokenFilesInTorrent :=
         List.filter (fun file => negb (isAvailable file))
                     (DetailedTorrent.files torrent) in
       map (fun file => {| torrent := DetailedTorrent.upcast torrent; file := file |})
           brokenFilesInTorrent)
    detailedTorrents.

Section RepairRunner.
Context {parser : HtmlParser} {service : Service}.

Definition runRepairForInstance (fuel : nat) (instance : ZurgInstance.t) : M unit :=
  try_catchM
    (allTorrents ← awaitTask (getTorrentList (ZurgInstance.baseUrl instance));
     if (length allTorrents =? 0)%nat then mret tt else
     detailedTorrents ←
       getDetailedTorrentsConcurrently fuel allTorrents
         (ZurgInstance.baseUrl instance) (ZurgInstance.concurrencyLimit instance);
     let brokenFiles := collectBrokenFiles detailedTorrents in
     if (length brokenFiles =? 0)%nat then mret tt else
     repairResults ←
       repairFilesConcurrently brokenFiles (ZurgInstance.baseUrl instance)
         (ZurgInstance.concurrencyLimit instance) (ZurgInstance.retryAttempts instance)
         (ZurgInstance.retryDelay instance) fuel;
     let summary := summarize repairResults in
     if (0 <? Summary.failed summary)%nat || (0 <? Summary.error summary)%nat
     then throwM (newError ("Some repairs failed for instance '"
                             +:+ ZurgInstance.name instance +:+ "'. "
                             +:+ pretty (Summary.failed summary) +:+ " failed, "
                             +:+ pretty (Summary.error summary) +:+ " errors."))
     else mret tt)
    (fun caught => throwM caught).

End RepairRunner.

(** ** [src/lib/scheduler.ts]: [executeInstance] *)

Module Scheduler.

(** The field of [ZurgScheduler] that [executeInstance] reads and writes. *)
Record state : Type := { runningJobs : gset string }.

(** A method of the scheduler: between two suspension points it reads and
    writes the state without interruption ([Sync]); its only suspension
    point is [await runRepairForInstance(instance)] ([AwaitRun]), which
    resumes with the way the run settled. *)
Inductive Job (A : Type) : Type :=
| Done (a : A)
| Raise (e : exn)
| Sync {X : Type} (op : state -> X * state) (k : X -> Job A)
| AwaitRun (instance : ZurgInstance.t) (k : PromiseSettledResult unit -> Job A).
Arguments Done {A} a.
Arguments Raise {A} e.
Arguments Sync {A X} op k.
Arguments AwaitRun {A} instance k.

Fixpoint bindJob {A B : Type} (j : Job A) (f : A -> Job B) : Job B :=
  match j with
  | Done a => f a
  | Raise e => Raise e
  | Sync op k => Sync op (fun x => bindJob (k x) f)
  | AwaitRun instance k => AwaitRun instance (fun r => bindJob (k r) f)
  end.

(** [try { j } catch (e) { handler e }] *)
Fixpoint catchJob {A : Type} (j : Job A) (handler : exn -> Job A) : Job A :=
  match j with
  | Done a => Done a
  | Raise e => handler e
  | Sync op k => Sync op (fun x => catchJob (k x) handler)
  | AwaitRun instance k => AwaitRun instance (fun r => catchJob (k r) handler)
  end.

(** [try { j } finally { cleanup }] *)
Fixpoint finallyJob {A : Type} (j : Job A) (cleanup : Job unit) : Job A :=
  match j with
  | Done a => bindJob cleanup (fun _ => Done a)
  | Raise e => bindJob cleanup (fun _ => Raise e)
  | Sync op k => Sync op (fun x => finallyJob (k x) cleanup)
  | AwaitRun instance k => AwaitRun instance (fun r => finallyJob (k r) cleanup)
  end.

#[export] Instance Job_ret : MRet Job := @Done.
#[export] Instance Job_bind : MBind Job := fun A B f j => bindJob j f.

(** [this.runningJobs.has(key)], [.add(key)], [.delete(key)] *)
Definition has (key : string) : Job bool :=
  Sync (fun st => (bool_decide (key ∈ runningJobs st), st)) Done.

Definition add (key : string) : Job unit :=
  Sync (fun st => (tt, {| runningJobs := {[key]} ∪ runningJobs st |})) Done.

Definition delete_ (key : string) : Job unit :=
  Sync (fun st => (tt, {| runningJobs := runningJobs st ∖ {[key]} |})) Done.

(** [await runRepairForInstance(instance)] *)
Definition awaitRun (instance : ZurgInstance.t) : Job unit :=
  AwaitRun instance
    (fun settled =>
       match settled with fulfilled _ => Done tt | rejected e => Raise e end).

Definition executeInstance (instance : ZurgInstance.t) : Job unit :=
  let jobKey := ZurgInstance.name instance in
  running ← has jobKey;
  if running : bool then mret tt else
  _ ← add jobKey;
  finallyJob
    (catchJob (awaitRun instance) (fun caught => mret tt))
    (delete_ jobKey).

(** *** The event loop around the scheduler *)

(** Where a job stands once it cannot run on: settled, or suspended on a run
    of [instance] with the continuation [resume]. *)
Inductive suspension (A : Type) : Type :=
| Settled (outcome : PromiseSettledResult A)
| Suspended (instance : ZurgInstance.t) (resume : PromiseSettledResult unit -> Job A).
Arguments Settled {A} outcome.
Arguments Suspended {A} instance resume.

(** A job runs through its synchronous operations to its next suspension
    point. *)
Fixpoint advance {A : Type} (j : Job A) (st : state) : suspension A * state :=
  match j with
  | Done a => (Settled (fulfilled a), st)
  | Raise e => (Settled (rejected e), st)
  | Sync op k => let '(x, st1) := op st in advance (k x) st1
  | AwaitRun instance k => (Suspended instance k, st)
  end.

(** The scheduler object together with the runs in flight: each entry of
    [active] is one invocation of [runRepairForInstance] that has not settled
    yet, with the suspended [executeInstance] that awaits it. *)
Record scheduler : Type := {
  fields : state;
  active : list (ZurgInstance.t * (PromiseSettledResult unit -> Job unit)) }.

Definition initial : scheduler :=
  {| fields := {| runningJobs := ∅ |}; active := [] |}.

(** What happens to a scheduler: a trigger of [instance] fires (the cron task
    or [runInstanceNow] calls [executeInstance(instance)]), or the run in
    flight number [n] settles. *)
Inductive event : Type :=
| Trigger (instance : ZurgInstance.t)
| Settle (n : nat) (outcome : PromiseSettledResult unit).

Definition step (s : scheduler) (ev : event) : scheduler :=
  match ev with
  | Trigger instance =>
      match advance (executeInstance instance) (fields s) with
      | (Settled _, st) => {| fields := st; active := active s |}
      | (Suspended i k, st) => {| fields := st; active := active s ++ [(i, k)] |}
      end
  | Settle n outcome =>
      match active s !! n with
      | None => s
      | Some (_, k) =>
          match advance (k outcome) (fields s) with
          | (Settled _, st) => {| fields := st; active := delete n (active s) |}
          | (Suspended i k, st) => {| fields := st; active := <[n := (i, k)]> (active s) |}
          end
      end
  end.

(** The instances whose run is in flight. *)
Definition inFlight (s : scheduler) : list string :=
  (fun entry => ZurgInstance.name (fst entry)) <$> active s.

End Scheduler.

(** ** [src/lib/scheduler.ts]: the other methods of [ZurgScheduler] *)

(** A [Map] with string keys: the entries in insertion order. [set] on a key
    of the map replaces its value in place. *)
Module JsMap.

Definition t (V : Type) : Type := list (string * V).

Definition has {V : Type} (key : string) (m : t V) : bool :=
  existsb (fun entry => String.eqb (fst entry) key) m.

Fixpoint set {V : Type} (key : string) (value : V) (m : t V) : t V :=
  match m with
  | [] => [(key, value)]
  | (k, v) :: rest =>
      if String.eqb k key then (k, value) :: rest else (k, v) :: set key value rest
  end.

Definition clear {V : Type} (m : t V) : t V := [].

End JsMap.

(** The node-cron library, as far as the scheduler uses it:
    [cron.validate(expression)];
    [cron.schedule(expression, () => this.executeInstance(instance), { timezone })],
    which gives a task or throws; and [task.destroy()], with the value it
    throws, if any. [task.start()] is called last in its [try] block, after
    the task was stored, and what it throws is caught and logged: its result
    has no influence, and the call is recorded only. *)
Class Cron : Type := {
  ScheduledTask : Type;
  validate : string -> bool;
  schedule : string -> ZurgInstance.t -> string -> exn + ScheduledTask;
  destroy : ScheduledTask -> option exn }.

Module ZurgScheduler.

Section Methods.
Context {cron : Cron}.

(** The calls made on the tasks. *)
Inductive taskCall : Type :=
| Started (task : ScheduledTask)
| Destroyed (task : ScheduledTask).

(** Lines 36-69. A failure of [cron.schedule] is caught and logged, and
    nothing is stored; the task is stored before it is started. *)
Definition scheduleInstance (timezone : string) (instance : ZurgInstance.t)
    (jobs : JsMap.t ScheduledTask) : JsMap.t ScheduledTask * list taskCall :=
  if negb (validate (ZurgInstance.cronSchedule instance)) then (jobs, [])
  else
    match schedule (ZurgInstance.cronSchedule instance) instance timezone with
    | inl caught => (jobs, [])
    | inr task => (JsMap.set (ZurgInstance.name instance) task jobs, [Started task])
    end.

(** Lines 17-31: [for (const instance of config.instances)]. *)
Fixpoint startAll (timezone : string) (instances : list ZurgInstance.t)
    (jobs : JsMap.t ScheduledTask) : JsMap.t ScheduledTask * list taskCall :=
  match instances with
  | [] => (jobs, [])
  | instance :: instances =>
      let '(jobs, calls) :=
        if ZurgInstance.enabled instance then scheduleInstance timezone instance jobs
        else (jobs, []) in
      let '(jobs, calls') := startAll timezone instances jobs in
      (jobs, calls ++ calls')
  end.

(** Lines 115-118: [for (const [name, task] of this.jobs) task.destroy()];
    the loop ends at the first call that throws. *)
Fixpoint destroyAll (entries : JsMap.t ScheduledTask) : option exn * list taskCall :=
  match entries with
  | [] => (None, [])
  | (name, task) :: entries =>
      match destroy task with
      | Some thrown => (Some thrown, [Destroyed task])
      | None => let '(thrown, calls) := destroyAll entries in (thrown, Destroyed task :: calls)
      end
  end.

(** Lines 112-122: the value thrown, if any, the map afterwards, and the
    calls made. *)
Definition stopAll (jobs : JsMap.t ScheduledTask)
  : option exn * JsMap.t ScheduledTask * list taskCall :=
  match destroyAll jobs with
  | (Some thrown, calls) => (Some thrown, jobs, calls)
  | (None, calls) => (None, JsMap.clear jobs, calls)
  end.

(** An element of the array [getStatus] returns. *)
Record Status : Type := {
  name : string;
  enabled : bool;
  running : bool;
  cronSchedule : string;
  scheduled : bool }.

(** Lines 127-141. *)
Definition getStatus (instances : list ZurgInstance.t) (jobs : JsMap.t ScheduledTask)
    (st : Scheduler.state) : list Status :=
  map (fun instance =>
         {| name := ZurgInstance.name instance;
            enabled := ZurgInstance.enabled instance;
            running := bool_decide (ZurgInstance.name instance ∈ Scheduler.runningJobs st);
            cronSchedule := ZurgInstance.cronSchedule instance;
            scheduled := JsMap.has (ZurgInstance.name instance) jobs |})
      instances.

End Methods.

(** Lines 199-210. *)
Definition runInstanceNow (instances : list ZurgInstance.t) (instanceName : string)
  : Scheduler.Job unit :=
  match List.find (fun i => String.eqb (ZurgInstance.name i) instanceName) instances with
  | None => Scheduler.Raise (newError ("Instance '" +:+ instanceName +:+ "' not found"))
  | Some instance =>
      if negb (ZurgInstance.enabled instance)
      then Scheduler.Raise (newError ("Instance '" +:+ instanceName +:+ "' is disabled"))
      else Scheduler.executeInstance instance
  end.

(** Lines 167-187, [waitForJobs]: [maxWait] (30000), [checkInterval], and the loop
    [while (this.runningJobs.size > 0 && waited < maxWait)]. During each
    wait of [checkInterval] the event loop goes through some events of the
    scheduler: [during] lists them, wait by wait. The result is the time
    waited, the scheduler at the end, and the code given to [process.exit]. *)
Definition maxWait : nat := 30 * 1000.
Definition checkInterval : nat := 1000.

Fixpoint waitLoop (fuel waited : nat) (s : Scheduler.scheduler)
    (during : list (list Scheduler.event)) : option (nat * Scheduler.scheduler) :=
  match fuel with
  | O => None
  | S fuel =>
      if (0 <? size (Scheduler.runningJobs (Scheduler.fields s)))%nat
         && (waited <? maxWait)%nat
      then waitLoop fuel (waited + checkInterval)
             (foldl Scheduler.step s (hd [] during)) (tl during)
      else Some (waited, s)
  end.

Definition waitForJobs (fuel : nat) (s : Scheduler.scheduler)
    (during : list (list Scheduler.event)) : option (nat * Scheduler.scheduler * nat) :=
  match waitLoop fuel 0 s during with
  | Some (waited, s) => Some (waited, s, 0)
  | None => None
  end.

End ZurgScheduler.

(** ** [src/index.ts]: [runOneTimeExecution]

    The lines are those of the listing of [scheduler.ts], which [index.ts]
    follows. *)

(** How [runOneTimeExecution] ends: it returns to [main], or it ends the
    process with [process.exit(code)]. *)
Inductive ending : Type :=
| Returns
| Exits (code : nat).

Section OneTime.
Context {parser : HtmlParser} {service : Service}.

(** Lines 255-263: [for (const instance of enabledInstances)], the failure
    of a run caught and logged. *)
Fixpoint runEach (fuel : nat) (enabledInstances : list ZurgInstance.t) : M unit :=
  match enabledInstances with
  | [] => mret tt
  | instance :: enabledInstances =>
      _ ← try_catchM (runRepairForInstance fuel instance) (fun caught => mret tt);
      runEach fuel enabledInstances
  end.

(** Lines 246-265: the branch that runs all enabled instances. *)
Definition runAllEnabled (fuel : nat) (instances : list ZurgInstance.t) : M ending :=
  let enabledInstances := List.filter ZurgInstance.enabled instances in
  if (length enabledInstances =? 0)%nat then mret Returns
  else _ ← runEach fuel enabledInstances; mret Returns.

(** Lines 227-271. [RUN_INSTANCE] is [process.env.RUN_INSTANCE]: a string or
    [undefined]; in [if (RUN_INSTANCE)] the empty string counts as absent. *)
Definition runOneTimeExecution (fuel : nat) (instances : list ZurgInstance.t)
    (RUN_INSTANCE : option string) : M ending :=
  try_catchM
    (match RUN_INSTANCE with
     | Some wanted =>
         if negb (String.eqb wanted "") then
           match List.find (fun i => String.eqb (ZurgInstance.name i) wanted) instances with
           | None => mret (Exits 1)
           | Some instance =>
               if negb (ZurgInstance.enabled instance) then mret (Exits 1)
               else _ ← runRepairForInstance fuel instance; mret Returns
           end
         else runAllEnabled fuel instances
     | None => runAllEnabled fuel instances
     end)
    (fun caught => mret (Exits 1)).

End OneTime.

(** ** [src/lib/zurg.ts]: the paths of the requests *)

(** The path each request is made for: the first argument of [new URL] in
    [getManagePageHtml], [getTorrentDetailsPageHtml], [deleteFile] and
    [restoreFile]. *)
Definition pathOf (page : endpoint) : string :=
  match page with
  | ManagePage => "/manage/"
  | DetailsPage hash => "/manage/" +:+ hash +:+ "/"
  | DeleteAction torrentHash fileId =>
      "/manage/" +:+ torrentHash +:+ "/files/" +:+ fileId +:+ "/delete"
  | RestoreAction torrentHash fileId =>
      "/manage/" +:+ torrentHash +:+ "/files/" +:+ fileId +:+ "/restore"
  end.

(** ** [src/lib/torrentDetailsParser.ts]: [parseTorrentFiles]

    The function over what cheerio reads of the rows of [$("table tbody tr")],
    in document order. *)

Module TorrentDetailsParser.

(** What the parser reads of a [td] element: its text, the text of its
    [span.memory-stat] and [span.badge] descendants, each trimmed, and the
    [action] attribute of each of its [form] descendants, when it has one. *)
Record Cell : Type := {
  cellText : string;
  memoryStat : string;
  badge : string;
  formActions : list (option string) }.

(** What the parser reads of a row of [$("table tbody tr")]:
    [row.find("th").text().trim()], [row.find("th").length] and
    [row.find("td")]. *)
Record Row : Type := {
  headerText : string;
  headers : nat;
  tds : list Cell }.

(** [\d] *)
Definition isDigit (c : ascii) : bool :=
  let n := nat_of_ascii c in (48 <=? n)%nat && (n <=? 57)%nat.

(** The longest prefix of decimal digits of a string, and what follows it. *)
Fixpoint digits (s : string) : string * string :=
  match s with
  | EmptyString => (EmptyString, EmptyString)
  | String c rest =>
      if isDigit c then let '(ds, after) := digits rest in (String c ds, after)
      else (EmptyString, s)
  end.

(** [s] without its prefix [p], when it has that prefix. *)
Fixpoint stripPrefix (p s : string) : option string :=
  match p with
  | EmptyString => Some s
  | String a p =>
      match s with
      | EmptyString => None
      | String b s => if Ascii.eqb a b then stripPrefix p s else None
      end
  end.

(** The pattern [/\/files\/(\d+)\//] at the start of [s]: the group. The
    digits are matched greedily, and no shorter run of digits is followed
    by a slash. *)
Definition matchHere (s : string) : option string :=
  match stripPrefix "/files/" s with
  | None => None
  | Some after =>
      match digits after with
      | (String d ds, String "/" _) => Some (String d ds)
      | _ => None
      end
  end.

(** [formAction.match(/\/files\/(\d+)\//)]: the group of the leftmost match.
    The pattern is made of ASCII characters, so it matches in a string of
    bytes where it matches in the string of characters. *)
Fixpoint matchFileId (formAction : string) : option string :=
  match matchHere formAction with
  | Some group => Some group
  | None =>
      match formAction with
      | EmptyString => None
      | String _ rest => matchFileId rest
      end
  end.

(** The loop over the forms of the right cell: the id of the first form
    whose action matches. *)
Fixpoint fileIdOf (formActions : list (option string)) : string :=
  match formActions with
  | [] => ""
  | action :: formActions =>
      let formAction := default "" action in
      match matchFileId formAction with
      | Some group => if String.eqb group "" then fileIdOf formActions else group
      | None => fileIdOf formActions
      end
  end.

(** A string in a condition: true unless empty. *)
Definition truthy (s : string) : bool := negb (String.eqb s "").

(** The file a row with two cells gives, when it has a name, a size, a
    status and an id. *)
Definition fileOfRow (row : Row) : option TorrentFile.t :=
  match tds row with
  | [leftCell; rightCell] =>
      let fileName := cellText leftCell in
      let sizeText := memoryStat rightCell in
      let statusText := badge rightCell in
      let fileId := fileIdOf (formActions rightCell) in
      if truthy fileName && truthy sizeText && truthy statusText && truthy fileId
      then Some {| TorrentFile.name := fileName; TorrentFile.size := sizeText;
                   TorrentFile.status := statusText; TorrentFile.id := fileId |}
      else None
  | _ => None
  end.

(** The loop over the rows. *)
Fixpoint parseRows (rows : list Row) (foundFilesSection : bool)
    (files : list TorrentFile.t) : list TorrentFile.t :=
  match rows with
  | [] => files
  | row :: rows =>
      if String.eqb (headerText row) "Files" then parseRows rows true files
      else if negb foundFilesSection then parseRows rows foundFilesSection files
      else if (0 <? headers row)%nat then files
      else
        match fileOfRow row with
        | Some file => parseRows rows foundFilesSection (files ++ [file])
        | None => parseRows rows foundFilesSection files
        end
  end.

Definition parseTorrentFiles (rows : list Row) : list TorrentFile.t :=
  parseRows rows false [].

End TorrentDetailsParser.

(** * The vocabulary of the statements *)

(** ** Branches of a task, and what a trace explains *)

(** Every branch of a task that returns does so with a value in [P], and
    every branch that throws does so with a value in [Q]. *)
Fixpoint leaves {A : Type} (P : A -> Prop) (Q : exn -> Prop) (t : Task A) : Prop :=
  match t with
  | Ret a => P a
  | Throw e => Q e
  | Await c k => forall x, leaves P Q (k x)
  end.

(** In every branch the task returns, with a value in [P]. *)
Definition always_returns {A : Type} (P : A -> Prop) (t : Task A) : Prop :=
  leaves P (fun _ => False) t.

(** The outcome [o] of task [t] is explained by the trace [tr]: [t] reaches
    [o] when each of its operations gets an answer observed in [tr]. *)
Fixpoint explains {A : Type} (tr : trace) (t : Task A) (o : PromiseSettledResult A)
  : Prop :=
  match t with
  | Ret a => o = fulfilled a
  | Throw e => o = rejected e
  | Await c k => exists x, In (Observed c x) tr /\ explains tr (k x) o
  end.

(** [t'] is what is left of [t] after some of its operations got answers
    observed in [tr]. *)
Fixpoint residual {A : Type} (tr : trace) (t t' : Task A) : Prop :=
  t' = t \/
  match t with
  | Await c k => exists x, In (Observed c x) tr /\ residual tr (k x) t'
  | _ => False
  end.

(** ** Observations on a run of [repairFile] *)

(** The result carries the identifiers of the target. *)
Definition carries (torrent : Torrent.t) (file : TorrentFile.t) (result : RepairResult)
  : Prop :=
  torrentHash result = Torrent.hash torrent /\
  fileId result = TorrentFile.id file /\
  fileName result = TorrentFile.name file.

(** The answer an observation gave to a request for a details page. *)
Definition detailAnswer (ob : observation) : option (exn + Response) :=
  match ob with
  | Observed c x =>
      match c in call X return X -> option (exn + Response) with
      | fetch (DetailsPage _) _ => fun answer => Some answer
      | _ => fun _ => None
      end x
  end.

(** The answers to the requests for a details page in a trace, in order:
    one per verification attempt of [repairFile]. *)
Definition detailFetches (tr : trace) : list (exn + Response) :=
  omap detailAnswer tr.

(** The waits in a trace. *)
Definition isWait (ob : observation) : bool :=
  match ob with
  | Observed (setTimeout _) _ => true
  | _ => false
  end.

(** The operation of an observation, by name. *)
Definition operationName (ob : observation) : string :=
  match ob with
  | Observed (fetch ManagePage _) _ => "list"
  | Observed (fetch (DetailsPage _) _) _ => "details"
  | Observed (fetch (DeleteAction _ _) _) _ => "delete"
  | Observed (fetch (RestoreAction _ _) _) _ => "restore"
  | Observed (setTimeout _) _ => "wait"
  end.

(** The number of waits between each two consecutive requests for a details
    page in a trace ([seen]: a request has been met; [count]: the waits since
    then). *)
Fixpoint waitsFrom (tr : trace) (seen : bool) (count : nat) : list nat :=
  match tr with
  | [] => []
  | ob :: tr =>
      match detailAnswer ob with
      | Some _ => if seen then count :: waitsFrom tr true 0 else waitsFrom tr true 0
      | None => waitsFrom tr seen (if isWait ob then S count else count)
      end
  end.

Definition waitsBetweenAttempts (tr : trace) : list nat := waitsFrom tr false 0.

Section FindsAvailable.
Context {parser : HtmlParser}.

(** A verification attempt that got [answer] finds the file [fileId] with a
    status equal to "available" up to case. *)
Definition findsAvailable (fileId : string) (answer : exn + Response) : bool :=
  match answer with
  | inl _ => false
  | inr response =>
      ok response &&
      match List.find (fun f => String.eqb (TorrentFile.id f) fileId)
                      (parseTorrentFiles (text response)) with
      | Some updatedFile => isAvailable updatedFile
      | None => false
      end
  end.

End FindsAvailable.

Section Results.
Context {parser : HtmlParser}.
Variables (torrent : Torrent.t) (file : TorrentFile.t) (maxRetries : nat).

(** The three records [repairFile] returns. *)
Definition repairedResult (attempt : nat) : RepairResult :=
  {| torrentHash := Torrent.hash torrent; fileId := TorrentFile.id file;
     fileName := TorrentFile.name file; status := repaired;
     message := "File repaired successfully after " +:+ pretty attempt
                +:+ " verification attempt(s)" |}.

Definition failedResult : RepairResult :=
  {| torrentHash := Torrent.hash torrent; fileId := TorrentFile.id file;
     fileName := TorrentFile.name file; status := failed;
     message := "File repair failed - still not available after "
                +:+ pretty maxRetries +:+ " verification attempts" |}.

Definition errorResult (e : exn) : RepairResult :=
  {| torrentHash := Torrent.hash torrent; fileId := TorrentFile.id file;
     fileName := TorrentFile.name file; status := error;
     message := "Repair process failed: " +:+ errorMessage e |}.

(** How a verification attempt ends, from the answer its request got. *)
Definition attemptControl (attempt : nat) (answer : exn + Response) : LoopControl :=
  if findsAvailable (TorrentFile.id file) answer then Return (repairedResult attempt)
  else
    match answer with
    | inl _ => Next
    | inr response =>
        if negb (ok response) then Next
        else
          match List.find (fun f => String.eqb (TorrentFile.id f) (TorrentFile.id file))
                          (parseTorrentFiles (text response)) with
          | None => Continue
          | Some _ => Next
          end
    end.

End Results.

(** ** Observations on the orchestrating functions *)

(** The result corresponds to the target. *)
Definition corresponds (target : RepairTarget) (result : RepairResult) : Prop :=
  carries (torrent target) (file target) result.

(** The entry [processBatch] pushes for a torrent whose request could not be
    fetched (lines 87-93). *)
Definition fallback (torrent : Torrent.t) : DetailedTorrent.t :=
  DetailedTorrent.spread torrent [].

(** A request failed: [fetch] threw, or the response is not [ok]. *)
Definition fetchFailed (answer : exn + Response) : bool :=
  match answer with
  | inl _ => true
  | inr response => negb (ok response)
  end.

Section EntryFor.
Context {parser : HtmlParser}.

(** What a torrent contributes to the list [processBatch] returns, from the
    answer the request for its details page got. *)
Definition entryFor (torrent : Torrent.t) (answer : exn + Response)
  : list DetailedTorrent.t :=
  if fetchFailed answer then [fallback torrent]
  else
    match answer with
    | inl _ => []
    | inr response =>
        let files := parseTorrentFiles (text response) in
        if forallb isAvailable files then []
        else [DetailedTorrent.spread torrent files]
    end.

(** [result] is what the torrents contribute, in order, each from an answer
    to its request observed in [tr]. *)
Definition entriesOf (baseUrl : string) (tr : trace) (torrents : list Torrent.t)
    (result : list DetailedTorrent.t) : Prop :=
  exists parts,
    Forall2 (fun torrent part =>
               exists answer,
                 In (Observed (fetch (DetailsPage (Torrent.hash torrent)) baseUrl) answer) tr /\
                 part = entryFor torrent answer)
            torrents parts /\
    result = concat parts.

End EntryFor.

(** The requests of a trace, with their answers. *)
Definition fetched (ob : observation) : option (endpoint * string * (exn + Response)) :=
  match ob with
  | Observed c x =>
      match c in call X return X -> option (endpoint * string * (exn + Response)) with
      | fetch page baseUrl => fun answer => Some (page, baseUrl, answer)
      | setTimeout _ => fun _ => None
      end x
  end.

(** The error thrown at line 470. *)
Definition someRepairsFailed (instance : ZurgInstance.t) (summary : Summary.t) : exn :=
  newError ("Some repairs failed for instance '" +:+ ZurgInstance.name instance +:+ "'. "
             +:+ pretty (Summary.failed summary) +:+ " failed, "
             +:+ pretty (Summary.error summary) +:+ " errors.").

(** ** Observations on the scheduler *)

(** What [executeInstance(instance)] does once the run it awaits settles:
    the [catch] and the [finally] of lines 98-106. *)
Definition continuation (instance : ZurgInstance.t)
  : PromiseSettledResult unit -> Scheduler.Job unit :=
  fun settled =>
    Scheduler.finallyJob
      (Scheduler.catchJob
         match settled with
         | fulfilled _ => Scheduler.Done tt
         | rejected e => Scheduler.Raise e
         end
         (fun caught => Scheduler.Done tt))
      (Scheduler.delete_ (ZurgInstance.name instance)).

(** An entry of the runs in flight whose suspended [executeInstance], however
    the run settles, ends fulfilled and removes the name of its instance from
    [runningJobs]. *)
Definition clearsOnSettle
    (entry : ZurgInstance.t * (PromiseSettledResult unit -> Scheduler.Job unit)) : Prop :=
  forall outcome st,
    Scheduler.advance (snd entry outcome) st
    = (Scheduler.Settled (fulfilled tt),
       {| Scheduler.runningJobs :=
            Scheduler.runningJobs st ∖ {[ZurgInstance.name (fst entry)]} |}).

(** No two runs in flight are of the same instance, and [runningJobs] holds
    exactly the names of the instances whose run is in flight. *)
Definition exclusive (s : Scheduler.scheduler) : Prop :=
  NoDup (Scheduler.inFlight s) /\
  (forall key,
      key ∈ Scheduler.runningJobs (Scheduler.fields s) <-> key ∈ Scheduler.inFlight s) /\
  Forall clearsOnSettle (Scheduler.active s).

(** ** A scripted service, for concrete runs *)

Module Demo.

Definition okResponse (body : string) : Response :=
  {| ok := true; statusText := "OK"; text := body |}.

Definition notFound : Response :=
  {| ok := false; statusText := "Not Found"; text := "" |}.

Definition movie (status : string) : TorrentFile.t :=
  {| TorrentFile.name := "movie.mkv"; TorrentFile.size := "1.4 GB";
     TorrentFile.status := status; TorrentFile.id := "7" |}.

Definition bundle (hash : string) : Torrent.t :=
  {| Torrent.name := "bundle " +:+ hash; Torrent.hash := hash;
     Torrent.size := "2 GB"; Torrent.date := "2024-01-01" |}.

(** A stand-in for the extractors: three details pages and two lists. *)
Definition parser : HtmlParser :=
  {| parseTorrentList := fun html =>
       if String.eqb html "a" then [bundle "a"]
       else if String.eqb html "a b" then [bundle "a"; bundle "b"]
       else [];
     parseTorrentFiles := fun html =>
       if String.eqb html "available" then [movie "Available"]
       else if String.eqb html "broken" then [movie "Broken"]
       else [] |}.

(** The world of a scripted service: the answers to come. The requests for a
    details page are answered from a queue, and by a network error once the
    queue is empty; every batch completes in the order [order]. *)
Record script : Type := {
  manage : exn + Response;
  deletes : exn + Response;
  restores : exn + Response;
  details : list (exn + Response);
  order : list nat }.

Definition answer (X : Type) (c : call X) (w : script) : X * script :=
  match c in call X return X * script with
  | fetch ManagePage _ => (manage w, w)
  | fetch (DeleteAction _ _) _ => (deletes w, w)
  | fetch (RestoreAction _ _) _ => (restores w, w)
  | fetch (DetailsPage _) _ =>
      match details w with
      | [] => (inl (JsError "TypeError" "fetch failed"), w)
      | a :: rest =>
          (a, {| manage := manage w; deletes := deletes w; restores := restores w;
                 details := rest; order := order w |})
      end
  | setTimeout _ => (tt, w)
  end.

Definition scripted : Service :=
  {| world := script; respond := answer; completions := fun w => (order w, w) |}.

(** A service on which every action succeeds. *)
Definition healthy (details : list (exn + Response)) : script :=
  {| manage := inr (okResponse "a"); deletes := inr (okResponse "");
     restores := inr (okResponse ""); details := details; order := [] |}.

End Demo.

(** ** The vocabulary of the further properties *)

(** Every operation the task may issue, in any of its branches, is in [P]. *)
Fixpoint issues {A : Type} (P : observation -> Prop) (t : Task A) : Prop :=
  match t with
  | Await c k => forall x, P (Observed c x) /\ issues P (k x)
  | _ => True
  end.

Definition verifies (hash baseUrl : string) (retryDelay : nat) (ob : observation) : Prop :=
  match ob with
  | Observed (fetch (DetailsPage h) u) _ => h = hash /\ u = baseUrl
  | Observed (setTimeout ms) _ => ms = retryDelay
  | _ => False
  end.

Definition touches (torrent : Torrent.t) (file : TorrentFile.t) (baseUrl : string)
    (retryDelay : nat) (ob : observation) : Prop :=
  match ob with
  | Observed (fetch (DeleteAction h i) u) _
  | Observed (fetch (RestoreAction h i) u) _ =>
      h = Torrent.hash torrent /\ i = TorrentFile.id file /\ u = baseUrl
  | Observed (fetch (DetailsPage h) u) _ => h = Torrent.hash torrent /\ u = baseUrl
  | Observed (fetch ManagePage _) _ => False
  | Observed (setTimeout ms) _ => ms = retryDelay
  end.


Definition waitedMs (ob : observation) : nat :=
  match ob with
  | Observed (setTimeout ms) _ => ms
  | _ => 0
  end.

Definition totalWait (tr : trace) : nat := sum_list (map waitedMs tr).

(** An operation without its answer. *)
Inductive operation : Type :=
| Request (page : endpoint) (baseUrl : string)
| Wait (ms : nat).

Definition operationOfCall {X : Type} (c : call X) : operation :=
  match c with
  | fetch page baseUrl => Request page baseUrl
  | setTimeout ms => Wait ms
  end.

Definition operationOf (ob : observation) : operation :=
  match ob with Observed c _ => operationOfCall c end.

(** The operation a task is suspended on. *)
Definition pending {A : Type} (t : Task A) : list operation :=
  match t with
  | Await c _ => [operationOfCall c]
  | _ => []
  end.

(** A task that issues at most one operation. *)
Definition oneShot {A : Type} (t : Task A) : Prop :=
  match t with
  | Await c k => forall x, pending (k x) = []
  | _ => True
  end.

(** The request [getDetailedTorrent] makes for a torrent. *)
Definition detailsRequest (baseUrl : string) (torrent : Torrent.t) : operation :=
  Request (DetailsPage (Torrent.hash torrent)) baseUrl.

(** [result] is one of the three records [repairFile] returns for [target]. *)
Definition repairFileResult (target : RepairTarget) (maxRetries : nat)
    (result : RepairResult) : Prop :=
  (exists attempt,
      1 <= attempt <= maxRetries /\
      result = repairedResult (torrent target) (file target) attempt) \/
  result = failedResult (torrent target) (file target) maxRetries \/
  (exists e, result = errorResult (torrent target) (file target) e).

(** An operation of the repair of one of the targets of [chunk]. *)
Definition repairs_one_of (chunk : list RepairTarget) (baseUrl : string) (retryDelay : nat)
    (ob : observation) : Prop :=
  exists target,
    In target chunk /\ touches (torrent target) (file target) baseUrl retryDelay ob.

(** The results of a given status. *)
Definition hasStatus (wanted : RepairStatus) (result : RepairResult) : bool :=
  match wanted, status result with
  | repaired, repaired | failed, failed | error, error => true
  | _, _ => false
  end.


(** A request that changes the service: a delete or a restore action. *)
Definition changes (ob : observation) : option (string * string) :=
  match ob with
  | Observed (fetch (DeleteAction torrentHash fileId) _) _
  | Observed (fetch (RestoreAction torrentHash fileId) _) _ => Some (torrentHash, fileId)
  | _ => None
  end.

Section SeenBroken.
Context {parser : HtmlParser}.

(** The trace shows the file [fileId] of the torrent [hash] as not
    available: a request for the details page of the torrent was answered
    with a page that lists the file with a status other than "available". *)
Definition seenBroken (baseUrl : string) (tr : trace) (hash fileId : string) : Prop :=
  exists response f,
    In (Observed (fetch (DetailsPage hash) baseUrl) (inr response)) tr /\
    ok response = true /\
    In f (parseTorrentFiles (text response)) /\
    TorrentFile.id f = fileId /\
    isAvailable f = false.

End SeenBroken.


(** A string of decimal digits. *)
Definition allDigits (s : string) : bool :=
  forallb TorrentDetailsParser.isDigit (list_ascii_of_string s).

(** A string without a slash. *)
Definition noSlash (s : string) : bool :=
  forallb (fun c => negb (Ascii.eqb c "/")) (list_ascii_of_string s).






Section Ledger.
Context {parser : HtmlParser}.




End Ledger.

Module Scenario.

(** An instance as the configuration file of the README declares it. *)
Definition main : ZurgInstance.t :=
  {| ZurgInstance.name := "main";
     ZurgInstance.baseUrl := "http://zurg:9999";
     ZurgInstance.concurrencyLimit := 10;
     ZurgInstance.cronSchedule := "0 */6 * * *";
     ZurgInstance.enabled := true;
     ZurgInstance.retryAttempts := 3;
     ZurgInstance.retryDelay := 2000 |}.


Definition backup : ZurgInstance.t :=
  {| ZurgInstance.name := "backup";
     ZurgInstance.baseUrl := "http://zurg-backup:9999";
     ZurgInstance.concurrencyLimit := 5;
     ZurgInstance.cronSchedule := "0 2 * * *";
     ZurgInstance.enabled := false;
     ZurgInstance.retryAttempts := 3;
     ZurgInstance.retryDelay := 2000 |}.

(** A stand-in for node-cron: a task is the name of its instance, the
    expression "never" is not valid, and no call throws. *)
Definition cron : Cron :=
  {| ScheduledTask := string;
     validate := fun expression => negb (String.eqb expression "never");
     schedule := fun expression instance timezone => inr (ZurgInstance.name instance);
     destroy := fun task => None |}.

(** Rows of a details page: a row of the torrent's own table, the header of
    the files, a file, and the header of the next section. *)
Definition infoRow : TorrentDetailsParser.Row :=
  {| TorrentDetailsParser.headerText := "";
     TorrentDetailsParser.headers := 0;
     TorrentDetailsParser.tds :=
       [ {| TorrentDetailsParser.cellText := "Hash";
            TorrentDetailsParser.memoryStat := ""; TorrentDetailsParser.badge := "";
            TorrentDetailsParser.formActions := [] |};
         {| TorrentDetailsParser.cellText := "abc123";
            TorrentDetailsParser.memoryStat := ""; TorrentDetailsParser.badge := "";
            TorrentDetailsParser.formActions := [] |} ] |}.

Definition header (text : string) : TorrentDetailsParser.Row :=
  {| TorrentDetailsParser.headerText := text;
     TorrentDetailsParser.headers := 1;
     TorrentDetailsParser.tds := [] |}.

Definition fileRow : TorrentDetailsParser.Row :=
  {| TorrentDetailsParser.headerText := "";
     TorrentDetailsParser.headers := 0;
     TorrentDetailsParser.tds :=
       [ {| TorrentDetailsParser.cellText := "movie.mkv";
            TorrentDetailsParser.memoryStat := ""; TorrentDetailsParser.badge := "";
            TorrentDetailsParser.formActions := [] |};
         {| TorrentDetailsParser.cellText := "1.4 GB Broken";
            TorrentDetailsParser.memoryStat := "1.4 GB";
            TorrentDetailsParser.badge := "Broken";
            TorrentDetailsParser.formActions :=
              [None; Some "/manage/abc123/files/7/restore"] |} ] |}.

End Scenario.

Ltac unfold_monad :=
  unfold mbind, mret, Task_bind, Task_ret, M_bind, M_ret, await in *.

(** * Properties *)

(** ** Tasks *)

Lemma leaves_bind {A B : Type} (P' : A -> Prop) (P : B -> Prop) (Q : exn -> Prop)
    (t : Task A) (f : A -> Task B) :
  leaves P' Q t -> (forall a, P' a -> leaves P Q (f a)) -> leaves P Q (bind t f).
Proof.
  intros Ht Hf. induction t as [a | e | X c k IH]; simpl in *.
  - apply Hf, Ht.
  - exact Ht.
  - intros x. apply IH, Ht.
Qed.

Lemma leaves_try_catch {A : Type} (P : A -> Prop) (Q' Q : exn -> Prop)
    (t : Task A) (h : exn -> Task A) :
  leaves P Q' t -> (forall e, Q' e -> leaves P Q (h e)) -> leaves P Q (try_catch t h).
Proof.
  intros Ht Hh. induction t as [a | e | X c k IH]; simpl in *.
  - exact Ht.
  - apply Hh, Ht.
  - intros x. apply IH, Ht.
Qed.

Lemma leaves_weaken {A : Type} (P P' : A -> Prop) (Q Q' : exn -> Prop) (t : Task A) :
  (forall a, P a -> P' a) -> (forall e, Q e -> Q' e) -> leaves P Q t -> leaves P' Q' t.
Proof.
  intros HP HQ. induction t as [a | e | X c k IH]; simpl; auto.
Qed.

Lemma explains_leaves {A : Type} (P : A -> Prop) (Q : exn -> Prop) (tr : trace)
    (t : Task A) (o : PromiseSettledResult A) :
  leaves P Q t -> explains tr t o ->
  match o with fulfilled a => P a | rejected e => Q e end.
Proof.
  induction t as [a | e | X c k IH]; simpl.
  - intros HP ->. exact HP.
  - intros HQ ->. exact HQ.
  - intros Hk (x & _ & Hx). exact (IH x (Hk x) Hx).
Qed.

Lemma explains_mono {A : Type} (tr tr' : trace) (t : Task A) (o : PromiseSettledResult A) :
  (forall ob, In ob tr -> In ob tr') -> explains tr t o -> explains tr' t o.
Proof.
  intros Hsub. induction t as [a | e | X c k IH]; simpl; auto.
  intros (x & Hin & Hx). exists x. split; [apply Hsub, Hin | apply IH, Hx].
Qed.

Lemma residual_refl {A : Type} (tr : trace) (t : Task A) : residual tr t t.
Proof. destruct t; simpl; auto. Qed.

Lemma residual_mono {A : Type} (tr tr' : trace) (t t' : Task A) :
  (forall ob, In ob tr -> In ob tr') -> residual tr t t' -> residual tr' t t'.
Proof.
  intros Hsub. induction t as [a | e | X c k IH]; simpl; auto.
  intros [-> | (x & Hin & Hx)]; [left; reflexivity | right].
  exists x. split; [apply Hsub, Hin | apply IH, Hx].
Qed.

Lemma residual_trans {A : Type} (tr : trace) (t t' t'' : Task A) :
  residual tr t t' -> residual tr t' t'' -> residual tr t t''.
Proof.
  induction t as [a | e | X c k IH]; simpl.
  - intros [-> | []]. auto.
  - intros [-> | []]. auto.
  - intros [-> | (x & Hin & Hx)] H'; [exact H' |].
    right. exists x. split; [exact Hin | apply IH; assumption].
Qed.

Lemma residual_explains {A : Type} (tr : trace) (t t' : Task A)
    (o : PromiseSettledResult A) :
  residual tr t t' -> explains tr t' o -> explains tr t o.
Proof.
  induction t as [a | e | X c k IH]; simpl.
  - intros [-> | []]. auto.
  - intros [-> | []]. auto.
  - intros [-> | (x & Hin & Hx)] Ho; [exact Ho |].
    exists x. split; [exact Hin | apply IH; assumption].
Qed.

Section TaskFacts.
Context {service : Service}.

Lemma runTask_bind {A B : Type} (t : Task A) (f : A -> Task B) (w : world) :
  runTask (bind t f) w =
  match runTask t w with
  | (fulfilled a, w1, tr1) =>
      let '(o, w2, tr2) := runTask (f a) w1 in (o, w2, tr1 ++ tr2)
  | (rejected e, w1, tr1) => (rejected e, w1, tr1)
  end.
Proof.
  revert w. induction t as [a | e | X c k IH]; intros w; simpl.
  - destruct (runTask (f a) w) as [[o w2] tr2]. reflexivity.
  - reflexivity.
  - destruct (respond X c w) as [x w1]. rewrite IH.
    destruct (runTask (k x) w1) as [[[a | e] w2] tr]; [| reflexivity].
    destruct (runTask (f a) w2) as [[o w3] tr3]. reflexivity.
Qed.

Lemma runTask_try_catch {A : Type} (t : Task A) (h : exn -> Task A) (w : world) :
  runTask (try_catch t h) w =
  match runTask t w with
  | (fulfilled a, w1, tr1) => (fulfilled a, w1, tr1)
  | (rejected e, w1, tr1) =>
      let '(o, w2, tr2) := runTask (h e) w1 in (o, w2, tr1 ++ tr2)
  end.
Proof.
  revert w. induction t as [a | e | X c k IH]; intros w; simpl.
  - reflexivity.
  - destruct (runTask (h e) w) as [[o w2] tr2]. reflexivity.
  - destruct (respond X c w) as [x w1]. rewrite IH.
    destruct (runTask (k x) w1) as [[[a | e] w2] tr]; [reflexivity |].
    destruct (runTask (h e) w2) as [[o w3] tr3]. reflexivity.
Qed.

Lemma runTask_explains {A : Type} (t : Task A) (w w' : world)
    (o : PromiseSettledResult A) (tr : trace) :
  runTask t w = (o, w', tr) -> explains tr t o.
Proof.
  revert w w' o tr. induction t as [a | e | X c k IH]; intros w w' o tr; simpl.
  - intros [= <- _ _]. reflexivity.
  - intros [= <- _ _]. reflexivity.
  - destruct (respond X c w) as [x w1].
    destruct (runTask (k x) w1) as [[o1 w2] tr1] eqn:Hrun.
    intros [= <- _ <-]. exists x. split; [left; reflexivity |].
    eapply explains_mono; [| exact (IH x w1 w2 o1 tr1 Hrun)].
    intros ob Hob. right. exact Hob.
Qed.

Lemma runTask_leaves {A : Type} (P : A -> Prop) (Q : exn -> Prop) (t : Task A)
    (w w' : world) (o : PromiseSettledResult A) (tr : trace) :
  leaves P Q t -> runTask t w = (o, w', tr) ->
  match o with fulfilled a => P a | rejected e => Q e end.
Proof.
  intros Hl Hrun. eapply explains_leaves; [exact Hl |].
  eapply runTask_explains, Hrun.
Qed.

End TaskFacts.

(** ** [repairFile] *)

Lemma leaves_True {A : Type} (t : Task A) : leaves (fun _ => True) (fun _ => True) t.
Proof. induction t; simpl; auto. Qed.

Section RepairFileFacts.
Context {parser : HtmlParser}.
Variables (torrent : Torrent.t) (file : TorrentFile.t) (baseUrl : string).
Variables (maxRetries retryDelay : nat).

Lemma verifyAttempt_leaves (attempt : nat) :
  always_returns
    (fun control =>
       match control with Return result => carries torrent file result | _ => True end)
    (verifyAttempt torrent file baseUrl attempt).
Proof.
  unfold always_returns, verifyAttempt. unfold_monad.
  eapply leaves_try_catch with (Q' := fun _ => True); [| intros e _; exact I].
  eapply leaves_bind; [apply leaves_True |].
  intros updatedTorrent _.
  destruct (List.find _ _) as [updatedFile |]; [| exact I].
  destruct (isAvailable updatedFile); simpl; [| exact I].
  repeat split.
Qed.

Lemma verifyLoop_leaves (remaining attempt : nat) :
  always_returns (carries torrent file)
    (verifyLoop torrent file baseUrl maxRetries retryDelay remaining attempt).
Proof.
  unfold always_returns. revert attempt.
  induction remaining as [| remaining IH]; intros attempt; cbn [verifyLoop].
  - repeat split.
  - unfold_monad. eapply leaves_bind; [apply verifyAttempt_leaves |].
    intros [result | |] Hc; simpl.
    + exact Hc.
    + apply IH.
    + destruct (attempt <? maxRetries)%nat; simpl; intros; apply IH.
Qed.

Lemma repairFile_leaves :
  always_returns (carries torrent file)
    (repairFile torrent file baseUrl maxRetries retryDelay).
Proof.
  unfold always_returns, repairFile. unfold_monad.
  eapply leaves_try_catch with (Q' := fun _ => True).
  - eapply leaves_bind; [apply leaves_True |]. intros _ _.
    eapply leaves_bind; [apply leaves_True |]. intros _ _.
    simpl. intros _.
    eapply leaves_weaken; [| | apply verifyLoop_leaves]; auto.
  - intros e _. simpl. repeat split.
Qed.

End RepairFileFacts.

Section RepairFileRuns.
Context {parser : HtmlParser} {service : Service}.
Variables (torrent : Torrent.t) (file : TorrentFile.t) (baseUrl : string).
Variables (maxRetries retryDelay : nat).

Lemma verifyAttempt_run (attempt : nat) (w : world) :
  runTask (verifyAttempt torrent file baseUrl attempt) w =
  let '(answer, w1) := respond _ (fetch (DetailsPage (Torrent.hash torrent)) baseUrl) w in
  (fulfilled (attemptControl torrent file attempt answer), w1,
   [Observed (fetch (DetailsPage (Torrent.hash torrent)) baseUrl) answer]).
Proof.
  unfold verifyAttempt, attemptControl, findsAvailable, getDetailedTorrent,
    getTorrentDetailsPageHtml.
  unfold_monad. simpl.
  destruct (respond _ _ w) as [[e | response] w1]; simpl; [reflexivity |].
  destruct (ok response); simpl; [| reflexivity].
  destruct (List.find _ _) as [updatedFile |]; simpl; [| reflexivity].
  destruct (isAvailable updatedFile); reflexivity.
Qed.

Lemma deleteFile_run (w : world) :
  runTask (deleteFile (Torrent.hash torrent) (TorrentFile.id file) baseUrl) w =
  let c := fetch (DeleteAction (Torrent.hash torrent) (TorrentFile.id file)) baseUrl in
  let '(answer, w1) := respond _ c w in
  (match answer with
   | inl e => rejected e
   | inr response =>
       if ok response then fulfilled tt
       else rejected (newError ("Failed to delete file " +:+ TorrentFile.id file
                                 +:+ " for torrent " +:+ Torrent.hash torrent
                                 +:+ " from " +:+ baseUrl +:+ ": "
                                 +:+ statusText response))
   end, w1, [Observed c answer]).
Proof.
  unfold deleteFile. unfold_monad. simpl.
  destruct (respond _ _ w) as [[e | response] w1]; simpl; [reflexivity |].
  destruct (ok response); reflexivity.
Qed.

Lemma restoreFile_run (w : world) :
  runTask (restoreFile (Torrent.hash torrent) (TorrentFile.id file) baseUrl) w =
  let c := fetch (RestoreAction (Torrent.hash torrent) (TorrentFile.id file)) baseUrl in
  let '(answer, w1) := respond _ c w in
  (match answer with
   | inl e => rejected e
   | inr response =>
       if ok response then fulfilled tt
       else rejected (newError ("Failed to restore file " +:+ TorrentFile.id file
                                 +:+ " for torrent " +:+ Torrent.hash torrent
                                 +:+ " from " +:+ baseUrl +:+ ": "
                                 +:+ statusText response))
   end, w1, [Observed c answer]).
Proof.
  unfold restoreFile. unfold_monad. simpl.
  destruct (respond _ _ w) as [[e | response] w1]; simpl; [reflexivity |].
  destruct (ok response); reflexivity.
Qed.

Lemma deleteFile_no_detail (w w1 : world) (o : PromiseSettledResult unit) (tr : trace) :
  runTask (deleteFile (Torrent.hash torrent) (TorrentFile.id file) baseUrl) w = (o, w1, tr) ->
  detailFetches tr = [] /\ List.filter isWait tr = [].
Proof.
  rewrite deleteFile_run. cbv zeta. destruct (respond _ _ w) as [answer w2].
  intros [= _ _ <-]. split; reflexivity.
Qed.

Lemma restoreFile_no_detail (w w1 : world) (o : PromiseSettledResult unit) (tr : trace) :
  runTask (restoreFile (Torrent.hash torrent) (TorrentFile.id file) baseUrl) w = (o, w1, tr) ->
  detailFetches tr = [] /\ List.filter isWait tr = [].
Proof.
  rewrite restoreFile_run. cbv zeta. destruct (respond _ _ w) as [answer w2].
  intros [= _ _ <-]. split; reflexivity.
Qed.

Lemma verifyLoop_fulfilled (remaining attempt : nat) (w w' : world)
    (o : PromiseSettledResult RepairResult) (tr : trace) :
  runTask (verifyLoop torrent file baseUrl maxRetries retryDelay remaining attempt) w
  = (o, w', tr) ->
  exists result, o = fulfilled result.
Proof.
  intros Hrun.
  pose proof (runTask_leaves _ _ _ _ _ _ _
                (verifyLoop_leaves torrent file baseUrl maxRetries retryDelay
                   remaining attempt) Hrun) as H.
  destruct o as [result | e]; [eauto | destruct H].
Qed.

(** The run of [repairFile], stage by stage. *)
Lemma repairFile_run (w : world) :
  runTask (repairFile torrent file baseUrl maxRetries retryDelay) w =
  match runTask (deleteFile (Torrent.hash torrent) (TorrentFile.id file) baseUrl) w with
  | (rejected e, w1, tr1) => (fulfilled (errorResult torrent file e), w1, tr1)
  | (fulfilled _, w1, tr1) =>
      match runTask (restoreFile (Torrent.hash torrent) (TorrentFile.id file) baseUrl) w1
      with
      | (rejected e, w2, tr2) => (fulfilled (errorResult torrent file e), w2, tr1 ++ tr2)
      | (fulfilled _, w2, tr2) =>
          let '(u, w3) := respond _ (setTimeout retryDelay) w2 in
          let '(o, w4, tr4) :=
            runTask (verifyLoop torrent file baseUrl maxRetries retryDelay maxRetries 1) w3
          in
          (o, w4, tr1 ++ tr2 ++ Observed (setTimeout retryDelay) u :: tr4)
      end
  end.
Proof.
  unfold repairFile. unfold_monad.
  rewrite runTask_try_catch, runTask_bind.
  destruct (runTask (deleteFile _ _ _) w) as [[[[] | e] w1] tr1]; cbv beta iota;
    [| simpl; rewrite app_nil_r; reflexivity].
  rewrite runTask_bind.
  destruct (runTask (restoreFile _ _ _) w1) as [[[[] | e] w2] tr2]; cbv beta iota;
    [| simpl; rewrite app_nil_r; reflexivity].
  simpl.
  destruct (respond _ (setTimeout retryDelay) w2) as [u w3].
  destruct (runTask (verifyLoop _ _ _ _ _ _ _) w3) as [[o w4] tr4] eqn:Hloop.
  destruct (verifyLoop_fulfilled _ _ _ _ _ _ Hloop) as [result ->].
  reflexivity.
Qed.

End RepairFileRuns.

Lemma detailFetches_app (tr1 tr2 : trace) :
  detailFetches (tr1 ++ tr2) = detailFetches tr1 ++ detailFetches tr2.
Proof. apply omap_app. Qed.

Section VerifyLoopFacts.
Context {parser : HtmlParser} {service : Service}.
Variables (torrent : Torrent.t) (file : TorrentFile.t) (baseUrl : string).
Variables (maxRetries retryDelay : nat).

(** The verification loop, by the answers its attempts got: either some
    attempt is the first to find the file available, no attempt follows it
    and the result reports its number; or no attempt finds the file
    available, every turn of the loop makes its attempt and the result is
    the failure. *)
Lemma verifyLoop_spec (remaining attempt : nat) (w w' : world)
    (o : PromiseSettledResult RepairResult) (tr : trace) :
  runTask (verifyLoop torrent file baseUrl maxRetries retryDelay remaining attempt) w
  = (o, w', tr) ->
  (exists pre answer,
      detailFetches tr = pre ++ [answer] /\
      Forall (fun a => findsAvailable (TorrentFile.id file) a = false) pre /\
      findsAvailable (TorrentFile.id file) answer = true /\
      length (detailFetches tr) <= remaining /\
      o = fulfilled (repairedResult torrent file (attempt + length pre)))
  \/ (Forall (fun a => findsAvailable (TorrentFile.id file) a = false) (detailFetches tr) /\
      length (detailFetches tr) = remaining /\
      o = fulfilled (failedResult torrent file maxRetries)).
Proof.
  revert attempt w w' o tr.
  induction remaining as [| remaining IH]; intros attempt w w' o tr; cbn [verifyLoop].
  - simpl. intros [= <- _ <-]. right. repeat split. constructor.
  - unfold_monad. rewrite runTask_bind, verifyAttempt_run.
    destruct (respond _ _ w) as [answer w1]. cbv beta iota.
    set (ob := Observed (fetch (DetailsPage (Torrent.hash torrent)) baseUrl) answer).
    assert (Hob : forall tr2, detailFetches ([ob] ++ tr2) = answer :: detailFetches tr2)
      by reflexivity.
    assert (Hcont : forall w2 tr2 tr3,
               findsAvailable (TorrentFile.id file) answer = false ->
               detailFetches tr2 = [] ->
               runTask (verifyLoop torrent file baseUrl maxRetries retryDelay
                          remaining (S attempt)) w2 = (o, w', tr3) ->
               tr = [ob] ++ tr2 ++ tr3 ->
               (exists pre answer0,
                   detailFetches tr = pre ++ [answer0] /\
                   Forall (fun a => findsAvailable (TorrentFile.id file) a = false) pre /\
                   findsAvailable (TorrentFile.id file) answer0 = true /\
                   length (detailFetches tr) <= S remaining /\
                   o = fulfilled (repairedResult torrent file (attempt + length pre)))
               \/ (Forall (fun a => findsAvailable (TorrentFile.id file) a = false)
                          (detailFetches tr) /\
                   length (detailFetches tr) = S remaining /\
                   o = fulfilled (failedResult torrent file maxRetries))).
    { intros w2 tr2 tr3 Hav Htr2 Hrun ->.
      rewrite Hob, detailFetches_app, Htr2. simpl.
      destruct (IH _ _ _ _ _ Hrun) as [(pre & answer0 & Hds & Hpre & Hlast & Hlen & Ho)
                                       | (Hall & Hlen & Ho)].
      - left. exists (answer :: pre), answer0. rewrite Hds in *. simpl.
        repeat split; auto.
        + lia.
        + rewrite Ho. do 2 f_equal. lia.
      - right. repeat split; auto. }
    unfold attemptControl.
    destruct (findsAvailable (TorrentFile.id file) answer) eqn:Hav.
    + simpl. intros [= <- _ <-]. left. exists [], answer. simpl.
      repeat split; auto; try lia. do 2 f_equal. lia.
    + assert (Hnext : forall control : LoopControl,
                 control = Continue \/ control = Next ->
                 (let '(o0, w2, tr2) :=
                    runTask
                      match control with
                      | Return result => Ret result
                      | Continue =>
                          verifyLoop torrent file baseUrl maxRetries retryDelay
                            remaining (S attempt)
                      | Next =>
                          bind (if (attempt <? maxRetries)%nat
                                then Await (setTimeout retryDelay) Ret else Ret tt)
                            (fun _ => verifyLoop torrent file baseUrl maxRetries
                                        retryDelay remaining (S attempt))
                      end w1 in
                  (o0, w2, [ob] ++ tr2)) = (o, w', tr) ->
                 exists w2 tr2 tr3,
                   detailFetches tr2 = [] /\
                   runTask (verifyLoop torrent file baseUrl maxRetries retryDelay
                              remaining (S attempt)) w2 = (o, w', tr3) /\
                   tr = [ob] ++ tr2 ++ tr3).
      { intros control [-> | ->].
        - destruct (runTask _ w1) as [[o0 w2] tr2] eqn:Hrun.
          intros [= <- <- <-]. exists w1, [], tr2. auto.
        - rewrite runTask_bind.
          destruct (attempt <? maxRetries)%nat; simpl.
          + destruct (respond _ (setTimeout retryDelay) w1) as [u w2].
            destruct (runTask _ w2) as [[o0 w3] tr3] eqn:Hrun.
            intros [= <- <- <-].
            exists w2, [Observed (setTimeout retryDelay) u], tr3. auto.
          + destruct (runTask _ w1) as [[o0 w2] tr2] eqn:Hrun.
            intros [= <- <- <-]. exists w1, [], tr2. auto. }
      intros Hrun.
      assert (Hex : exists w2 tr2 tr3,
                 detailFetches tr2 = [] /\
                 runTask (verifyLoop torrent file baseUrl maxRetries retryDelay
                            remaining (S attempt)) w2 = (o, w', tr3) /\
                 tr = [ob] ++ tr2 ++ tr3).
      { destruct answer as [e | response].
        - apply (Hnext Next); [auto | exact Hrun].
        - destruct (negb (ok response)).
          + apply (Hnext Next); [auto | exact Hrun].
          + destruct (List.find _ _).
            * apply (Hnext Next); [auto | exact Hrun].
            * apply (Hnext Continue); [auto | exact Hrun]. }
      destruct Hex as (w2 & tr2 & tr3 & Htr2 & Hrun2 & Htr).
      eapply Hcont; eauto.
Qed.

End VerifyLoopFacts.

(** ** [repairFile]: the claims *)

Section RepairFileClaims.
Context {parser : HtmlParser} {service : Service}.
Variables (torrent : Torrent.t) (file : TorrentFile.t) (baseUrl : string).
Variables (maxRetries retryDelay : nat).

(** C2. When the delete action fails, or the delete action succeeds and the
    restore action fails, with the thrown value [e], [repairFile] returns a
    result of status [error] whose message carries the message of [e], and
    its run requests no details page: no verification attempt is made. *)
Theorem repairFile_error_without_verification (w : world) (e : exn) :
  (exists w1 tr1,
      runTask (deleteFile (Torrent.hash torrent) (TorrentFile.id file) baseUrl) w
      = (rejected e, w1, tr1)) \/
  (exists w1 tr1 w2 tr2,
      runTask (deleteFile (Torrent.hash torrent) (TorrentFile.id file) baseUrl) w
      = (fulfilled tt, w1, tr1) /\
      runTask (restoreFile (Torrent.hash torrent) (TorrentFile.id file) baseUrl) w1
      = (rejected e, w2, tr2)) ->
  exists result w' tr,
    runTask (repairFile torrent file baseUrl maxRetries retryDelay) w
    = (fulfilled result, w', tr) /\
    status result = error /\
    message result = "Repair process failed: " +:+ errorMessage e /\
    carries torrent file result /\
    detailFetches tr = [].
Proof.
  intros [(w1 & tr1 & Hdel) | (w1 & tr1 & w2 & tr2 & Hdel & Hres)];
    rewrite repairFile_run, Hdel.
  - exists (errorResult torrent file e), w1, tr1.
    repeat split. eapply deleteFile_no_detail, Hdel.
  - rewrite Hres. exists (errorResult torrent file e), w2, (tr1 ++ tr2).
    repeat split. rewrite detailFetches_app.
    destruct (deleteFile_no_detail _ _ _ _ _ _ _ Hdel) as [-> _].
    destruct (restoreFile_no_detail _ _ _ _ _ _ _ Hres) as [-> _].
    reflexivity.
Qed.

(** The requests for a details page of a run of [repairFile] are those of
    its verification loop. *)
Lemma repairFile_detailFetches (w w' : world) (o : PromiseSettledResult RepairResult)
    (tr : trace) :
  runTask (repairFile torrent file baseUrl maxRetries retryDelay) w = (o, w', tr) ->
  detailFetches tr = [] \/
  exists w3 tr4,
    runTask (verifyLoop torrent file baseUrl maxRetries retryDelay maxRetries 1) w3
    = (o, w', tr4) /\
    detailFetches tr = detailFetches tr4.
Proof.
  rewrite repairFile_run.
  destruct (runTask (deleteFile _ _ _) w) as [[[[] | e] w1] tr1] eqn:Hdel.
  2:{ intros [= _ _ <-]. left. eapply deleteFile_no_detail, Hdel. }
  destruct (deleteFile_no_detail _ _ _ _ _ _ _ Hdel) as [Hd1 _].
  destruct (runTask (restoreFile _ _ _) w1) as [[[[] | e] w2] tr2] eqn:Hres.
  2:{ intros [= _ _ <-]. left. rewrite detailFetches_app, Hd1.
      eapply restoreFile_no_detail, Hres. }
  destruct (restoreFile_no_detail _ _ _ _ _ _ _ Hres) as [Hd2 _].
  destruct (respond _ (setTimeout retryDelay) w2) as [u w3].
  destruct (runTask (verifyLoop _ _ _ _ _ _ _) w3) as [[o4 w4] tr4] eqn:Hloop.
  intros [= <- <- <-]. right. exists w3, tr4. split; [exact Hloop |].
  rewrite !detailFetches_app, Hd1, Hd2. reflexivity.
Qed.

(** C3. When the [k]-th verification attempt of a run of [repairFile], for
    [1 <= k <= maxRetries], finds the file with a status equal to
    "available" up to case, the result has status [repaired], its message
    reports [k] attempts, and the run makes exactly [k] requests for the
    details page. *)
Theorem repairFile_repaired_at_attempt (k : nat) (w w' : world)
    (o : PromiseSettledResult RepairResult) (tr : trace) (answer : exn + Response) :
  1 <= k <= maxRetries ->
  runTask (repairFile torrent file baseUrl maxRetries retryDelay) w = (o, w', tr) ->
  detailFetches tr !! (k - 1) = Some answer ->
  findsAvailable (TorrentFile.id file) answer = true ->
  exists result,
    o = fulfilled result /\
    status result = repaired /\
    message result = "File repaired successfully after " +:+ pretty k
                     +:+ " verification attempt(s)" /\
    carries torrent file result /\
    length (detailFetches tr) = k.
Proof.
  intros Hk Hrun Hlookup Hav.
  destruct (repairFile_detailFetches _ _ _ _ Hrun) as [Hnone | (w3 & tr4 & Hloop & Heq)].
  { rewrite Hnone in Hlookup. discriminate Hlookup. }
  rewrite Heq in *.
  destruct (verifyLoop_spec _ _ _ _ _ _ _ _ _ _ _ Hloop)
    as [(pre & answer0 & Hds & Hpre & Hlast & Hlen & Ho) | (Hall & _ & _)].
  - rewrite Hds in *.
    destruct (decide (k - 1 < length pre)) as [Hlt | Hge].
    + rewrite lookup_app_l in Hlookup by exact Hlt.
      rewrite Forall_forall in Hpre.
      apply list_elem_of_lookup_2, Hpre in Hlookup. congruence.
    + assert (Hidx : k - 1 = length pre).
      { apply lookup_lt_Some in Hlookup. rewrite length_app in Hlookup.
        simpl in Hlookup. lia. }
      exists (repairedResult torrent file (1 + length pre)).
      replace (1 + length pre) with k in * by lia.
      repeat split; [exact Ho |]. rewrite length_app. simpl. lia.
  - rewrite Forall_forall in Hall.
    apply list_elem_of_lookup_2, Hall in Hlookup. congruence.
Qed.

(** C5. When the delete and the restore action succeed and no verification
    attempt of the run finds the file with a status equal to "available"
    up to case (the file is absent, or not available, or the request fails),
    [repairFile] returns a result of status [failed] whose message states
    [maxRetries] attempts, and the run makes at most [maxRetries] requests
    for the details page. *)
Theorem repairFile_failed_when_exhausted (w w1 w2 w' : world) (tr1 tr2 tr : trace)
    (o : PromiseSettledResult RepairResult) :
  runTask (deleteFile (Torrent.hash torrent) (TorrentFile.id file) baseUrl) w
  = (fulfilled tt, w1, tr1) ->
  runTask (restoreFile (Torrent.hash torrent) (TorrentFile.id file) baseUrl) w1
  = (fulfilled tt, w2, tr2) ->
  runTask (repairFile torrent file baseUrl maxRetries retryDelay) w = (o, w', tr) ->
  Forall (fun answer => findsAvailable (TorrentFile.id file) answer = false)
         (detailFetches tr) ->
  exists result,
    o = fulfilled result /\
    status result = failed /\
    message result = "File repair failed - still not available after "
                     +:+ pretty maxRetries +:+ " verification attempts" /\
    carries torrent file result /\
    length (detailFetches tr) <= maxRetries.
Proof.
  intros Hdel Hres Hrun Hnever.
  destruct (repairFile_detailFetches _ _ _ _ Hrun) as [Hnone | (w3 & tr4 & Hloop & Heq)].
  { assert (Hzero : length (detailFetches tr) = 0) by (rewrite Hnone; reflexivity).
    rewrite repairFile_run, Hdel, Hres in Hrun.
    destruct (respond _ (setTimeout retryDelay) w2) as [u w3].
    destruct (runTask (verifyLoop _ _ _ _ _ _ _) w3) as [[o4 w4] tr4] eqn:Hloop.
    injection Hrun as <- <- <-.
    destruct (verifyLoop_fulfilled _ _ _ _ _ _ _ _ _ _ _ Hloop) as [result ->].
    rewrite !detailFetches_app in Hnone.
    apply app_eq_nil in Hnone as [_ Hnone]. apply app_eq_nil in Hnone as [_ Hnone].
    change (detailFetches tr4 = []) in Hnone.
    destruct (verifyLoop_spec _ _ _ _ _ _ _ _ _ _ _ Hloop)
      as [(pre & answer0 & Hds & _) | (_ & Hlen & Ho)].
    - rewrite Hnone in Hds. destruct pre; discriminate Hds.
    - exists (failedResult torrent file maxRetries).
      repeat split; [exact Ho | lia]. }
  rewrite Heq in *.
  destruct (verifyLoop_spec _ _ _ _ _ _ _ _ _ _ _ Hloop)
    as [(pre & answer0 & Hds & _ & Hlast & _) | (_ & Hlen & Ho)].
  - rewrite Hds, Forall_app, Forall_singleton in Hnever.
    destruct Hnever as [_ Hnever]. congruence.
  - exists (failedResult torrent file maxRetries).
    repeat split; [exact Ho | lia].
Qed.

End RepairFileClaims.

(** C10. In every branch [repairFile] returns, and the result it returns
    carries the identifiers of its target: the hash of the torrent, the id
    and the name of the file. So does the result of every run. *)
Theorem repairFile_carries_target {parser : HtmlParser} (torrent : Torrent.t)
    (file : TorrentFile.t) (baseUrl : string) (maxRetries retryDelay : nat) :
  always_returns (carries torrent file)
    (repairFile torrent file baseUrl maxRetries retryDelay) /\
  forall (service : Service) (w : world),
  exists result w' tr,
    runTask (repairFile torrent file baseUrl maxRetries retryDelay) w
    = (fulfilled result, w', tr) /\
    torrentHash result = Torrent.hash torrent /\
    fileId result = TorrentFile.id file /\
    fileName result = TorrentFile.name file.
Proof.
  split; [apply repairFile_leaves |].
  intros service w.
  destruct (runTask (repairFile torrent file baseUrl maxRetries retryDelay) w)
    as [[o w'] tr] eqn:Hrun.
  pose proof (runTask_leaves _ _ _ _ _ _ _
                (repairFile_leaves torrent file baseUrl maxRetries retryDelay) Hrun) as H.
  destruct o as [result | e]; [| destruct H].
  exists result, w', tr. split; [reflexivity | exact H].
Qed.

Lemma repairFile_error_without_verification_witness :
  exists result w' tr,
    runTask (service := Demo.scripted)
      (repairFile (parser := Demo.parser) (Demo.bundle "a") (Demo.movie "Broken")
         "http://zurg:9999" 3 2000)
      {| Demo.manage := inr (Demo.okResponse "a");
         Demo.deletes := inl (JsError "TypeError" "connection refused");
         Demo.restores := inr (Demo.okResponse "");
         Demo.details := []; Demo.order := [] |}
    = (fulfilled result, w', tr) /\
    status result = error /\
    message result
    = "Repair process failed: " +:+ errorMessage (JsError "TypeError" "connection refused") /\
    carries (Demo.bundle "a") (Demo.movie "Broken") result /\
    detailFetches tr = [].
Proof.
  apply (repairFile_error_without_verification (parser := Demo.parser)
           (service := Demo.scripted)).
  left. eexists _, _. vm_compute. reflexivity.
Defined.

Lemma repairFile_repaired_at_attempt_witness :
  exists result,
    fst (fst (runTask (service := Demo.scripted)
                (repairFile (parser := Demo.parser) (Demo.bundle "a") (Demo.movie "Broken")
                   "http://zurg:9999" 3 2000)
                (Demo.healthy [inr (Demo.okResponse "broken");
                               inr (Demo.okResponse "available")])))
    = fulfilled result /\
    status result = repaired /\
    message result = "File repaired successfully after " +:+ pretty 2
                     +:+ " verification attempt(s)" /\
    carries (Demo.bundle "a") (Demo.movie "Broken") result /\
    length (detailFetches
              (snd (runTask (service := Demo.scripted)
                      (repairFile (parser := Demo.parser) (Demo.bundle "a")
                         (Demo.movie "Broken") "http://zurg:9999" 3 2000)
                      (Demo.healthy [inr (Demo.okResponse "broken");
                                     inr (Demo.okResponse "available")])))) = 2.
Proof.
  destruct (runTask _ _) as [[o w'] tr] eqn:Hrun. simpl fst. simpl snd.
  eapply (repairFile_repaired_at_attempt (parser := Demo.parser)
            (service := Demo.scripted) _ _ _ _ _ 2 _ _ _ _
            (inr (Demo.okResponse "available"))); [| exact Hrun | |].
  - lia.
  - vm_compute in Hrun. injection Hrun as _ _ <-. reflexivity.
  - reflexivity.
Defined.

Lemma repairFile_failed_when_exhausted_witness :
  exists result,
    fst (fst (runTask (service := Demo.scripted)
                (repairFile (parser := Demo.parser) (Demo.bundle "a") (Demo.movie "Broken")
                   "http://zurg:9999" 3 2000)
                (Demo.healthy [inr (Demo.okResponse "broken"); inr Demo.notFound;
                               inr (Demo.okResponse "")])))
    = fulfilled result /\
    status result = failed /\
    message result = "File repair failed - still not available after " +:+ pretty 3
                     +:+ " verification attempts" /\
    carries (Demo.bundle "a") (Demo.movie "Broken") result /\
    length (detailFetches
              (snd (runTask (service := Demo.scripted)
                      (repairFile (parser := Demo.parser) (Demo.bundle "a")
                         (Demo.movie "Broken") "http://zurg:9999" 3 2000)
                      (Demo.healthy [inr (Demo.okResponse "broken"); inr Demo.notFound;
                                     inr (Demo.okResponse "")])))) <= 3.
Proof.
  destruct (runTask _ _) as [[o w'] tr] eqn:Hrun. simpl fst. simpl snd.
  eapply (repairFile_failed_when_exhausted (parser := Demo.parser)
            (service := Demo.scripted)); [| | exact Hrun |].
  - vm_compute. reflexivity.
  - vm_compute. reflexivity.
  - vm_compute in Hrun. injection Hrun as _ _ <-.
    repeat constructor.
Defined.

(** C6, on the code. With [maxRetries = 2], a first attempt that finds the
    file absent from the details page is followed by the second attempt with
    no wait in between: the [continue] of line 56 skips the wait of lines
    91-93. A first attempt that finds the file present and not available is
    followed by one wait. *)
Theorem repairFile_absent_file_skips_wait :
  let absent :=
    snd (runTask (service := Demo.scripted)
           (repairFile (parser := Demo.parser) (Demo.bundle "a") (Demo.movie "Broken")
              "http://zurg:9999" 2 2000)
           (Demo.healthy [inr (Demo.okResponse ""); inr (Demo.okResponse "broken")])) in
  let present :=
    snd (runTask (service := Demo.scripted)
           (repairFile (parser := Demo.parser) (Demo.bundle "a") (Demo.movie "Broken")
              "http://zurg:9999" 2 2000)
           (Demo.healthy [inr (Demo.okResponse "broken"); inr (Demo.okResponse "broken")])) in
  map operationName absent = ["delete"; "restore"; "wait"; "details"; "details"] /\
  waitsBetweenAttempts absent = [0] /\
  map operationName present = ["delete"; "restore"; "wait"; "details"; "wait"; "details"] /\
  waitsBetweenAttempts present = [1].
Proof. repeat split; vm_compute; reflexivity. Qed.

(** ** Batches *)

Lemma Forall2_compose {A B C : Type} (R : A -> B -> Prop) (S : B -> C -> Prop)
    (T : A -> C -> Prop) (l1 : list A) (l2 : list B) (l3 : list C) :
  (forall a b c, R a b -> S b c -> T a c) ->
  Forall2 R l1 l2 -> Forall2 S l2 l3 -> Forall2 T l1 l3.
Proof.
  intros HT H12. revert l3.
  induction H12 as [| a b l1 l2 Hab _ IH]; intros l3 H23; inversion H23; subst.
  - constructor.
  - constructor; eauto.
Qed.

Lemma Forall2_refl_list {A : Type} (R : A -> A -> Prop) (l : list A) :
  (forall a, R a a) -> Forall2 R l l.
Proof. intros Hrefl. induction l; constructor; auto. Qed.

Lemma Forall2_insert_refl {A : Type} (R : A -> A -> Prop) (l : list A) (j : nat) (a b : A) :
  (forall a, R a a) -> l !! j = Some a -> R a b -> Forall2 R l (<[j := b]> l).
Proof.
  intros Hrefl. revert j.
  induction l as [| a0 l IH]; intros [| j]; simpl;
    try (intros Hnone; discriminate Hnone).
  - intros [= ->] Hab. constructor; [exact Hab |].
    apply Forall2_refl_list, Hrefl.
  - intros Hj Hab. constructor; [apply Hrefl | apply IH; assumption].
Qed.

Lemma Forall2_map_left {A B C : Type} (R : B -> C -> Prop) (f : A -> B)
    (l : list A) (k : list C) :
  Forall2 R (map f l) k -> Forall2 (fun a c => R (f a) c) l k.
Proof.
  revert k. induction l as [| a l IH]; intros k H; inversion H; subst; constructor; auto.
Qed.

Section BatchFacts.
Context {service : Service}.

Lemma resume_residual {A : Type} (j : nat) (tasks tasks1 : list (Task A))
    (w w1 : world) (tr1 : trace) :
  resume j tasks w = (tasks1, w1, tr1) -> Forall2 (residual tr1) tasks tasks1.
Proof.
  unfold resume.
  destruct (tasks !! j) as [[a | e | X c k] |] eqn:Hj;
    try (intros [= <- _ <-]; apply Forall2_refl_list, residual_refl).
  destruct (respond X c w) as [x w2]. intros [= <- _ <-].
  eapply Forall2_insert_refl; [apply residual_refl | exact Hj |].
  simpl. right. exists x. split; [left; reflexivity | apply residual_refl].
Qed.

Lemma interleave_residual {A : Type} (order : list nat) (tasks tasks2 : list (Task A))
    (w w2 : world) (tr : trace) :
  interleave order tasks w = (tasks2, w2, tr) -> Forall2 (residual tr) tasks tasks2.
Proof.
  revert tasks w tasks2 w2 tr.
  induction order as [| j order IH]; intros tasks w tasks2 w2 tr; simpl.
  - intros [= <- _ <-]. apply Forall2_refl_list, residual_refl.
  - destruct (resume j tasks w) as [[tasks1 w1] tr1] eqn:Hresume.
    destruct (interleave order tasks1 w1) as [[tasks3 w3] tr3] eqn:Hrest.
    intros [= <- _ <-].
    eapply Forall2_compose;
      [| apply (resume_residual _ _ _ _ _ _ Hresume) | apply (IH _ _ _ _ _ Hrest)].
    intros a b c Hab Hbc. eapply residual_trans.
    + eapply residual_mono; [| exact Hab]. intros ob Hob. apply in_or_app. auto.
    + eapply residual_mono; [| exact Hbc]. intros ob Hob. apply in_or_app. auto.
Qed.

Lemma drain_explains {A : Type} (tasks : list (Task A)) (w w' : world)
    (outcomes : list (PromiseSettledResult A)) (tr : trace) :
  drain tasks w = (outcomes, w', tr) -> Forall2 (explains tr) tasks outcomes.
Proof.
  revert w w' outcomes tr.
  induction tasks as [| t tasks IH]; intros w w' outcomes tr; simpl.
  - intros [= <- _ <-]. constructor.
  - destruct (runTask t w) as [[o w1] tr1] eqn:Hrun.
    destruct (drain tasks w1) as [[os w2] tr2] eqn:Hrest.
    intros [= <- _ <-]. constructor.
    + eapply explains_mono; [| eapply runTask_explains, Hrun].
      intros ob Hob. apply in_or_app. auto.
    + eapply Forall2_impl; [apply (IH _ _ _ _ Hrest) |].
      intros t0 o0. apply explains_mono. intros ob Hob. apply in_or_app. auto.
Qed.

(** [Promise.allSettled] always returns, with one outcome per task, in the
    order of the tasks, and each outcome is the one its task reaches on
    answers observed during the batch: whatever the order in which the
    operations of the batch complete. *)
Lemma allSettled_run {A : Type} (tasks : list (Task A)) (w : world) :
  exists outcomes w' tr,
    allSettled tasks w = (Normal outcomes, w', tr) /\
    Forall2 (explains tr) tasks outcomes.
Proof.
  unfold allSettled.
  destruct (completions w) as [order w0].
  destruct (interleave order tasks w0) as [[tasks1 w1] tr1] eqn:Hinter.
  destruct (drain tasks1 w1) as [[outcomes w2] tr2] eqn:Hdrain.
  exists outcomes, w2, (tr1 ++ tr2). split; [reflexivity |].
  eapply Forall2_compose;
    [| apply (interleave_residual _ _ _ _ _ _ Hinter) | apply (drain_explains _ _ _ _ _ Hdrain)].
  intros t t1 o Hres Hexp. eapply residual_explains.
  - eapply residual_mono; [| exact Hres]. intros ob Hob. apply in_or_app. auto.
  - eapply explains_mono; [| exact Hexp]. intros ob Hob. apply in_or_app. auto.
Qed.

End BatchFacts.

(** ** [repairFilesConcurrently] *)

Lemma take_slice {T : Type} (l : list T) (i c : nat) :
  take (i + c) l = take i l ++ slice l i (i + c).
Proof.
  unfold slice. rewrite <- (take_drop i (take (i + c) l)) at 1.
  rewrite take_take. f_equal. f_equal. lia.
Qed.

Section RepairManyFacts.
Context {parser : HtmlParser} {service : Service}.
Variables (repairs : list RepairTarget) (baseUrl : string).
Variables (concurrencyLimit maxRetries retryDelay : nat).

Lemma pushChunkResults_spec (tr : trace) (chunk : list RepairTarget) :
  forall (suffix : list RepairTarget)
         (outcomes : list (PromiseSettledResult RepairResult)),
  Forall2 (fun target o =>
             explains tr (repairFile (torrent target) (file target) baseUrl
                            maxRetries retryDelay) o) suffix outcomes ->
  forall (index : nat) (results : list RepairResult),
  (forall i, suffix !! i = chunk !! (index + i)) ->
  exists pushed,
    pushChunkResults chunk outcomes index results = results ++ pushed /\
    Forall2 corresponds suffix pushed.
Proof.
  induction 1 as [| target o suffix outcomes Ho _ IH]; intros index results Hsuffix.
  - exists []. simpl. rewrite app_nil_r. split; [reflexivity | constructor].
  - assert (Hrest : forall i, suffix !! i = chunk !! (S index + i)).
    { intros i. replace (S index + i) with (index + S i) by lia.
      rewrite <- Hsuffix. reflexivity. }
    simpl. destruct o as [value | reason].
    + destruct (IH (S index) (results ++ [value]) Hrest) as (pushed & -> & Hpushed).
      exists (value :: pushed). rewrite <- app_assoc. split; [reflexivity |].
      constructor; [| exact Hpushed].
      exact (explains_leaves _ _ _ _ _
               (repairFile_leaves (torrent target) (file target) baseUrl
                  maxRetries retryDelay) Ho).
    + pose proof (Hsuffix 0) as Hhere. rewrite Nat.add_0_r in Hhere.
      simpl in Hhere. rewrite <- Hhere.
      match goal with
      | |- context [pushChunkResults _ _ _ (results ++ [?r])] =>
          destruct (IH (S index) (results ++ [r]) Hrest) as (pushed & -> & Hpushed);
          exists (r :: pushed)
      end.
      rewrite <- app_assoc. split; [reflexivity |].
      constructor; [repeat split | exact Hpushed].
Qed.

Lemma repairLoop_spec :
  0 < concurrencyLimit ->
  forall (fuel i : nat) (results : list RepairResult) (w : world),
  0 < fuel -> length repairs < i + fuel ->
  Forall2 corresponds (take i repairs) results ->
  exists results' w' tr,
    repairLoop repairs baseUrl concurrencyLimit maxRetries retryDelay fuel i results w
    = (Normal results', w', tr) /\
    Forall2 corresponds repairs results'.
Proof.
  intros Hlimit. induction fuel as [| fuel IH]; intros i results w Hfuel Hbound Hinv;
    [lia |].
  cbn [repairLoop]. destruct (i <? length repairs)%nat eqn:Hi.
  - apply Nat.ltb_lt in Hi. unfold_monad. unfold bindM.
    set (chunk := slice repairs i (i + concurrencyLimit)).
    destruct (allSettled_run
                (map (fun repair =>
                        repairFile (torrent repair) (file repair) baseUrl maxRetries
                          retryDelay) chunk) w)
      as (outcomes & w1 & tr1 & -> & Hout).
    apply Forall2_map_left in Hout.
    destruct (pushChunkResults_spec tr1 chunk chunk outcomes Hout 0 results
                ltac:(intros; reflexivity)) as (pushed & -> & Hpushed).
    destruct (IH (i + concurrencyLimit) (results ++ pushed) w1) as
      (results' & w' & tr & -> & Hall); [lia | lia | |].
    + rewrite take_slice. apply Forall2_app; assumption.
    + eauto.
  - apply Nat.ltb_ge in Hi. exists results, w, []. split; [reflexivity |].
    rewrite take_ge in Hinv by lia. exact Hinv.
Qed.

End RepairManyFacts.

(** C1, as amended. For a concurrency limit of at least 1,
    [repairFilesConcurrently] returns, for every list of targets, base
    address, [maxRetries] and [retryDelay], and in every order in which the
    operations of a batch complete: it returns one result per target, and
    the result at index [i] carries the hash of the torrent and the id of
    the file of the target at index [i]. *)
Theorem repairFilesConcurrently_one_result_per_target {parser : HtmlParser}
    {service : Service} (repairs : list RepairTarget) (baseUrl : string)
    (concurrencyLimit maxRetries retryDelay fuel : nat) (w : world) :
  1 <= concurrencyLimit ->
  length repairs < fuel ->
  exists results w' tr,
    repairFilesConcurrently repairs baseUrl concurrencyLimit maxRetries retryDelay fuel w
    = (Normal results, w', tr) /\
    length results = length repairs /\
    forall i target,
      repairs !! i = Some target ->
      exists result,
        results !! i = Some result /\
        torrentHash result = Torrent.hash (torrent target) /\
        fileId result = TorrentFile.id (file target).
Proof.
  intros Hlimit Hfuel. unfold repairFilesConcurrently.
  destruct (repairLoop_spec repairs baseUrl concurrencyLimit maxRetries retryDelay
              Hlimit fuel 0 [] w) as (results & w' & tr & Hrun & Hall);
    [lia | lia | constructor |].
  exists results, w', tr. split; [exact Hrun |].
  split; [symmetry; eapply Forall2_length, Hall |].
  intros i target Hi.
  destruct (Forall2_lookup_l _ _ _ _ _ Hall Hi) as (result & Hres & Hh & Hid & _).
  eauto.
Qed.

Lemma repairFilesConcurrently_one_result_per_target_witness :
  exists results w' tr,
    repairFilesConcurrently (parser := Demo.parser) (service := Demo.scripted)
      [ {| torrent := Demo.bundle "a"; file := Demo.movie "Broken" |};
        {| torrent := Demo.bundle "b"; file := Demo.movie "Deleted" |};
        {| torrent := Demo.bundle "c"; file := Demo.movie "Broken" |} ]
      "http://zurg:9999" 2 3 2000 4
      {| Demo.manage := inr (Demo.okResponse "a"); Demo.deletes := inr (Demo.okResponse "");
         Demo.restores := inr (Demo.okResponse "");
         Demo.details := [inr (Demo.okResponse "broken"); inr (Demo.okResponse "available")];
         Demo.order := [1; 0; 1; 1; 0] |}
    = (Normal results, w', tr) /\
    length results = 3 /\
    forall i target,
      [ {| torrent := Demo.bundle "a"; file := Demo.movie "Broken" |};
        {| torrent := Demo.bundle "b"; file := Demo.movie "Deleted" |};
        {| torrent := Demo.bundle "c"; file := Demo.movie "Broken" |} ] !! i = Some target ->
      exists result,
        results !! i = Some result /\
        torrentHash result = Torrent.hash (torrent target) /\
        fileId result = TorrentFile.id (file target).
Proof.
  apply (repairFilesConcurrently_one_result_per_target (parser := Demo.parser)
           (service := Demo.scripted)); simpl; lia.
Defined.

(** C1, as stated, fails: with a concurrency limit of 0 and one target the
    loop of [repairFilesConcurrently] never ends, so the call returns no
    list, whatever the fuel. *)
Lemma repairFilesConcurrently_limit_0_never_returns :
  ~ exists fuel results w' tr,
      repairFilesConcurrently (parser := Demo.parser) (service := Demo.scripted)
        [ {| torrent := Demo.bundle "a"; file := Demo.movie "Broken" |} ]
        "http://zurg:9999" 0 3 2000 fuel (Demo.healthy [])
      = (Normal results, w', tr).
Proof.
  intros (fuel & results & w' & tr & Hrun). revert Hrun.
  unfold repairFilesConcurrently. generalize (@nil RepairResult) at 1.
  revert tr. induction fuel as [| fuel IH]; intros tr acc; cbn [repairLoop].
  - discriminate.
  - simpl. unfold_monad. unfold bindM. simpl.
    match goal with
    | |- context [@repairLoop ?p ?s ?rs ?url ?c ?m ?d fuel 0 acc ?w] =>
        destruct (@repairLoop p s rs url c m d fuel 0 acc w) as [[r w2] tr2] eqn:Hloop
    end.
    intros [= -> -> ->]. exact (IH _ _ Hloop).
Qed.

(** ** [getDetailedTorrentsConcurrently] *)

Section DetailedFacts.
Context {parser : HtmlParser} {service : Service}.

Lemma entriesOf_mono (baseUrl : string) (tr tr' : trace) (torrents : list Torrent.t)
    (result : list DetailedTorrent.t) :
  (forall ob, In ob tr -> In ob tr') ->
  entriesOf baseUrl tr torrents result -> entriesOf baseUrl tr' torrents result.
Proof.
  intros Hsub (parts & Hparts & ->). exists parts. split; [| reflexivity].
  eapply Forall2_impl; [exact Hparts |].
  intros t part (answer & Hin & ->). eauto.
Qed.

Lemma entriesOf_app (baseUrl : string) (tr : trace) (ts1 ts2 : list Torrent.t)
    (r1 r2 : list DetailedTorrent.t) :
  entriesOf baseUrl tr ts1 r1 -> entriesOf baseUrl tr ts2 r2 ->
  entriesOf baseUrl tr (ts1 ++ ts2) (r1 ++ r2).
Proof.
  intros (p1 & H1 & ->) (p2 & H2 & ->). exists (p1 ++ p2).
  split; [apply Forall2_app; assumption | rewrite concat_app; reflexivity].
Qed.

Lemma getDetailedTorrent_explains (tr : trace) (torrent : Torrent.t) (baseUrl : string)
    (o : PromiseSettledResult DetailedTorrent.t) :
  explains tr (getDetailedTorrent torrent baseUrl) o ->
  exists answer,
    In (Observed (fetch (DetailsPage (Torrent.hash torrent)) baseUrl) answer) tr /\
    match o with
    | fulfilled detailedTorrent =>
        fetchFailed answer = false /\
        exists response,
          answer = inr response /\
          detailedTorrent
          = DetailedTorrent.spread torrent (parseTorrentFiles (text response))
    | rejected _ => fetchFailed answer = true
    end.
Proof.
  unfold getDetailedTorrent, getTorrentDetailsPageHtml. unfold_monad. simpl.
  intros (answer & Hin & Ho). exists answer. split; [exact Hin |].
  destruct answer as [e | response]; simpl in *.
  - subst o. reflexivity.
  - destruct (ok response); simpl in *; subst o; eauto.
Qed.

Lemma pushDetailed_spec (baseUrl : string) (tr : trace) (torrents : list Torrent.t) :
  forall (suffix : list Torrent.t)
         (outcomes : list (PromiseSettledResult DetailedTorrent.t)),
  Forall2 (fun torrent o => explains tr (getDetailedTorrent torrent baseUrl) o)
          suffix outcomes ->
  forall (index : nat) (detailedTorrents : list DetailedTorrent.t),
  (forall i, suffix !! i = torrents !! (index + i)) ->
  exists pushed,
    pushDetailed torrents outcomes index detailedTorrents = detailedTorrents ++ pushed /\
    entriesOf baseUrl tr suffix pushed.
Proof.
  induction 1 as [| torrent o suffix outcomes Ho _ IH]; intros index acc Hsuffix.
  - exists []. simpl. rewrite app_nil_r. split; [reflexivity |].
    exists []. split; [constructor | reflexivity].
  - assert (Hrest : forall i, suffix !! i = torrents !! (S index + i)).
    { intros i. replace (S index + i) with (index + S i) by lia.
      rewrite <- Hsuffix. reflexivity. }
    pose proof (Hsuffix 0) as Hhere. rewrite Nat.add_0_r in Hhere. simpl in Hhere.
    simpl. rewrite <- Hhere.
    destruct (getDetailedTorrent_explains _ _ _ _ Ho) as (answer & Hin & Hanswer).
    assert (Hstep : exists part,
               match o with
               | fulfilled detailedTorrent =>
                   if negb (forallb isAvailable (DetailedTorrent.files detailedTorrent))
                   then acc ++ [detailedTorrent] else acc
               | rejected _ =>
                   acc ++
                   [{| DetailedTorrent.name := Torrent.name torrent;
                       DetailedTorrent.hash := Torrent.hash torrent;
                       DetailedTorrent.size := Torrent.size torrent;
                       DetailedTorrent.date := Torrent.date torrent;
                       DetailedTorrent.files := [] |}]
               end = acc ++ part /\ part = entryFor torrent answer).
    { unfold entryFor. destruct o as [detailedTorrent | reason].
      - destruct Hanswer as (-> & response & -> & ->). simpl.
        destruct (forallb isAvailable (parseTorrentFiles (text response))); simpl.
        + exists []. rewrite app_nil_r. auto.
        + eauto.
      - rewrite Hanswer. eauto. }
    destruct Hstep as (part & -> & Hpart).
    destruct (IH (S index) (acc ++ part) Hrest) as (pushed & -> & (parts & Hparts & ->)).
    exists (part ++ concat parts). rewrite <- app_assoc. split; [reflexivity |].
    exists (part :: parts). split; [| reflexivity].
    constructor; [eauto | exact Hparts].
Qed.

Lemma processBatch_run (torrents : list Torrent.t) (baseUrl : string) (w : world) :
  exists batchResults w' tr,
    processBatch torrents baseUrl w = (Normal batchResults, w', tr) /\
    entriesOf baseUrl tr torrents batchResults.
Proof.
  unfold processBatch. unfold_monad. unfold bindM.
  destruct (allSettled_run
              (map (fun torrent => getDetailedTorrent torrent baseUrl) torrents) w)
    as (outcomes & w1 & tr1 & -> & Hout).
  apply Forall2_map_left in Hout.
  destruct (pushDetailed_spec baseUrl tr1 torrents torrents outcomes Hout 0 []
              ltac:(intros; reflexivity)) as (pushed & Hpushed & Hentries).
  exists pushed, w1, (tr1 ++ []). simpl in *. rewrite Hpushed. split; [reflexivity |].
  rewrite app_nil_r. exact Hentries.
Qed.

Lemma processChunks_run (baseUrl : string) (chunks : list (list Torrent.t)) :
  forall (allDetailedTorrents : list DetailedTorrent.t) (w : world),
  exists found w' tr,
    processChunks baseUrl chunks allDetailedTorrents w
    = (Normal (allDetailedTorrents ++ found), w', tr) /\
    entriesOf baseUrl tr (concat chunks) found.
Proof.
  induction chunks as [| chunk chunks IH]; intros acc w; cbn [processChunks].
  - exists [], w, []. rewrite app_nil_r. split; [reflexivity |].
    exists []. split; [constructor | reflexivity].
  - unfold_monad. unfold bindM, try_catchM.
    destruct (processBatch_run chunk baseUrl w) as (batch & w1 & tr1 & -> & Hbatch).
    simpl.
    destruct (IH (acc ++ batch) w1) as (found & w2 & tr2 & -> & Hfound).
    exists (batch ++ found), w2, ((tr1 ++ []) ++ tr2).
    rewrite <- app_assoc. split; [reflexivity |].
    apply entriesOf_app.
    + eapply entriesOf_mono; [| exact Hbatch]. intros ob Hob.
      apply in_or_app. left. apply in_or_app. auto.
    + eapply entriesOf_mono; [| exact Hfound]. intros ob Hob. apply in_or_app. auto.
Qed.

Lemma chunkLoop_concat {T : Type} (array : list T) (chunkSize : nat) :
  forall (fuel i : nat) (chunks result : list (list T)),
  concat chunks = take i array ->
  chunkLoop fuel array chunkSize i chunks = Some result ->
  concat result = array.
Proof.
  induction fuel as [| fuel IH]; intros i chunks result Hinv; cbn [chunkLoop];
    [discriminate |].
  destruct (i <? length array)%nat eqn:Hi.
  - apply IH. rewrite concat_app, Hinv, take_slice. simpl. rewrite app_nil_r.
    reflexivity.
  - apply Nat.ltb_ge in Hi. intros [= <-]. rewrite Hinv. apply take_ge. lia.
Qed.

Lemma chunkLoop_returns {T : Type} (array : list T) (chunkSize : nat) :
  0 < chunkSize ->
  forall (fuel i : nat) (chunks : list (list T)),
  0 < fuel -> length array < i + fuel ->
  exists result, chunkLoop fuel array chunkSize i chunks = Some result.
Proof.
  intros Hsize. induction fuel as [| fuel IH]; intros i chunks Hfuel Hbound; [lia |].
  cbn [chunkLoop]. destruct (i <? length array)%nat eqn:Hi; [| eauto].
  apply Nat.ltb_lt in Hi. apply IH; lia.
Qed.

(** [getDetailedTorrentsConcurrently] never throws; when it returns, the list
    is made of what the torrents contribute, in order. *)
Lemma getDetailedTorrentsConcurrently_run (fuel : nat) (torrents : list Torrent.t)
    (baseUrl : string) (concurrencyLimit : nat) (w : world) :
  (chunkArray fuel torrents concurrencyLimit = None /\
   getDetailedTorrentsConcurrently fuel torrents baseUrl concurrencyLimit w
   = (OutOfFuel, w, [])) \/
  (exists result w' tr,
      getDetailedTorrentsConcurrently fuel torrents baseUrl concurrencyLimit w
      = (Normal result, w', tr) /\
      entriesOf baseUrl tr torrents result).
Proof.
  unfold getDetailedTorrentsConcurrently.
  destruct (chunkArray fuel torrents concurrencyLimit) as [chunks |] eqn:Hchunks.
  - right.
    destruct (processChunks_run baseUrl chunks [] w) as (found & w' & tr & Hrun & Hfound).
    exists found, w', tr. split; [exact Hrun |].
    rewrite <- (chunkLoop_concat torrents concurrencyLimit fuel 0 [] chunks
                  ltac:(reflexivity) Hchunks).
    exact Hfound.
  - left. split; reflexivity.
Qed.

Lemma getDetailedTorrentsConcurrently_returns (fuel : nat) (torrents : list Torrent.t)
    (baseUrl : string) (concurrencyLimit : nat) (w : world) :
  1 <= concurrencyLimit -> length torrents < fuel ->
  exists result w' tr,
    getDetailedTorrentsConcurrently fuel torrents baseUrl concurrencyLimit w
    = (Normal result, w', tr) /\
    entriesOf baseUrl tr torrents result.
Proof.
  intros Hlimit Hfuel.
  destruct (getDetailedTorrentsConcurrently_run fuel torrents baseUrl concurrencyLimit w)
    as [[Hnone _] | H]; [| exact H].
  destruct (chunkLoop_returns torrents concurrencyLimit Hlimit fuel 0 [])
    as [chunks Hchunks]; [lia | lia |].
  unfold chunkArray in Hnone. congruence.
Qed.

End DetailedFacts.

Lemma Forall2_In_l {A B : Type} (R : A -> B -> Prop) (l : list A) (k : list B) (a : A) :
  Forall2 R l k -> In a l -> exists b, In b k /\ R a b.
Proof.
  induction 1 as [| a0 b0 l k Hab _ IH]; simpl; [intros [] |].
  intros [<- | Hin]; [eauto |].
  destruct (IH Hin) as (b & Hb & Hr). eauto.
Qed.

Lemma Forall2_In_r {A B : Type} (R : A -> B -> Prop) (l : list A) (k : list B) (b : B) :
  Forall2 R l k -> In b k -> exists a, In a l /\ R a b.
Proof.
  induction 1 as [| a0 b0 l k Hab _ IH]; simpl; [intros [] |].
  intros [<- | Hin]; [eauto |].
  destruct (IH Hin) as (a & Ha & Hr). eauto.
Qed.

Lemma forallb_false {A : Type} (f : A -> bool) (l : list A) :
  forallb f l = false -> exists x, In x l /\ f x = false.
Proof.
  induction l as [| a l IH]; simpl; [discriminate |].
  destruct (f a) eqn:Ha; simpl; [| eauto].
  intros H. destruct (IH H) as (x & Hx & Hfx). eauto.
Qed.

Lemma In_fetched (tr : trace) (page : endpoint) (baseUrl : string)
    (answer : exn + Response) :
  In (Observed (fetch page baseUrl) answer) tr <->
  In (page, baseUrl, answer) (omap fetched tr).
Proof.
  induction tr as [| ob tr IH]; simpl; [tauto |].
  destruct ob as [X c x]. destruct c as [page' baseUrl' | ms]; simpl.
  - rewrite <- IH. split.
    + intros [H | H]; [left | right; exact H].
      exact (f_equal (fun ob => default (page, baseUrl, answer) (fetched ob)) H).
    + intros [[= -> -> ->] | H]; auto.
  - rewrite <- IH. split; [intros [H | H] | auto]; [| exact H].
    apply (f_equal isWait) in H. discriminate H.
Qed.

Section DetailedClaims.
Context {parser : HtmlParser} {service : Service}.

(** C7. A torrent of the input for which a request is made during a run of
    [getDetailedTorrentsConcurrently], and whose requests all fail, is kept:
    the function returns, and the returned list holds the torrent with its
    hash, name, size and date and an empty file list. The other torrents are
    processed as usual: one whose page was fetched and shows a file that is
    not available is in the list with the files of that page. *)
Theorem getDetailedTorrentsConcurrently_keeps_failed (fuel : nat)
    (torrents : list Torrent.t) (baseUrl : string) (concurrencyLimit : nat)
    (w w' : world) (c : completion (list DetailedTorrent.t)) (tr : trace)
    (torrent : Torrent.t) :
  getDetailedTorrentsConcurrently fuel torrents baseUrl concurrencyLimit w = (c, w', tr) ->
  In torrent torrents ->
  (exists answer,
      In (Observed (fetch (DetailsPage (Torrent.hash torrent)) baseUrl) answer) tr) ->
  (forall answer,
      In (Observed (fetch (DetailsPage (Torrent.hash torrent)) baseUrl) answer) tr ->
      fetchFailed answer = true) ->
  exists result,
    c = Normal result /\
    In {| DetailedTorrent.name := Torrent.name torrent;
          DetailedTorrent.hash := Torrent.hash torrent;
          DetailedTorrent.size := Torrent.size torrent;
          DetailedTorrent.date := Torrent.date torrent;
          DetailedTorrent.files := [] |} result /\
    forall other files,
      In other torrents ->
      (forall answer,
          In (Observed (fetch (DetailsPage (Torrent.hash other)) baseUrl) answer) tr ->
          exists response,
            answer = inr response /\ ok response = true /\
            parseTorrentFiles (text response) = files) ->
      forallb isAvailable files = false ->
      In (DetailedTorrent.spread other files) result.
Proof.
  intros Hrun Hin [answer0 Hsome] Hfail.
  destruct (getDetailedTorrentsConcurrently_run fuel torrents baseUrl concurrencyLimit w)
    as [[_ Hout] | (result & w1 & tr1 & Hret & parts & Hparts & ->)].
  { rewrite Hout in Hrun. injection Hrun as _ _ <-. destruct Hsome. }
  rewrite Hret in Hrun. injection Hrun as <- <- <-.
  exists (concat parts). split; [reflexivity |]. split.
  - destruct (Forall2_In_l _ _ _ _ Hparts Hin) as (part & Hpart & answer & Hobs & ->).
    apply in_concat. exists (entryFor torrent answer). split; [exact Hpart |].
    unfold entryFor. rewrite (Hfail _ Hobs). left. reflexivity.
  - intros other files Hother Hok Hbroken.
    destruct (Forall2_In_l _ _ _ _ Hparts Hother) as (part & Hpart & answer & Hobs & ->).
    apply in_concat. exists (entryFor other answer). split; [exact Hpart |].
    destruct (Hok _ Hobs) as (response & -> & Hresp & Hfiles).
    unfold entryFor, fetchFailed. rewrite Hresp. simpl. rewrite Hfiles, Hbroken.
    left. reflexivity.
Qed.

(** C9. [getDetailedTorrentsConcurrently] returns when the concurrency limit
    is at least 1. Every torrent of the list it returns either has an empty
    file list, and then a request for its details page failed, or has a file
    whose status is not "available" up to case. A torrent whose page was
    fetched and shows only available files is not in the list. *)
Theorem getDetailedTorrentsConcurrently_only_broken (fuel : nat)
    (torrents : list Torrent.t) (baseUrl : string) (concurrencyLimit : nat)
    (w w' : world) (c : completion (list DetailedTorrent.t)) (tr : trace) :
  getDetailedTorrentsConcurrently fuel torrents baseUrl concurrencyLimit w = (c, w', tr) ->
  (1 <= concurrencyLimit -> length torrents < fuel -> exists result, c = Normal result) /\
  forall result,
    c = Normal result ->
    (forall detailed,
        In detailed result ->
        (DetailedTorrent.files detailed = [] /\
         exists answer,
           In (Observed (fetch (DetailsPage (DetailedTorrent.hash detailed)) baseUrl) answer)
              tr /\
           fetchFailed answer = true) \/
        (exists f, In f (DetailedTorrent.files detailed) /\ isAvailable f = false)) /\
    (forall torrent,
        In torrent torrents ->
        (forall answer,
            In (Observed (fetch (DetailsPage (Torrent.hash torrent)) baseUrl) answer) tr ->
            exists response,
              answer = inr response /\ ok response = true /\
              forallb isAvailable (parseTorrentFiles (text response)) = true) ->
        forall detailed,
          In detailed result -> DetailedTorrent.hash detailed <> Torrent.hash torrent).
Proof.
  intros Hrun. split.
  { intros Hlimit Hfuel.
    destruct (getDetailedTorrentsConcurrently_returns fuel torrents baseUrl
                concurrencyLimit w Hlimit Hfuel) as (result & w1 & tr1 & Hret & _).
    rewrite Hret in Hrun. injection Hrun as <- _ _. eauto. }
  intros result ->.
  destruct (getDetailedTorrentsConcurrently_run fuel torrents baseUrl concurrencyLimit w)
    as [[_ Hout] | (result1 & w1 & tr1 & Hret & parts & Hparts & ->)].
  { rewrite Hout in Hrun. discriminate Hrun. }
  rewrite Hret in Hrun. injection Hrun as <- <- <-.
  assert (Horigin : forall detailed,
             In detailed (concat parts) ->
             exists torrent answer,
               In torrent torrents /\
               In (Observed (fetch (DetailsPage (Torrent.hash torrent)) baseUrl) answer) tr1 /\
               In detailed (entryFor torrent answer)).
  { intros detailed Hd. apply in_concat in Hd as (part & Hpart & Hd).
    destruct (Forall2_In_r _ _ _ _ Hparts Hpart) as (torrent & Hin & answer & Hobs & ->).
    eauto. }
  split.
  - intros detailed Hd.
    destruct (Horigin detailed Hd) as (torrent & answer & _ & Hobs & Hentry).
    unfold entryFor in Hentry. destruct (fetchFailed answer) eqn:Hfailed.
    + destruct Hentry as [<- | []]. left. split; [reflexivity | eauto].
    + destruct answer as [e | response]; [destruct Hentry |].
      destruct (forallb isAvailable (parseTorrentFiles (text response))) eqn:Hall;
        [destruct Hentry |].
      destruct Hentry as [<- | []]. right. simpl. apply forallb_false, Hall.
  - intros torrent Hin Hok detailed Hd Hhash.
    destruct (Horigin detailed Hd) as (origin & answer & _ & Hobs & Hentry).
    assert (Hsame : Torrent.hash origin = Torrent.hash torrent).
    { rewrite <- Hhash. unfold entryFor in Hentry.
      destruct (fetchFailed answer).
      - destruct Hentry as [<- | []]. reflexivity.
      - destruct answer as [e | response]; [destruct Hentry |].
        destruct (forallb isAvailable _); [destruct Hentry |].
        destruct Hentry as [<- | []]. reflexivity. }
    rewrite Hsame in Hobs.
    destruct (Hok _ Hobs) as (response & -> & Hresp & Hall).
    unfold entryFor, fetchFailed in Hentry. rewrite Hresp in Hentry. simpl in Hentry.
    rewrite Hall in Hentry. destruct Hentry.
Qed.

End DetailedClaims.

Lemma getDetailedTorrentsConcurrently_keeps_failed_witness :
  exists result,
    fst (fst (getDetailedTorrentsConcurrently (parser := Demo.parser)
                (service := Demo.scripted) 3 [Demo.bundle "a"; Demo.bundle "b"]
                "http://zurg:9999" 2
                {| Demo.manage := inr (Demo.okResponse "a b");
                   Demo.deletes := inr (Demo.okResponse "");
                   Demo.restores := inr (Demo.okResponse "");
                   Demo.details := [inr Demo.notFound; inr (Demo.okResponse "broken")];
                   Demo.order := [1; 0] |}))
    = Normal result /\
    In (DetailedTorrent.spread (Demo.bundle "b") []) result /\
    In (DetailedTorrent.spread (Demo.bundle "a") [Demo.movie "Broken"]) result.
Proof.
  destruct (getDetailedTorrentsConcurrently _ _ _ _ _) as [[c w'] tr] eqn:Hrun.
  simpl fst.
  destruct (getDetailedTorrentsConcurrently_keeps_failed (parser := Demo.parser)
              (service := Demo.scripted) _ _ _ _ _ _ _ _ (Demo.bundle "b") Hrun)
    as (result & Hc & Hkept & Hothers).
  - simpl. auto.
  - vm_compute in Hrun. injection Hrun as _ _ <-.
    eexists. apply In_fetched. vm_compute. left. reflexivity.
  - vm_compute in Hrun. injection Hrun as _ _ <-.
    intros answer Hin. apply In_fetched in Hin. vm_compute in Hin.
    destruct Hin as [Hin | [Hin | []]]; [injection Hin as <-; reflexivity | discriminate Hin].
  - exists result. split; [exact Hc |]. split; [exact Hkept |].
    apply (Hothers (Demo.bundle "a") [Demo.movie "Broken"]).
    + simpl. auto.
    + vm_compute in Hrun. injection Hrun as _ _ <-.
      intros answer Hin. apply In_fetched in Hin. vm_compute in Hin.
      destruct Hin as [Hin | [Hin | []]]; [discriminate Hin |].
      injection Hin as <-. eexists. repeat split.
    + reflexivity.
Defined.

Lemma getDetailedTorrentsConcurrently_only_broken_witness :
  exists result,
    fst (fst (getDetailedTorrentsConcurrently (parser := Demo.parser)
                (service := Demo.scripted) 4
                [Demo.bundle "a"; Demo.bundle "b"; Demo.bundle "c"]
                "http://zurg:9999" 2
                {| Demo.manage := inr (Demo.okResponse "a b");
                   Demo.deletes := inr (Demo.okResponse "");
                   Demo.restores := inr (Demo.okResponse "");
                   Demo.details := [inr (Demo.okResponse "available");
                                    inr (Demo.okResponse "broken")];
                   Demo.order := [] |}))
    = Normal result /\
    forall detailed,
      In detailed result ->
      DetailedTorrent.files detailed = [] \/
      exists f, In f (DetailedTorrent.files detailed) /\ isAvailable f = false.
Proof.
  destruct (getDetailedTorrentsConcurrently _ _ _ _ _) as [[c w'] tr] eqn:Hrun.
  simpl fst.
  destruct (getDetailedTorrentsConcurrently_only_broken (parser := Demo.parser)
              (service := Demo.scripted) _ _ _ _ _ _ _ _ Hrun) as [Hreturns Hbroken].
  destruct Hreturns as [result ->]; [lia | simpl; lia |].
  exists result. split; [reflexivity |].
  intros detailed Hd.
  destruct (proj1 (Hbroken result eq_refl) detailed Hd) as [[Hnil _] | Hsome]; auto.
Defined.

(** ** [runRepairForInstance] *)

Section RunnerFacts.
Context {parser : HtmlParser} {service : Service}.

Lemma try_catchM_rethrow {A : Type} (m : M A) (w : world) :
  try_catchM m (fun caught => throwM caught) w = m w.
Proof.
  unfold try_catchM, throwM.
  destruct (m w) as [[[a | e |] w1] tr1]; try reflexivity.
  rewrite app_nil_r. reflexivity.
Qed.

Lemma chunkLoop_fuel_mono {T : Type} (array : list T) (chunkSize : nat) :
  forall (fuel fuel' i : nat) (chunks result : list (list T)),
  fuel <= fuel' ->
  chunkLoop fuel array chunkSize i chunks = Some result ->
  chunkLoop fuel' array chunkSize i chunks = Some result.
Proof.
  induction fuel as [| fuel IH]; intros fuel' i chunks result Hle; cbn [chunkLoop];
    [discriminate |].
  destruct fuel' as [| fuel']; [lia |]. cbn [chunkLoop].
  destruct (i <? length array)%nat; [| auto].
  apply IH. lia.
Qed.

Lemma getDetailedTorrentsConcurrently_fuel_mono (fuel fuel' : nat)
    (torrents : list Torrent.t) (baseUrl : string) (concurrencyLimit : nat) (w : world) :
  1 <= concurrencyLimit -> length torrents < fuel -> fuel <= fuel' ->
  getDetailedTorrentsConcurrently fuel' torrents baseUrl concurrencyLimit w
  = getDetailedTorrentsConcurrently fuel torrents baseUrl concurrencyLimit w.
Proof.
  intros Hlimit Hfuel Hle. unfold getDetailedTorrentsConcurrently, chunkArray.
  destruct (chunkLoop_returns torrents concurrencyLimit Hlimit fuel 0 [])
    as [chunks Hchunks]; [lia | lia |].
  rewrite Hchunks, (chunkLoop_fuel_mono _ _ _ _ _ _ _ Hle Hchunks). reflexivity.
Qed.

Lemma chunkLoop_diverges {T : Type} (array : list T) :
  array <> [] ->
  forall (fuel : nat) (chunks : list (list T)), chunkLoop fuel array 0 0 chunks = None.
Proof.
  intros Hne. induction fuel as [| fuel IH]; intros chunks; cbn [chunkLoop];
    [reflexivity |].
  destruct array as [| a array]; [congruence |]. simpl. apply IH.
Qed.

(** [repairFilesConcurrently] never throws. *)
Lemma repairLoop_no_throw (repairs : list RepairTarget) (baseUrl : string)
    (concurrencyLimit maxRetries retryDelay : nat) :
  forall (fuel i : nat) (results : list RepairResult) (w w' : world) (e : exn) (tr : trace),
  repairLoop repairs baseUrl concurrencyLimit maxRetries retryDelay fuel i results w
  <> (Abrupt e, w', tr).
Proof.
  induction fuel as [| fuel IH]; intros i results w w' e tr; cbn [repairLoop];
    [discriminate |].
  destruct (i <? length repairs)%nat; [| discriminate].
  unfold_monad. unfold bindM.
  destruct (allSettled_run
              (map (fun repair =>
                      repairFile (torrent repair) (file repair) baseUrl maxRetries
                        retryDelay)
                 (slice repairs i (i + concurrencyLimit))) w)
    as (outcomes & w1 & tr1 & -> & _).
  destruct (repairLoop _ _ _ _ _ fuel _ _ w1) as [[c2 w2] tr2] eqn:Hloop.
  intros [= -> _ _]. exact (IH _ _ _ _ _ _ Hloop).
Qed.

End RunnerFacts.

Section RunnerClaims.
Context {parser : HtmlParser} {service : Service}.

Lemma awaitTask_ends {A : Type} (t : Task A) (w w' : world) (tr : trace) :
  awaitTask t w <> (OutOfFuel, w', tr).
Proof.
  unfold awaitTask. destruct (runTask t w) as [[[a | e] w1] tr1]; discriminate.
Qed.

(** How a run of [runRepairForInstance] that ends went. *)
Lemma runRepairForInstance_cases (fuel : nat) (instance : ZurgInstance.t)
    (w w' : world) (c : completion unit) (tr : trace) :
  runRepairForInstance fuel instance w = (c, w', tr) ->
  c <> OutOfFuel ->
  (exists e,
      awaitTask (getTorrentList (ZurgInstance.baseUrl instance)) w = (Abrupt e, w', tr) /\
      c = Abrupt e) \/
  (awaitTask (getTorrentList (ZurgInstance.baseUrl instance)) w = (Normal [], w', tr) /\
   c = Normal tt) \/
  (exists allTorrents w1 tr1 detailedTorrents tr2,
      awaitTask (getTorrentList (ZurgInstance.baseUrl instance)) w
      = (Normal allTorrents, w1, tr1) /\
      getDetailedTorrentsConcurrently fuel allTorrents (ZurgInstance.baseUrl instance)
        (ZurgInstance.concurrencyLimit instance) w1
      = (Normal detailedTorrents, w', tr2) /\
      tr = tr1 ++ tr2 /\
      collectBrokenFiles detailedTorrents = [] /\
      c = Normal tt) \/
  (exists allTorrents w1 tr1 detailedTorrents w2 tr2 repairResults tr3,
      awaitTask (getTorrentList (ZurgInstance.baseUrl instance)) w
      = (Normal allTorrents, w1, tr1) /\
      getDetailedTorrentsConcurrently fuel allTorrents (ZurgInstance.baseUrl instance)
        (ZurgInstance.concurrencyLimit instance) w1
      = (Normal detailedTorrents, w2, tr2) /\
      repairFilesConcurrently (collectBrokenFiles detailedTorrents)
        (ZurgInstance.baseUrl instance) (ZurgInstance.concurrencyLimit instance)
        (ZurgInstance.retryAttempts instance) (ZurgInstance.retryDelay instance) fuel w2
      = (Normal repairResults, w', tr3) /\
      tr = tr1 ++ tr2 ++ tr3 /\
      c = if (0 <? Summary.failed (summarize repairResults))%nat
             || (0 <? Summary.error (summarize repairResults))%nat
          then Abrupt (someRepairsFailed instance (summarize repairResults))
          else Normal tt).
Proof.
  intros Hrun Hc. unfold runRepairForInstance in Hrun.
  rewrite try_catchM_rethrow in Hrun. unfold_monad. unfold bindM in Hrun.
  destruct (awaitTask (getTorrentList (ZurgInstance.baseUrl instance)) w)
    as [[[allTorrents | e |] w1] tr1] eqn:Hlist.
  - destruct (length allTorrents =? 0)%nat eqn:Hlen.
    + apply Nat.eqb_eq, nil_length_inv in Hlen. subst allTorrents.
      simpl in Hrun. rewrite app_nil_r in Hrun. injection Hrun as <- <- <-.
      right. left. auto.
    + destruct (getDetailedTorrentsConcurrently fuel allTorrents _ _ w1)
        as [[[detailedTorrents | e |] w2] tr2] eqn:Hdetailed.
      * destruct (length (collectBrokenFiles detailedTorrents) =? 0)%nat eqn:Hbroken.
        -- apply Nat.eqb_eq, nil_length_inv in Hbroken.
           simpl in Hrun. rewrite app_nil_r in Hrun. injection Hrun as <- <- <-.
           right. right. left. exists allTorrents, w1, tr1, detailedTorrents, tr2. auto.
        -- destruct (repairFilesConcurrently _ _ _ _ _ fuel w2)
             as [[[repairResults | e |] w3] tr3] eqn:Hrepair.
           ++ right. right. right.
              destruct ((0 <? Summary.failed (summarize repairResults))%nat
                        || (0 <? Summary.error (summarize repairResults))%nat) eqn:Hbad;
                simpl in Hrun; rewrite app_nil_r in Hrun; injection Hrun as <- <- <-;
                exists allTorrents, w1, tr1, detailedTorrents, w2, tr2, repairResults, tr3;
                rewrite Hbad; auto.
           ++ exfalso. exact (repairLoop_no_throw _ _ _ _ _ _ _ _ _ _ _ _ Hrepair).
           ++ injection Hrun as <- _ _. congruence.
      * exfalso.
        destruct (getDetailedTorrentsConcurrently_run fuel allTorrents
                    (ZurgInstance.baseUrl instance)
                    (ZurgInstance.concurrencyLimit instance) w1)
          as [[_ H] | (r & w3 & tr3 & H & _)]; congruence.
      * injection Hrun as <- _ _. congruence.
  - injection Hrun as <- <- <-. left. eauto.
  - exfalso. exact (awaitTask_ends _ _ _ _ Hlist).
Qed.

(** With a concurrency limit of at least 1, a run of [runRepairForInstance]
    ends, given enough fuel. *)
Lemma runRepairForInstance_ends (instance : ZurgInstance.t) (w : world) :
  1 <= ZurgInstance.concurrencyLimit instance ->
  exists fuel0, forall fuel,
    fuel0 <= fuel -> fst (fst (runRepairForInstance fuel instance w)) <> OutOfFuel.
Proof.
  intros Hlimit. unfold runRepairForInstance.
  destruct (awaitTask (getTorrentList (ZurgInstance.baseUrl instance)) w)
    as [[[allTorrents | e |] w1] tr1] eqn:Hlist.
  - destruct (getDetailedTorrentsConcurrently_returns (S (length allTorrents)) allTorrents
                (ZurgInstance.baseUrl instance) (ZurgInstance.concurrencyLimit instance)
                w1 Hlimit ltac:(lia)) as (detailedTorrents & w2 & tr2 & Hdetailed & _).
    exists (S (length allTorrents) + S (length (collectBrokenFiles detailedTorrents))).
    intros fuel Hfuel. rewrite try_catchM_rethrow. unfold_monad. unfold bindM.
    rewrite Hlist.
    destruct (length allTorrents =? 0)%nat; [simpl; discriminate |].
    rewrite (getDetailedTorrentsConcurrently_fuel_mono (S (length allTorrents)) fuel)
      by lia.
    rewrite Hdetailed.
    destruct (length (collectBrokenFiles detailedTorrents) =? 0)%nat;
      [simpl; discriminate |].
    unfold repairFilesConcurrently.
    destruct (repairLoop_spec (collectBrokenFiles detailedTorrents)
                (ZurgInstance.baseUrl instance) (ZurgInstance.concurrencyLimit instance)
                (ZurgInstance.retryAttempts instance) (ZurgInstance.retryDelay instance)
                Hlimit fuel 0 [] w2 ltac:(lia) ltac:(lia) ltac:(constructor))
      as (repairResults & w3 & tr3 & -> & _).
    destruct ((0 <? Summary.failed (summarize repairResults))%nat
              || (0 <? Summary.error (summarize repairResults))%nat);
      simpl; discriminate.
  - exists 0. intros fuel _. rewrite try_catchM_rethrow. unfold_monad. unfold bindM.
    rewrite Hlist. simpl. discriminate.
  - exfalso. exact (awaitTask_ends _ _ _ _ Hlist).
Qed.

(** C4, as amended. [runRepairForInstance] returns nothing to its caller:
    its only normal outcome is [Normal tt]. For an instance with a
    concurrency limit of at least 1 a run ends, and a run that ends went one
    of four ways: the list of torrents could not be fetched, and the run
    throws that error; the list is empty, and the run returns; no file is
    broken, and the run returns; or the broken files were repaired, and the
    run throws exactly when the count of failed or of error results is
    positive, and returns otherwise. *)
Theorem runRepairForInstance_outcome (instance : ZurgInstance.t) (w : world) :
  1 <= ZurgInstance.concurrencyLimit instance ->
  (exists fuel0, forall fuel,
      fuel0 <= fuel -> fst (fst (runRepairForInstance fuel instance w)) <> OutOfFuel) /\
  forall fuel c w' tr,
    runRepairForInstance fuel instance w = (c, w', tr) ->
    c <> OutOfFuel ->
    (exists e,
        awaitTask (getTorrentList (ZurgInstance.baseUrl instance)) w = (Abrupt e, w', tr) /\
        c = Abrupt e) \/
    (awaitTask (getTorrentList (ZurgInstance.baseUrl instance)) w = (Normal [], w', tr) /\
     c = Normal tt) \/
    (exists allTorrents w1 tr1 detailedTorrents tr2,
        awaitTask (getTorrentList (ZurgInstance.baseUrl instance)) w
        = (Normal allTorrents, w1, tr1) /\
        getDetailedTorrentsConcurrently fuel allTorrents (ZurgInstance.baseUrl instance)
          (ZurgInstance.concurrencyLimit instance) w1
        = (Normal detailedTorrents, w', tr2) /\
        tr = tr1 ++ tr2 /\
        collectBrokenFiles detailedTorrents = [] /\
        c = Normal tt) \/
    (exists allTorrents w1 tr1 detailedTorrents w2 tr2 repairResults tr3,
        awaitTask (getTorrentList (ZurgInstance.baseUrl instance)) w
        = (Normal allTorrents, w1, tr1) /\
        getDetailedTorrentsConcurrently fuel allTorrents (ZurgInstance.baseUrl instance)
          (ZurgInstance.concurrencyLimit instance) w1
        = (Normal detailedTorrents, w2, tr2) /\
        repairFilesConcurrently (collectBrokenFiles detailedTorrents)
          (ZurgInstance.baseUrl instance) (ZurgInstance.concurrencyLimit instance)
          (ZurgInstance.retryAttempts instance) (ZurgInstance.retryDelay instance) fuel w2
        = (Normal repairResults, w', tr3) /\
        tr = tr1 ++ tr2 ++ tr3 /\
        c = if (0 <? Summary.failed (summarize repairResults))%nat
               || (0 <? Summary.error (summarize repairResults))%nat
            then Abrupt (someRepairsFailed instance (summarize repairResults))
            else Normal tt).
Proof.
  intros Hlimit. split; [apply runRepairForInstance_ends, Hlimit |].
  intros fuel c w' tr. apply runRepairForInstance_cases.
Qed.

End RunnerClaims.

Lemma runRepairForInstance_outcome_witness :
  exists fuel0, forall fuel,
    fuel0 <= fuel ->
    fst (fst (runRepairForInstance (parser := Demo.parser) (service := Demo.scripted) fuel
                {| ZurgInstance.name := "default";
                   ZurgInstance.baseUrl := "http://zurg:9999";
                   ZurgInstance.concurrencyLimit := 10;
                   ZurgInstance.cronSchedule := "0 */6 * * *";
                   ZurgInstance.enabled := true;
                   ZurgInstance.retryAttempts := 3;
                   ZurgInstance.retryDelay := 2000 |}
                (Demo.healthy [inr (Demo.okResponse "broken");
                               inr (Demo.okResponse "available")])))
    <> OutOfFuel.
Proof.
  apply (runRepairForInstance_outcome (parser := Demo.parser) (service := Demo.scripted)).
  simpl. lia.
Defined.

(** C4, as stated, fails. When the list of torrents cannot be fetched the
    run throws although no repair was made and no result exists: the trace
    holds the request for the list and nothing else. A run in which the one
    broken file is repaired returns [tt]: no summary. And with a concurrency
    limit of 0 and a torrent in the list the run never ends: it neither
    returns nor throws, whatever the fuel. *)
Lemma runRepairForInstance_throws_without_results :
  runRepairForInstance (parser := Demo.parser) (service := Demo.scripted) 5
    {| ZurgInstance.name := "default";
       ZurgInstance.baseUrl := "http://zurg:9999";
       ZurgInstance.concurrencyLimit := 10;
       ZurgInstance.cronSchedule := "0 */6 * * *";
       ZurgInstance.enabled := true;
       ZurgInstance.retryAttempts := 3;
       ZurgInstance.retryDelay := 2000 |}
    {| Demo.manage := inr Demo.notFound; Demo.deletes := inr (Demo.okResponse "");
       Demo.restores := inr (Demo.okResponse ""); Demo.details := []; Demo.order := [] |}
  = (Abrupt (newError "Failed to fetch manage page from http://zurg:9999: Not Found"),
     {| Demo.manage := inr Demo.notFound; Demo.deletes := inr (Demo.okResponse "");
        Demo.restores := inr (Demo.okResponse ""); Demo.details := []; Demo.order := [] |},
     [Observed (fetch ManagePage "http://zurg:9999") (inr Demo.notFound)]) /\
  fst (fst (runRepairForInstance (parser := Demo.parser) (service := Demo.scripted) 5
              {| ZurgInstance.name := "default";
                 ZurgInstance.baseUrl := "http://zurg:9999";
                 ZurgInstance.concurrencyLimit := 10;
                 ZurgInstance.cronSchedule := "0 */6 * * *";
                 ZurgInstance.enabled := true;
                 ZurgInstance.retryAttempts := 3;
                 ZurgInstance.retryDelay := 2000 |}
              (Demo.healthy [inr (Demo.okResponse "broken");
                             inr (Demo.okResponse "available")])))
  = Normal tt /\
  ~ exists fuel,
      fst (fst (runRepairForInstance (parser := Demo.parser) (service := Demo.scripted)
                  fuel
                  {| ZurgInstance.name := "default";
                     ZurgInstance.baseUrl := "http://zurg:9999";
                     ZurgInstance.concurrencyLimit := 0;
                     ZurgInstance.cronSchedule := "0 */6 * * *";
                     ZurgInstance.enabled := true;
                     ZurgInstance.retryAttempts := 3;
                     ZurgInstance.retryDelay := 2000 |}
                  (Demo.healthy [])))
      <> OutOfFuel.
Proof.
  split; [vm_compute; reflexivity |]. split; [vm_compute; reflexivity |].
  intros [fuel Hends]. apply Hends. clear Hends.
  unfold runRepairForInstance. rewrite try_catchM_rethrow.
  unfold_monad. unfold bindM.
  cbn [ZurgInstance.baseUrl ZurgInstance.concurrencyLimit].
  replace (awaitTask (service := Demo.scripted)
             (getTorrentList (parser := Demo.parser) "http://zurg:9999") (Demo.healthy []))
    with (@Normal (list Torrent.t) [Demo.bundle "a"], Demo.healthy [],
          [Observed (fetch ManagePage "http://zurg:9999") (inr (Demo.okResponse "a"))])
    by (vm_compute; reflexivity).
  cbn [length Nat.eqb]. unfold getDetailedTorrentsConcurrently, chunkArray.
  rewrite chunkLoop_diverges by discriminate. reflexivity.
Qed.

(** ** The scheduler *)

Lemma advance_executeInstance (instance : ZurgInstance.t) (st : Scheduler.state) :
  Scheduler.advance (Scheduler.executeInstance instance) st =
  if bool_decide (ZurgInstance.name instance ∈ Scheduler.runningJobs st)
  then (Scheduler.Settled (fulfilled tt), st)
  else (Scheduler.Suspended instance (continuation instance),
        {| Scheduler.runningJobs :=
             {[ZurgInstance.name instance]} ∪ Scheduler.runningJobs st |}).
Proof.
  unfold Scheduler.executeInstance. simpl.
  destruct (bool_decide _); reflexivity.
Qed.

Lemma continuation_clears (instance : ZurgInstance.t) :
  clearsOnSettle (instance, continuation instance).
Proof. intros [[] | e] st; reflexivity. Qed.

Lemma exclusive_initial : exclusive Scheduler.initial.
Proof.
  split; [constructor |]. split; [| constructor].
  intros key. unfold Scheduler.inFlight. simpl. set_solver.
Qed.

Lemma exclusive_step (s : Scheduler.scheduler) (ev : Scheduler.event) :
  exclusive s -> exclusive (Scheduler.step s ev).
Proof.
  intros (Hnodup & Hkeys & Hclears). destruct s as [st active].
  unfold Scheduler.inFlight in *. simpl in *.
  destruct ev as [instance | n outcome]; unfold Scheduler.step;
    cbn [Scheduler.fields Scheduler.active].
  - rewrite advance_executeInstance. case_bool_decide as Hrunning.
    + repeat split; auto; apply Hkeys.
    + unfold exclusive, Scheduler.inFlight. simpl. rewrite fmap_app. simpl.
      split; [| split].
      * apply NoDup_app. split; [exact Hnodup |]. split; [| apply NoDup_singleton].
        intros key Hkey Hin. apply list_elem_of_singleton in Hin. subst key.
        apply Hrunning, Hkeys, Hkey.
      * intros key. rewrite elem_of_app, list_elem_of_singleton, elem_of_union,
          elem_of_singleton, Hkeys. tauto.
      * apply Forall_app. split; [exact Hclears |].
        constructor; [apply continuation_clears | constructor].
  - destruct (active !! n) as [[instance k] |] eqn:Hn;
      [| repeat split; auto; apply Hkeys].
    pose proof (Forall_lookup_1 _ _ _ _ Hclears Hn) as Hk.
    unfold clearsOnSettle in Hk. cbn [fst snd] in Hk.
    rewrite (Hk outcome st). unfold exclusive, Scheduler.inFlight. simpl.
    rewrite list_fmap_delete.
    assert (Hname : ((fun entry : ZurgInstance.t * _ => ZurgInstance.name (fst entry))
                       <$> active) !! n = Some (ZurgInstance.name instance)).
    { rewrite list_lookup_fmap, Hn. reflexivity. }
    set (names := (fun entry : ZurgInstance.t * _ => ZurgInstance.name (fst entry))
                    <$> active) in *.
    rewrite <- (take_drop_middle _ _ _ Hname) in Hnodup, Hkeys.
    rewrite delete_take_drop.
    apply NoDup_app in Hnodup as (Hn1 & Hn2 & Hn3).
    apply NoDup_cons in Hn3 as (Hn3 & Hn4).
    split; [| split].
    + apply NoDup_app. split; [exact Hn1 |]. split; [| exact Hn4].
      intros key Hkey Hin. apply (Hn2 key Hkey). right. exact Hin.
    + intros key. rewrite elem_of_difference, elem_of_singleton, Hkeys.
      rewrite !elem_of_app, elem_of_cons. split.
      * intros [[H | [H | H]] Hne]; tauto.
      * intros [H | H]; (split; [tauto |]); intros ->.
        -- apply (Hn2 _ H). left.
        -- exact (Hn3 H).
    + apply Forall_delete, Hclears.
Qed.

Lemma exclusive_foldl (events : list Scheduler.event) (s : Scheduler.scheduler) :
  exclusive s -> exclusive (foldl Scheduler.step s events).
Proof.
  revert s. induction events as [| ev events IH]; intros s Hs; simpl; [exact Hs |].
  apply IH, exclusive_step, Hs.
Qed.

(** C8. A trigger of an instance whose name is in [runningJobs] changes
    nothing: no run is invoked. A trigger of an instance whose name is not
    in [runningJobs] adds the name, then invokes the run; when that run
    settles, fulfilled or rejected, the suspended [executeInstance] removes
    the name and ends fulfilled. So, after any sequence of triggers and
    settlements from the initial scheduler, no two runs in flight are of the
    same instance, and [runningJobs] holds the names of the instances whose
    run is in flight. *)
Theorem executeInstance_exclusive :
  (forall s instance,
      ZurgInstance.name instance ∈ Scheduler.runningJobs (Scheduler.fields s) ->
      Scheduler.step s (Scheduler.Trigger instance) = s) /\
  (forall s instance,
      ZurgInstance.name instance ∉ Scheduler.runningJobs (Scheduler.fields s) ->
      exists resume,
        Scheduler.step s (Scheduler.Trigger instance)
        = {| Scheduler.fields :=
               {| Scheduler.runningJobs :=
                    {[ZurgInstance.name instance]}
                    ∪ Scheduler.runningJobs (Scheduler.fields s) |};
             Scheduler.active := Scheduler.active s ++ [(instance, resume)] |} /\
        forall outcome st,
          Scheduler.advance (resume outcome) st
          = (Scheduler.Settled (fulfilled tt),
             {| Scheduler.runningJobs :=
                  Scheduler.runningJobs st ∖ {[ZurgInstance.name instance]} |})) /\
  (forall events,
      let s := foldl Scheduler.step Scheduler.initial events in
      NoDup (Scheduler.inFlight s) /\
      forall key,
        key ∈ Scheduler.runningJobs (Scheduler.fields s) <-> key ∈ Scheduler.inFlight s).
Proof.
  split; [| split].
  - intros [st active] instance Hrunning. unfold Scheduler.step.
    cbn [Scheduler.fields Scheduler.active] in *.
    rewrite advance_executeInstance, bool_decide_eq_true_2 by exact Hrunning.
    reflexivity.
  - intros [st active] instance Hrunning. unfold Scheduler.step.
    cbn [Scheduler.fields Scheduler.active] in *.
    exists (continuation instance).
    rewrite advance_executeInstance, bool_decide_eq_false_2 by exact Hrunning.
    split; [reflexivity |]. apply (continuation_clears instance).
  - intros events s.
    destruct (exclusive_foldl events Scheduler.initial exclusive_initial)
      as (Hnodup & Hkeys & _).
    auto.
Qed.

(** A trigger of a running instance is skipped; after the run has settled,
    here by a failure, the next trigger of the instance starts a run. *)
Example scheduler_skips_overlapping_trigger :
  let a := {| ZurgInstance.name := "a"; ZurgInstance.baseUrl := "http://zurg-a:9999";
              ZurgInstance.concurrencyLimit := 10; ZurgInstance.cronSchedule := "0 * * * *";
              ZurgInstance.enabled := true; ZurgInstance.retryAttempts := 3;
              ZurgInstance.retryDelay := 2000 |} in
  let b := {| ZurgInstance.name := "b"; ZurgInstance.baseUrl := "http://zurg-b:9999";
              ZurgInstance.concurrencyLimit := 5; ZurgInstance.cronSchedule := "0 * * * *";
              ZurgInstance.enabled := true; ZurgInstance.retryAttempts := 3;
              ZurgInstance.retryDelay := 2000 |} in
  Scheduler.inFlight
    (foldl Scheduler.step Scheduler.initial
       [Scheduler.Trigger a; Scheduler.Trigger a; Scheduler.Trigger b]) = ["a"; "b"] /\
  Scheduler.inFlight
    (foldl Scheduler.step Scheduler.initial
       [Scheduler.Trigger a; Scheduler.Trigger a; Scheduler.Trigger b;
        Scheduler.Settle 0 (rejected (newError "Some repairs failed"))]) = ["b"] /\
  Scheduler.inFlight
    (foldl Scheduler.step Scheduler.initial
       [Scheduler.Trigger a; Scheduler.Trigger a; Scheduler.Trigger b;
        Scheduler.Settle 0 (rejected (newError "Some repairs failed"));
        Scheduler.Trigger a]) = ["b"; "a"].
Proof. repeat split; vm_compute; reflexivity. Qed.

(** * Further properties *)

(** ** The operations of a run of [repairFile] *)

Section VerifyLoopStep.
Context {parser : HtmlParser} {service : Service}.
Variables (torrent : Torrent.t) (file : TorrentFile.t) (baseUrl : string).
Variables (maxRetries retryDelay : nat).

Lemma verifyLoop_step (remaining attempt : nat) (w : world) :
  runTask (verifyLoop torrent file baseUrl maxRetries retryDelay (S remaining) attempt) w =
  let request := fetch (DetailsPage (Torrent.hash torrent)) baseUrl in
  let '(answer, w1) := respond _ request w in
  match attemptControl torrent file attempt answer with
  | Return result => (fulfilled result, w1, [Observed request answer])
  | Continue =>
      let '(o, w2, tr) :=
        runTask (verifyLoop torrent file baseUrl maxRetries retryDelay remaining (S attempt)) w1
      in (o, w2, Observed request answer :: tr)
  | Next =>
      if (attempt <? maxRetries)%nat then
        let '(u, w2) := respond _ (setTimeout retryDelay) w1 in
        let '(o, w3, tr) :=
          runTask (verifyLoop torrent file baseUrl maxRetries retryDelay remaining (S attempt))
            w2
        in (o, w3, Observed request answer :: Observed (setTimeout retryDelay) u :: tr)
      else
        let '(o, w2, tr) :=
          runTask (verifyLoop torrent file baseUrl maxRetries retryDelay remaining (S attempt))
            w1
        in (o, w2, Observed request answer :: tr)
  end.
Proof.
  cbn [verifyLoop]. unfold_monad. rewrite runTask_bind, verifyAttempt_run.
  cbv zeta. destruct (respond _ _ w) as [answer w1]. cbv beta iota.
  destruct (attemptControl torrent file attempt answer) as [result | |].
  - reflexivity.
  - destruct (runTask _ w1) as [[o w2] tr]. reflexivity.
  - rewrite runTask_bind. destruct (attempt <? maxRetries)%nat; simpl.
    + destruct (respond _ (setTimeout retryDelay) w1) as [u w2].
      destruct (runTask _ w2) as [[o w3] tr]. reflexivity.
    + destruct (runTask _ w1) as [[o w2] tr]. reflexivity.
Qed.

End VerifyLoopStep.

Lemma totalWait_app (tr1 tr2 : trace) : totalWait (tr1 ++ tr2) = totalWait tr1 + totalWait tr2.
Proof.
  unfold totalWait. induction tr1 as [| ob tr1 IH]; simpl; [reflexivity |].
  rewrite IH. lia.
Qed.

Lemma verifies_totalWait (hash baseUrl : string) (retryDelay : nat) (tr : trace) :
  Forall (verifies hash baseUrl retryDelay) tr ->
  totalWait tr = length (List.filter isWait tr) * retryDelay.
Proof.
  induction 1 as [| ob tr Hob _ IH]; [reflexivity |].
  change (totalWait (ob :: tr)) with (waitedMs ob + totalWait tr). rewrite IH.
  destruct ob as [X c x]. destruct c as [[| h | h i | h i] u | ms]; simpl in *;
    try tauto; subst; lia.
Qed.

Section RepairFileTraces.
Context {parser : HtmlParser} {service : Service}.
Variables (torrent : Torrent.t) (file : TorrentFile.t) (baseUrl : string).
Variables (maxRetries retryDelay : nat).

Lemma verifyLoop_verifies (remaining : nat) :
  forall (attempt : nat) (w w' : world) (o : PromiseSettledResult RepairResult) (tr : trace),
  runTask (verifyLoop torrent file baseUrl maxRetries retryDelay remaining attempt) w
  = (o, w', tr) ->
  Forall (verifies (Torrent.hash torrent) baseUrl retryDelay) tr /\
  length (List.filter isWait tr) <= Nat.min remaining (maxRetries - attempt).
Proof.
  induction remaining as [| remaining IH]; intros attempt w w' o tr.
  - simpl. intros [= _ _ <-]. split; [constructor | simpl; lia].
  - rewrite verifyLoop_step. cbv zeta.
    destruct (respond _ _ w) as [answer w1].
    destruct (attemptControl torrent file attempt answer) as [result | |].
    + intros [= _ _ <-]. split; [| cbn [List.filter isWait length]; lia].
      constructor; [simpl; auto | constructor].
    + destruct (runTask _ w1) as [[o2 w2] tr2] eqn:Hrun. intros [= _ _ <-].
      destruct (IH _ _ _ _ _ Hrun) as [Hall Hlen].
      split; [constructor; [simpl; auto | exact Hall] | cbn [List.filter isWait length]; lia].
    + destruct (attempt <? maxRetries)%nat eqn:Hlt.
      * apply Nat.ltb_lt in Hlt.
        destruct (respond _ (setTimeout retryDelay) w1) as [u w2].
        destruct (runTask _ w2) as [[o3 w3] tr3] eqn:Hrun. intros [= _ _ <-].
        destruct (IH _ _ _ _ _ Hrun) as [Hall Hlen].
        split; [repeat constructor; simpl; auto | cbn [List.filter isWait length]; lia].
      * destruct (runTask _ w1) as [[o2 w2] tr2] eqn:Hrun. intros [= _ _ <-].
        destruct (IH _ _ _ _ _ Hrun) as [Hall Hlen].
        split; [constructor; [simpl; auto | exact Hall] | cbn [List.filter isWait length]; lia].
Qed.


Lemma totalWait_no_wait (tr : trace) : List.filter isWait tr = [] -> totalWait tr = 0.
Proof.
  induction tr as [| ob tr IH]; [reflexivity |].
  change (totalWait (ob :: tr)) with (waitedMs ob + totalWait tr).
  destruct ob as [X c x]. destruct c as [page u | ms]; simpl.
  - exact IH.
  - discriminate.
Qed.

(** X2. The effort of a run of [repairFile] is bounded, whatever the service
    answers: at most [maxRetries] requests for the details page, at most
    [max 1 maxRetries] waits, and so at most [max 1 maxRetries * retryDelay]
    milliseconds of waiting. *)
Theorem repairFile_bounded_effort (w : world) :
  let tr := snd (runTask (repairFile torrent file baseUrl maxRetries retryDelay) w) in
  length (detailFetches tr) <= maxRetries /\
  length (List.filter isWait tr) <= Nat.max 1 maxRetries /\
  totalWait tr <= Nat.max 1 maxRetries * retryDelay.
Proof.
  cbv zeta. rewrite repairFile_run.
  destruct (runTask (deleteFile _ _ _) w) as [[[[] | e] w1] tr1] eqn:Hdel;
    destruct (deleteFile_no_detail _ _ _ _ _ _ _ Hdel) as [Hd1 Hw1].
  2:{ simpl. rewrite Hd1, Hw1, (totalWait_no_wait _ Hw1). simpl. lia. }
  destruct (runTask (restoreFile _ _ _) w1) as [[[[] | e] w2] tr2] eqn:Hres;
    destruct (restoreFile_no_detail _ _ _ _ _ _ _ Hres) as [Hd2 Hw2].
  2:{ simpl. rewrite detailFetches_app, List.filter_app, totalWait_app, Hd1, Hd2, Hw1, Hw2,
        (totalWait_no_wait _ Hw1), (totalWait_no_wait _ Hw2). simpl. lia. }
  destruct (respond _ (setTimeout retryDelay) w2) as [u w3].
  destruct (runTask (verifyLoop _ _ _ _ _ _ _) w3) as [[o w4] tr4] eqn:Hloop.
  destruct (verifyLoop_verifies _ _ _ _ _ _ Hloop) as [Hall Hwaits].
  assert (Hfetches : length (detailFetches tr4) <= maxRetries).
  { destruct (verifyLoop_spec _ _ _ _ _ _ _ _ _ _ _ Hloop)
      as [(pre & answer & _ & _ & _ & Hlen & _) | (_ & Hlen & _)]; lia. }
  cbn [snd].
  rewrite !detailFetches_app, !List.filter_app, !totalWait_app, Hd1, Hd2, Hw1, Hw2,
    (totalWait_no_wait _ Hw1), (totalWait_no_wait _ Hw2).
  change (detailFetches (Observed (setTimeout retryDelay) u :: tr4))
    with (detailFetches tr4).
  change (List.filter isWait (Observed (setTimeout retryDelay) u :: tr4))
    with (Observed (setTimeout retryDelay) u :: List.filter isWait tr4).
  change (totalWait (Observed (setTimeout retryDelay) u :: tr4))
    with (retryDelay + totalWait tr4).
  rewrite (verifies_totalWait _ _ _ _ Hall). cbn [length app Nat.add].
  split; [exact Hfetches |]. split; [lia | nia].
Qed.


End RepairFileTraces.

(** ** The operations of a batch *)

Lemma issues_bind {A B : Type} (P : observation -> Prop) (t : Task A) (f : A -> Task B) :
  issues P t -> (forall a, issues P (f a)) -> issues P (bind t f).
Proof.
  intros Ht Hf. induction t as [a | e | X c k IH]; simpl in *; auto.
  intros x. destruct (Ht x). auto.
Qed.

Lemma issues_try_catch {A : Type} (P : observation -> Prop) (t : Task A)
    (h : exn -> Task A) :
  issues P t -> (forall e, issues P (h e)) -> issues P (try_catch t h).
Proof.
  intros Ht Hh. induction t as [a | e | X c k IH]; simpl in *; auto.
  intros x. destruct (Ht x). auto.
Qed.

Lemma issues_weaken {A : Type} (P Q : observation -> Prop) (t : Task A) :
  (forall ob, P ob -> Q ob) -> issues P t -> issues Q t.
Proof.
  intros HPQ. induction t as [a | e | X c k IH]; simpl; auto.
  intros Ht x. destruct (Ht x). auto.
Qed.

Section IssuesFacts.
Context {service : Service}.

Lemma runTask_issues {A : Type} (P : observation -> Prop) (t : Task A) :
  issues P t ->
  forall (w w' : world) (o : PromiseSettledResult A) (tr : trace),
  runTask t w = (o, w', tr) -> Forall P tr.
Proof.
  induction t as [a | e | X c k IH]; simpl; intros Ht w w' o tr.
  - intros [= _ _ <-]. constructor.
  - intros [= _ _ <-]. constructor.
  - destruct (respond X c w) as [x w1].
    destruct (runTask (k x) w1) as [[o1 w2] tr1] eqn:Hrun.
    intros [= _ _ <-]. destruct (Ht x) as [Hx Hk].
    constructor; [exact Hx | exact (IH x Hk _ _ _ _ Hrun)].
Qed.

Lemma resume_issues {A : Type} (P : observation -> Prop) (j : nat)
    (tasks tasks1 : list (Task A)) (w w1 : world) (tr1 : trace) :
  Forall (issues P) tasks -> resume j tasks w = (tasks1, w1, tr1) ->
  Forall (issues P) tasks1 /\ Forall P tr1.
Proof.
  intros Hall. unfold resume.
  destruct (tasks !! j) as [[a | e | X c k] |] eqn:Hj;
    try (intros [= <- _ <-]; split; [exact Hall | constructor]).
  destruct (respond X c w) as [x w2]. intros [= <- _ <-].
  pose proof (Forall_lookup_1 _ _ _ _ Hall Hj) as Ht. simpl in Ht.
  destruct (Ht x) as [Hx Hk].
  split; [apply Forall_insert; assumption | constructor; [exact Hx | constructor]].
Qed.

Lemma interleave_issues {A : Type} (P : observation -> Prop) (order : list nat) :
  forall (tasks tasks2 : list (Task A)) (w w2 : world) (tr : trace),
  Forall (issues P) tasks -> interleave order tasks w = (tasks2, w2, tr) ->
  Forall (issues P) tasks2 /\ Forall P tr.
Proof.
  induction order as [| j order IH]; intros tasks tasks2 w w2 tr Hall; simpl.
  - intros [= <- _ <-]. split; [exact Hall | constructor].
  - destruct (resume j tasks w) as [[tasks1 w1] tr1] eqn:Hresume.
    destruct (interleave order tasks1 w1) as [[tasks3 w3] tr3] eqn:Hrest.
    intros [= <- _ <-].
    destruct (resume_issues P _ _ _ _ _ _ Hall Hresume) as [Hall1 Htr1].
    destruct (IH _ _ _ _ _ Hall1 Hrest) as [Hall3 Htr3].
    split; [exact Hall3 | apply Forall_app; auto].
Qed.

Lemma drain_issues {A : Type} (P : observation -> Prop) (tasks : list (Task A)) :
  forall (w w' : world) (outcomes : list (PromiseSettledResult A)) (tr : trace),
  Forall (issues P) tasks -> drain tasks w = (outcomes, w', tr) -> Forall P tr.
Proof.
  induction tasks as [| t tasks IH]; intros w w' outcomes tr Hall; simpl.
  - intros [= _ _ <-]. constructor.
  - destruct (runTask t w) as [[o w1] tr1] eqn:Hrun.
    destruct (drain tasks w1) as [[os w2] tr2] eqn:Hrest.
    intros [= _ _ <-]. apply Forall_cons in Hall as [Ht Hall].
    apply Forall_app. split; [eapply runTask_issues; eauto | eapply IH; eauto].
Qed.

(** A batch issues only operations its tasks may issue. *)
Lemma allSettled_issues {A : Type} (P : observation -> Prop) (tasks : list (Task A))
    (w : world) :
  Forall (issues P) tasks -> Forall P (snd (allSettled tasks w)).
Proof.
  intros Hall. unfold allSettled.
  destruct (completions w) as [order w0].
  destruct (interleave order tasks w0) as [[tasks1 w1] tr1] eqn:Hinter.
  destruct (drain tasks1 w1) as [[outcomes w2] tr2] eqn:Hdrain.
  destruct (interleave_issues P _ _ _ _ _ _ Hall Hinter) as [Hall1 Htr1].
  simpl. apply Forall_app. split; [exact Htr1 | eapply drain_issues; eauto].
Qed.

(** *** One-shot tasks: each operation is issued exactly once *)

Lemma runTask_oneShot {A : Type} (t : Task A) (w w' : world)
    (o : PromiseSettledResult A) (tr : trace) :
  oneShot t -> runTask t w = (o, w', tr) -> map operationOf tr = pending t.
Proof.
  destruct t as [a | e | X c k]; simpl.
  - intros _ [= _ _ <-]. reflexivity.
  - intros _ [= _ _ <-]. reflexivity.
  - intros Hk. destruct (respond X c w) as [x w1]. specialize (Hk x).
    destruct (k x) as [a | e | Y c' k']; simpl in *; try discriminate Hk;
      intros [= _ _ <-]; reflexivity.
Qed.

Lemma oneShot_finished {A : Type} (t : Task A) : pending t = [] -> oneShot t.
Proof. destruct t; simpl; [auto | auto | discriminate]. Qed.

Lemma resume_oneShot {A : Type} (j : nat) (tasks tasks1 : list (Task A))
    (w w1 : world) (tr1 : trace) :
  Forall oneShot tasks -> resume j tasks w = (tasks1, w1, tr1) ->
  Forall oneShot tasks1 /\
  map operationOf tr1 ++ flat_map pending tasks1 ≡ₚ flat_map pending tasks.
Proof.
  intros Hall. unfold resume.
  destruct (tasks !! j) as [[a | e | X c k] |] eqn:Hj;
    try (intros [= <- _ <-]; split; [exact Hall | reflexivity]).
  destruct (respond X c w) as [x w2]. intros [= <- _ <-].
  pose proof (Forall_lookup_1 _ _ _ _ Hall Hj) as Ht. simpl in Ht.
  split; [apply Forall_insert; [exact Hall | apply oneShot_finished, Ht] |].
  rewrite <- (take_drop_middle _ _ _ Hj) at 2.
  rewrite insert_take_drop by (eapply lookup_lt_Some, Hj).
  rewrite !flat_map_app. simpl. rewrite (Ht x). simpl.
  apply Permutation_middle.
Qed.

Lemma interleave_oneShot {A : Type} (order : list nat) :
  forall (tasks tasks2 : list (Task A)) (w w2 : world) (tr : trace),
  Forall oneShot tasks -> interleave order tasks w = (tasks2, w2, tr) ->
  Forall oneShot tasks2 /\
  map operationOf tr ++ flat_map pending tasks2 ≡ₚ flat_map pending tasks.
Proof.
  induction order as [| j order IH]; intros tasks tasks2 w w2 tr Hall; simpl.
  - intros [= <- _ <-]. split; [exact Hall | reflexivity].
  - destruct (resume j tasks w) as [[tasks1 w1] tr1] eqn:Hresume.
    destruct (interleave order tasks1 w1) as [[tasks3 w3] tr3] eqn:Hrest.
    intros [= <- _ <-].
    destruct (resume_oneShot _ _ _ _ _ _ Hall Hresume) as [Hall1 Hp1].
    destruct (IH _ _ _ _ _ Hall1 Hrest) as [Hall3 Hp3].
    split; [exact Hall3 |].
    rewrite map_app, <- app_assoc, Hp3. exact Hp1.
Qed.

Lemma drain_oneShot {A : Type} (tasks : list (Task A)) :
  forall (w w' : world) (outcomes : list (PromiseSettledResult A)) (tr : trace),
  Forall oneShot tasks -> drain tasks w = (outcomes, w', tr) ->
  map operationOf tr = flat_map pending tasks.
Proof.
  induction tasks as [| t tasks IH]; intros w w' outcomes tr Hall; simpl.
  - intros [= _ _ <-]. reflexivity.
  - destruct (runTask t w) as [[o w1] tr1] eqn:Hrun.
    destruct (drain tasks w1) as [[os w2] tr2] eqn:Hrest.
    intros [= _ _ <-]. apply Forall_cons in Hall as [Ht Hall].
    rewrite map_app, (runTask_oneShot _ _ _ _ _ Ht Hrun), (IH _ _ _ _ Hall Hrest).
    reflexivity.
Qed.

(** A batch of one-shot tasks issues the operation of each task once, in
    some order. *)
Lemma allSettled_oneShot {A : Type} (tasks : list (Task A)) (w : world) :
  Forall oneShot tasks ->
  map operationOf (snd (allSettled tasks w)) ≡ₚ flat_map pending tasks.
Proof.
  intros Hall. unfold allSettled.
  destruct (completions w) as [order w0].
  destruct (interleave order tasks w0) as [[tasks1 w1] tr1] eqn:Hinter.
  destruct (drain tasks1 w1) as [[outcomes w2] tr2] eqn:Hdrain.
  destruct (interleave_oneShot _ _ _ _ _ _ Hall Hinter) as [Hall1 Hp].
  simpl. rewrite map_app, (drain_oneShot _ _ _ _ _ Hall1 Hdrain). exact Hp.
Qed.

End IssuesFacts.

(** ** [chunkArray] and [getDetailedTorrentsConcurrently] *)

Lemma slice_take_drop {T : Type} (array : list T) (i size : nat) :
  slice array i (i + size) = take size (drop i array).
Proof.
  unfold slice. rewrite take_drop_commute. reflexivity.
Qed.

(** The chunks [chunkLoop] adds from index [i] on. *)
Lemma chunkLoop_spec {T : Type} (array : list T) (chunkSize : nat) :
  1 <= chunkSize ->
  forall (fuel i : nat) (chunks result : list (list T)),
  chunkLoop fuel array chunkSize i chunks = Some result ->
  exists rest,
    result = chunks ++ rest /\
    concat rest = drop i array /\
    Forall (fun chunk => 1 <= length chunk <= chunkSize) rest /\
    (forall j chunk, rest !! j = Some chunk -> S j < length rest -> length chunk = chunkSize) /\
    length rest = (length array - i + chunkSize - 1) / chunkSize.
Proof.
  intros Hsize. induction fuel as [| fuel IH]; intros i chunks result; cbn [chunkLoop];
    [discriminate |].
  destruct (i <? length array)%nat eqn:Hi.
  - apply Nat.ltb_lt in Hi. intros Hloop.
    destruct (IH _ _ _ Hloop) as (rest & -> & Hconcat & Hsizes & Hfull & Hcount).
    exists (slice array i (i + chunkSize) :: rest).
    assert (Hlen : length (slice array i (i + chunkSize))
                   = Nat.min chunkSize (length array - i)).
    { rewrite slice_take_drop, length_take, length_drop. reflexivity. }
    split; [rewrite <- app_assoc; reflexivity |]. split; [| split; [| split]].
    + simpl. rewrite Hconcat, slice_take_drop.
      rewrite <- drop_drop. apply take_drop.
    + constructor; [rewrite Hlen; lia | exact Hsizes].
    + intros [| j] chunk; simpl.
      * intros [= <-] Hmore. rewrite Hlen.
        destruct rest as [| next rest]; [simpl in Hmore; lia |].
        apply Forall_cons in Hsizes as [Hnext _].
        apply (f_equal length) in Hconcat. simpl in Hconcat.
        rewrite length_app, length_drop in Hconcat. lia.
      * intros Hj Hmore. apply (Hfull j chunk Hj). lia.
    + simpl. rewrite Hcount.
      destruct (decide (length array <= i + chunkSize)) as [Hlast | Hmore].
      * replace (length array - (i + chunkSize) + chunkSize - 1) with (chunkSize - 1) by lia.
        rewrite Nat.div_small by lia.
        apply (Nat.div_unique _ _ _ (length array - i - 1)); lia.
      * replace (length array - i + chunkSize - 1)
          with ((length array - (i + chunkSize) + chunkSize - 1) + 1 * chunkSize) by lia.
        rewrite Nat.div_add by lia. lia.
  - apply Nat.ltb_ge in Hi. intros [= <-]. exists [].
    rewrite app_nil_r, drop_ge by lia.
    replace (length array - i + chunkSize - 1) with (chunkSize - 1) by lia.
    rewrite Nat.div_small by lia.
    repeat split; auto. intros j chunk Hj. discriminate Hj.
Qed.

(** X4. [chunkArray], for a chunk size of at least 1: it returns; the chunks put
    end to end are the array; no chunk is empty or longer than the chunk
    size; every chunk but the last has the chunk size; and there are
    [ceil (length / chunkSize)] chunks. *)
Theorem chunkArray_partitions {T : Type} (array : list T) (chunkSize fuel : nat) :
  1 <= chunkSize ->
  length array < fuel ->
  exists chunks,
    chunkArray fuel array chunkSize = Some chunks /\
    concat chunks = array /\
    Forall (fun chunk => 1 <= length chunk <= chunkSize) chunks /\
    (forall j chunk,
        chunks !! j = Some chunk -> S j < length chunks -> length chunk = chunkSize) /\
    length chunks = (length array + chunkSize - 1) / chunkSize.
Proof.
  intros Hsize Hfuel. unfold chunkArray.
  destruct (chunkLoop_returns array chunkSize Hsize fuel 0 []) as [chunks Hchunks];
    [lia | lia |].
  destruct (chunkLoop_spec array chunkSize Hsize _ _ _ _ Hchunks)
    as (rest & -> & Hconcat & Hsizes & Hfull & Hcount).
  exists rest. simpl in *. rewrite Nat.sub_0_r in Hcount. auto.
Qed.

Lemma chunkArray_partitions_witness :
  exists chunks,
    chunkArray 8 ["a"; "b"; "c"; "d"; "e"; "f"; "g"] 3 = Some chunks /\
    concat chunks = ["a"; "b"; "c"; "d"; "e"; "f"; "g"] /\
    Forall (fun chunk => 1 <= length chunk <= 3) chunks /\
    (forall j chunk, chunks !! j = Some chunk -> S j < length chunks -> length chunk = 3) /\
    length chunks = (length ["a"; "b"; "c"; "d"; "e"; "f"; "g"] + 3 - 1) / 3.
Proof. apply (chunkArray_partitions ["a"; "b"; "c"; "d"; "e"; "f"; "g"] 3 8); simpl; lia. Defined.

(** X5. [chunkArray] returns exactly when the chunk size is at least 1 or the
    array is empty: on a non-empty array a chunk size of 0 makes the loop
    run forever. *)
Theorem chunkArray_returns_iff {T : Type} (array : list T) (chunkSize : nat) :
  (exists fuel chunks, chunkArray fuel array chunkSize = Some chunks) <->
  (1 <= chunkSize \/ array = []).
Proof.
  split.
  - intros (fuel & chunks & Hchunks).
    destruct chunkSize as [| chunkSize]; [right | left; lia].
    destruct array as [| a array]; [reflexivity | exfalso].
    unfold chunkArray in Hchunks.
    rewrite chunkLoop_diverges in Hchunks by discriminate. discriminate Hchunks.
  - intros [Hsize | ->].
    + destruct (chunkLoop_returns array chunkSize Hsize (S (length array)) 0 [])
        as [chunks Hchunks]; [lia | lia |].
      exists (S (length array)), chunks. exact Hchunks.
    + exists 1, []. reflexivity.
Qed.

Section DetailedRequests.
Context {parser : HtmlParser} {service : Service}.

Lemma getDetailedTorrent_oneShot (torrent : Torrent.t) (baseUrl : string) :
  oneShot (getDetailedTorrent torrent baseUrl) /\
  pending (getDetailedTorrent torrent baseUrl) = [detailsRequest baseUrl torrent].
Proof.
  unfold getDetailedTorrent, getTorrentDetailsPageHtml. unfold_monad. simpl.
  split; [| reflexivity].
  intros [e | response]; simpl; [reflexivity |].
  destruct (ok response); reflexivity.
Qed.

Lemma processBatch_operations (torrents : list Torrent.t) (baseUrl : string) (w : world) :
  map operationOf (snd (processBatch torrents baseUrl w))
  ≡ₚ map (detailsRequest baseUrl) torrents.
Proof.
  pose proof (allSettled_oneShot
                (map (fun torrent => getDetailedTorrent torrent baseUrl) torrents) w) as Hops.
  unfold processBatch. unfold_monad. unfold bindM.
  destruct (allSettled_run
              (map (fun torrent => getDetailedTorrent torrent baseUrl) torrents) w)
    as (outcomes & w1 & tr1 & Heq & _).
  rewrite Heq in *. simpl in *. rewrite app_nil_r, Hops.
  - clear. induction torrents as [| torrent torrents IH]; [reflexivity |].
    simpl. rewrite IH. reflexivity.
  - clear. induction torrents as [| torrent torrents IH]; constructor; [| exact IH].
    apply getDetailedTorrent_oneShot.
Qed.

Lemma processChunks_operations (baseUrl : string) (chunks : list (list Torrent.t)) :
  forall (allDetailedTorrents : list DetailedTorrent.t) (w : world),
  map operationOf (snd (processChunks baseUrl chunks allDetailedTorrents w))
  ≡ₚ map (detailsRequest baseUrl) (concat chunks).
Proof.
  induction chunks as [| chunk chunks IH]; intros acc w; cbn [processChunks].
  - reflexivity.
  - pose proof (processBatch_operations chunk baseUrl w) as Hbatch.
    unfold_monad. unfold bindM, try_catchM.
    destruct (processBatch_run chunk baseUrl w) as (batch & w1 & tr1 & Heq & _).
    rewrite Heq in *. simpl in *.
    specialize (IH (acc ++ batch) w1).
    destruct (processChunks baseUrl chunks (acc ++ batch) w1) as [[c2 w2] tr2].
    simpl in *. rewrite app_nil_r, !map_app, Hbatch, IH. reflexivity.
Qed.

Lemma entryFor_upcast (torrent : Torrent.t) (answer : exn + Response) :
  entryFor torrent answer = [] \/
  exists detailed,
    entryFor torrent answer = [detailed] /\ DetailedTorrent.upcast detailed = torrent.
Proof.
  assert (Hup : forall files,
             DetailedTorrent.upcast (DetailedTorrent.spread torrent files) = torrent)
    by (intros files; destruct torrent; reflexivity).
  unfold entryFor, fallback. destruct (fetchFailed answer); [eauto |].
  destruct answer as [e | response]; [auto |].
  destruct (forallb isAvailable _); eauto.
Qed.

Lemma entriesOf_sublist (baseUrl : string) (tr : trace) (torrents : list Torrent.t)
    (result : list DetailedTorrent.t) :
  entriesOf baseUrl tr torrents result ->
  sublist (map DetailedTorrent.upcast result) torrents.
Proof.
  intros (parts & Hparts & ->).
  induction Hparts as [| torrent part torrents parts (answer & _ & ->) _ IH]; simpl;
    [constructor |].
  rewrite map_app.
  destruct (entryFor_upcast torrent answer) as [-> | (detailed & -> & Hup)]; simpl.
  - apply sublist_cons, IH.
  - rewrite Hup. apply sublist_skip, IH.
Qed.



(** X7. [getDetailedTorrentsConcurrently] keeps the order of its input: the
    list it returns holds at most one entry per torrent, each with the name,
    hash, size and date of its torrent, in the order of the input. *)
Theorem getDetailedTorrentsConcurrently_keeps_order (fuel : nat)
    (torrents : list Torrent.t) (baseUrl : string) (concurrencyLimit : nat) (w : world) :
  1 <= concurrencyLimit ->
  length torrents < fuel ->
  exists result w' tr,
    getDetailedTorrentsConcurrently fuel torrents baseUrl concurrencyLimit w
    = (Normal result, w', tr) /\
    sublist (map DetailedTorrent.upcast result) torrents.
Proof.
  intros Hlimit Hfuel.
  destruct (getDetailedTorrentsConcurrently_returns fuel torrents baseUrl concurrencyLimit
              w Hlimit Hfuel) as (result & w' & tr & Hrun & Hentries).
  exists result, w', tr. split; [exact Hrun |].
  eapply entriesOf_sublist, Hentries.
Qed.

(** X8. [processBatch] returns whatever the service answers, so the [catch]
    of lines 136-140 is never entered, and
    [getDetailedTorrentsConcurrently] never throws. *)
Theorem getDetailedTorrentsConcurrently_never_throws (fuel : nat)
    (torrents : list Torrent.t) (baseUrl : string) (concurrencyLimit : nat) (w : world) :
  (exists batchResults, fst (fst (processBatch torrents baseUrl w)) = Normal batchResults) /\
  forall e,
    fst (fst (getDetailedTorrentsConcurrently fuel torrents baseUrl concurrencyLimit w))
    <> Abrupt e.
Proof.
  split.
  - destruct (processBatch_run torrents baseUrl w) as (batch & w' & tr & -> & _). eauto.
  - intros e.
    destruct (getDetailedTorrentsConcurrently_run fuel torrents baseUrl concurrencyLimit w)
      as [[_ ->] | (result & w' & tr & -> & _)]; discriminate.
Qed.

End DetailedRequests.


Lemma getDetailedTorrentsConcurrently_keeps_order_witness :
  exists result w' tr,
    getDetailedTorrentsConcurrently (parser := Demo.parser) (service := Demo.scripted) 4
      [Demo.bundle "a"; Demo.bundle "b"; Demo.bundle "c"] "http://zurg:9999" 2
      {| Demo.manage := inr (Demo.okResponse "a b");
         Demo.deletes := inr (Demo.okResponse "");
         Demo.restores := inr (Demo.okResponse "");
         Demo.details := [inr Demo.notFound; inr (Demo.okResponse "broken")];
         Demo.order := [1; 0] |}
    = (Normal result, w', tr) /\
    sublist (map DetailedTorrent.upcast result)
      [Demo.bundle "a"; Demo.bundle "b"; Demo.bundle "c"].
Proof.
  apply (getDetailedTorrentsConcurrently_keeps_order (parser := Demo.parser)
           (service := Demo.scripted)); simpl; lia.
Defined.

(** ** The results and the batches of [repairFilesConcurrently] *)

Section RepairFileBranches.
Context {parser : HtmlParser}.
Variables (torrent : Torrent.t) (file : TorrentFile.t) (baseUrl : string).
Variables (maxRetries retryDelay : nat).

Lemma verifyAttempt_branches (attempt : nat) :
  always_returns
    (fun control =>
       match control with
       | Return result => result = repairedResult torrent file attempt
       | _ => True
       end)
    (verifyAttempt torrent file baseUrl attempt) /\
  issues (touches torrent file baseUrl retryDelay) (verifyAttempt torrent file baseUrl attempt).
Proof.
  unfold always_returns, verifyAttempt, getDetailedTorrent, getTorrentDetailsPageHtml.
  unfold_monad. simpl. split.
  - intros [e | response]; simpl; [exact I |].
    destruct (ok response); simpl; [| exact I].
    destruct (List.find _ _) as [updatedFile |]; simpl; [| exact I].
    destruct (isAvailable updatedFile); simpl; [reflexivity | exact I].
  - intros answer. split; [auto |].
    destruct answer as [e | response]; simpl; [exact I |].
    destruct (ok response); simpl; [| exact I].
    destruct (List.find _ _) as [updatedFile |]; simpl; [| exact I].
    destruct (isAvailable updatedFile); exact I.
Qed.

Lemma verifyLoop_branches (remaining : nat) :
  forall attempt,
  always_returns
    (fun result =>
       (exists k, attempt <= k < attempt + remaining /\ result = repairedResult torrent file k)
       \/ result = failedResult torrent file maxRetries)
    (verifyLoop torrent file baseUrl maxRetries retryDelay remaining attempt) /\
  issues (touches torrent file baseUrl retryDelay)
    (verifyLoop torrent file baseUrl maxRetries retryDelay remaining attempt).
Proof.
  unfold always_returns.
  induction remaining as [| remaining IH]; intros attempt; cbn [verifyLoop].
  - split; [right; reflexivity | exact I].
  - destruct (verifyAttempt_branches attempt) as [Hret Hiss].
    unfold_monad. split.
    + eapply leaves_bind; [exact Hret |].
      assert (Hnext : leaves
                (fun result =>
                   (exists k, attempt <= k < attempt + S remaining /\
                              result = repairedResult torrent file k)
                   \/ result = failedResult torrent file maxRetries)
                (fun _ => False)
                (verifyLoop torrent file baseUrl maxRetries retryDelay remaining
                   (S attempt))).
      { eapply leaves_weaken; [| | apply (IH (S attempt))]; [| auto].
        intros result [(k & Hk & ->) | ->]; [left; exists k; split; [lia | reflexivity] | auto]. }
      intros [result | |]; simpl.
      * intros ->. left. exists attempt. split; [lia | reflexivity].
      * intros _. exact Hnext.
      * intros _. destruct (attempt <? maxRetries)%nat; simpl; intros; exact Hnext.
    + apply issues_bind; [exact Hiss |].
      intros [result | |]; simpl; [exact I | apply IH |].
      destruct (attempt <? maxRetries)%nat; simpl; [| apply IH].
      intros u. split; [reflexivity | apply IH].
Qed.

End RepairFileBranches.

Lemma repairFile_branches {parser : HtmlParser} (target : RepairTarget) (baseUrl : string)
    (maxRetries retryDelay : nat) :
  always_returns
    (repairFileResult target maxRetries)
    (repairFile (torrent target) (file target) baseUrl maxRetries retryDelay) /\
  issues (touches (torrent target) (file target) baseUrl retryDelay)
    (repairFile (torrent target) (file target) baseUrl maxRetries retryDelay).
Proof.
  unfold always_returns, repairFile, deleteFile, restoreFile. unfold_monad. split.
  - eapply leaves_try_catch with (Q' := fun _ => True).
    + eapply leaves_bind; [apply leaves_True |]. intros _ _.
      eapply leaves_bind; [apply leaves_True |]. intros _ _.
      simpl. intros _.
      eapply leaves_weaken;
        [| | apply (verifyLoop_branches (torrent target) (file target) baseUrl maxRetries
                      retryDelay maxRetries 1)]; [| auto].
      intros result [(k & Hk & ->) | ->]; [left | right; left; reflexivity].
      exists k. split; [lia | reflexivity].
    + intros e _. simpl. right. right. exists e. reflexivity.
  - apply issues_try_catch; [| intros e; exact I].
    apply issues_bind.
    { simpl. intros answer. split; [auto |].
      destruct answer as [e | response]; simpl; [exact I |].
      destruct (negb (ok response)); exact I. }
    intros _. apply issues_bind.
    { simpl. intros answer. split; [auto |].
      destruct answer as [e | response]; simpl; [exact I |].
      destruct (negb (ok response)); exact I. }
    intros _. simpl. intros u. split; [reflexivity |].
    apply (verifyLoop_branches (torrent target) (file target) baseUrl maxRetries
             retryDelay maxRetries 1).
Qed.

Section RepairManyBatches.
Context {parser : HtmlParser} {service : Service}.
Variables (repairs : list RepairTarget) (baseUrl : string).
Variables (concurrencyLimit maxRetries retryDelay : nat).

(** Every outcome of a batch of repairs is fulfilled: [repairFile] returns
    in every branch. *)
Lemma repairFile_outcomes (P : RepairTarget -> RepairResult -> Prop) (tr : trace)
    (chunk : list RepairTarget) (outcomes : list (PromiseSettledResult RepairResult)) :
  (forall target,
      always_returns (P target)
        (repairFile (torrent target) (file target) baseUrl maxRetries retryDelay)) ->
  Forall2 (fun target o =>
             explains tr (repairFile (torrent target) (file target) baseUrl
                            maxRetries retryDelay) o) chunk outcomes ->
  exists values, outcomes = map fulfilled values /\ Forall2 P chunk values.
Proof.
  intros HP. induction 1 as [| target o chunk outcomes Ho _ (values & -> & IH)].
  - exists []. split; [reflexivity | constructor].
  - pose proof (explains_leaves _ _ _ _ _ (HP target) Ho) as Hvalue.
    destruct o as [value | reason]; [| destruct Hvalue].
    exists (value :: values). split; [reflexivity | constructor; assumption].
Qed.

Lemma pushChunkResults_fulfilled (chunk : list RepairTarget) (values : list RepairResult) :
  forall (index : nat) (results : list RepairResult),
  pushChunkResults chunk (map fulfilled values) index results = results ++ values.
Proof.
  induction values as [| value values IH]; intros index results; simpl.
  - rewrite app_nil_r. reflexivity.
  - rewrite IH, <- app_assoc. reflexivity.
Qed.

Lemma repairLoop_results (P : RepairTarget -> RepairResult -> Prop) :
  (forall target,
      always_returns (P target)
        (repairFile (torrent target) (file target) baseUrl maxRetries retryDelay)) ->
  forall (fuel i : nat) (results results' : list RepairResult) (w w' : world) (tr : trace),
  Forall2 P (take i repairs) results ->
  repairLoop repairs baseUrl concurrencyLimit maxRetries retryDelay fuel i results w
  = (Normal results', w', tr) ->
  Forall2 P repairs results'.
Proof.
  intros HP. induction fuel as [| fuel IH]; intros i results results' w w' tr Hinv;
    cbn [repairLoop]; [discriminate |].
  destruct (i <? length repairs)%nat eqn:Hi.
  - unfold_monad. unfold bindM.
    set (chunk := slice repairs i (i + concurrencyLimit)).
    destruct (allSettled_run
                (map (fun repair =>
                        repairFile (torrent repair) (file repair) baseUrl maxRetries
                          retryDelay) chunk) w)
      as (outcomes & w1 & tr1 & -> & Hout).
    apply Forall2_map_left in Hout.
    destruct (repairFile_outcomes P tr1 chunk outcomes HP Hout) as (values & -> & Hvalues).
    rewrite pushChunkResults_fulfilled.
    destruct (repairLoop _ _ _ _ _ fuel _ _ w1) as [[c2 w2] tr2] eqn:Hloop.
    intros [= -> _ _]. eapply IH; [| exact Hloop].
    rewrite take_slice. apply Forall2_app; assumption.
  - apply Nat.ltb_ge in Hi. intros [= <- _ _].
    rewrite take_ge in Hinv by lia. exact Hinv.
Qed.

(** The run of the loop of [repairFilesConcurrently] from index [i], batch
    by batch, beside the chunks [chunkArray] cuts from [i] on. *)
Lemma repairLoop_batches :
  forall (fuel i : nat) (results results' : list RepairResult) (w w' : world) (tr : trace)
         (chunks0 chunks : list (list RepairTarget)),
  repairLoop repairs baseUrl concurrencyLimit maxRetries retryDelay fuel i results w
  = (Normal results', w', tr) ->
  chunkLoop fuel repairs concurrencyLimit i chunks0 = Some chunks ->
  exists rest segments,
    chunks = chunks0 ++ rest /\
    tr = concat segments /\
    Forall2 (fun chunk segment => Forall (repairs_one_of chunk baseUrl retryDelay) segment)
            rest segments.
Proof.
  induction fuel as [| fuel IH]; intros i results results' w w' tr chunks0 chunks;
    cbn [repairLoop chunkLoop]; [discriminate |].
  destruct (i <? length repairs)%nat eqn:Hi.
  - unfold_monad. unfold bindM.
    set (chunk := slice repairs i (i + concurrencyLimit)).
    pose proof (allSettled_issues (repairs_one_of chunk baseUrl retryDelay)
                  (map (fun repair =>
                          repairFile (torrent repair) (file repair) baseUrl maxRetries
                            retryDelay) chunk) w) as Hsegment.
    destruct (allSettled_run
                (map (fun repair =>
                        repairFile (torrent repair) (file repair) baseUrl maxRetries
                          retryDelay) chunk) w)
      as (outcomes & w1 & tr1 & Heq & _).
    rewrite Heq in *. simpl in Hsegment.
    destruct (repairLoop _ _ _ _ _ fuel _ _ w1) as [[c2 w2] tr2] eqn:Hloop.
    intros [= -> _ <-] Hchunks.
    destruct (IH _ _ _ _ _ _ _ _ Hloop Hchunks) as (rest & segments & -> & -> & Hall).
    exists (chunk :: rest), (tr1 :: segments).
    split; [rewrite <- app_assoc; reflexivity |]. split; [reflexivity |].
    constructor; [| exact Hall].
    apply Hsegment. apply List.Forall_forall. intros t Ht.
    apply in_map_iff in Ht as (target & <- & Htarget).
    eapply issues_weaken; [| apply repairFile_branches].
    intros ob Hob. exists target. auto.
  - intros [= _ _ <-] [= <-]. exists [], [].
    rewrite app_nil_r. repeat split. constructor.
Qed.

End RepairManyBatches.

Lemma rejected_message_differs (target : RepairTarget) (maxRetries : nat)
    (result : RepairResult) (reason : string) :
  repairFileResult target maxRetries result ->
  message result <> "Repair promise rejected: " +:+ reason.
Proof.
  intros [(k & _ & ->) | [-> | (e & ->)]]; simpl; discriminate.
Qed.

(** X9. [repairFilesConcurrently], for a concurrency limit of at least 1:
    every result is a record [repairFile] itself returned for the target at
    the same index. No promise of a batch is ever rejected, so no result
    carries the message "Repair promise rejected" of lines 177-183. *)
Theorem repairFilesConcurrently_results_from_repairFile {parser : HtmlParser}
    {service : Service} (repairs : list RepairTarget) (baseUrl : string)
    (concurrencyLimit maxRetries retryDelay fuel : nat) (w : world) :
  1 <= concurrencyLimit ->
  length repairs < fuel ->
  exists results w' tr,
    repairFilesConcurrently repairs baseUrl concurrencyLimit maxRetries retryDelay fuel w
    = (Normal results, w', tr) /\
    Forall2 (fun target result => repairFileResult target maxRetries result)
            repairs results /\
    Forall (fun result =>
              forall reason, message result <> "Repair promise rejected: " +:+ reason)
           results.
Proof.
  intros Hlimit Hfuel. unfold repairFilesConcurrently.
  destruct (repairLoop_spec repairs baseUrl concurrencyLimit maxRetries retryDelay
              Hlimit fuel 0 [] w) as (results & w' & tr & Hrun & _);
    [lia | lia | constructor |].
  exists results, w', tr. split; [exact Hrun |].
  assert (Hown : Forall2 (fun target result => repairFileResult target maxRetries result)
                         repairs results).
  { eapply (repairLoop_results repairs baseUrl concurrencyLimit maxRetries retryDelay
              (fun target result => repairFileResult target maxRetries result));
      [| | exact Hrun]; [| constructor].
    intros target. apply repairFile_branches. }
  split; [exact Hown |].
  apply List.Forall_forall. intros result Hresult reason.
  destruct (Forall2_In_r _ _ _ _ Hown Hresult) as (target & _ & Htarget).
  eapply rejected_message_differs, Htarget.
Qed.

Lemma repairFilesConcurrently_results_from_repairFile_witness :
  exists results w' tr,
    repairFilesConcurrently (parser := Demo.parser) (service := Demo.scripted)
      [ {| torrent := Demo.bundle "a"; file := Demo.movie "Broken" |};
        {| torrent := Demo.bundle "b"; file := Demo.movie "Deleted" |};
        {| torrent := Demo.bundle "c"; file := Demo.movie "Broken" |} ]
      "http://zurg:9999" 2 3 2000 4
      {| Demo.manage := inr (Demo.okResponse "a"); Demo.deletes := inr (Demo.okResponse "");
         Demo.restores := inr (Demo.okResponse "");
         Demo.details := [inr (Demo.okResponse "broken"); inr (Demo.okResponse "available")];
         Demo.order := [1; 0; 1; 1; 0] |}
    = (Normal results, w', tr) /\
    Forall2 (fun target result => repairFileResult target 3 result)
      [ {| torrent := Demo.bundle "a"; file := Demo.movie "Broken" |};
        {| torrent := Demo.bundle "b"; file := Demo.movie "Deleted" |};
        {| torrent := Demo.bundle "c"; file := Demo.movie "Broken" |} ]
      results /\
    Forall (fun result =>
              forall reason, message result <> "Repair promise rejected: " +:+ reason)
           results.
Proof.
  apply (repairFilesConcurrently_results_from_repairFile (parser := Demo.parser)
           (service := Demo.scripted)); simpl; lia.
Defined.

(** X10. [repairFilesConcurrently], for a concurrency limit of at least 1,
    works batch by batch: its run is a sequence of segments, one per chunk of
    at most [concurrencyLimit] consecutive targets, and every operation of a
    segment belongs to the repair of a target of its chunk. So a batch
    starts only when the batch before it has settled, and at most
    [concurrencyLimit] files are under repair at a time. *)
Theorem repairFilesConcurrently_batches {parser : HtmlParser} {service : Service}
    (repairs : list RepairTarget) (baseUrl : string)
    (concurrencyLimit maxRetries retryDelay fuel : nat) (w : world) :
  1 <= concurrencyLimit ->
  length repairs < fuel ->
  exists results w' tr chunks segments,
    repairFilesConcurrently repairs baseUrl concurrencyLimit maxRetries retryDelay fuel w
    = (Normal results, w', tr) /\
    concat chunks = repairs /\
    Forall (fun chunk => 1 <= length chunk <= concurrencyLimit) chunks /\
    tr = concat segments /\
    Forall2 (fun chunk segment =>
               Forall (fun ob =>
                         exists target,
                           In target chunk /\
                           touches (torrent target) (file target) baseUrl retryDelay ob)
                      segment)
            chunks segments.
Proof.
  intros Hlimit Hfuel. unfold repairFilesConcurrently.
  destruct (repairLoop_spec repairs baseUrl concurrencyLimit maxRetries retryDelay
              Hlimit fuel 0 [] w) as (results & w' & tr & Hrun & _);
    [lia | lia | constructor |].
  destruct (chunkLoop_returns repairs concurrencyLimit Hlimit fuel 0 [])
    as [chunks Hchunks]; [lia | lia |].
  destruct (repairLoop_batches _ _ _ _ _ _ _ _ _ _ _ _ _ _ Hrun Hchunks)
    as (rest & segments & -> & -> & Hall).
  destruct (chunkLoop_spec repairs concurrencyLimit Hlimit _ _ _ _ Hchunks)
    as (rest' & Heq & Hconcat & Hsizes & _).
  simpl in Heq. subst rest'.
  exists results, w', (concat segments), rest, segments.
  repeat split; auto.
Qed.

Lemma repairFilesConcurrently_batches_witness :
  exists results w' tr chunks segments,
    repairFilesConcurrently (parser := Demo.parser) (service := Demo.scripted)
      [ {| torrent := Demo.bundle "a"; file := Demo.movie "Broken" |};
        {| torrent := Demo.bundle "b"; file := Demo.movie "Deleted" |};
        {| torrent := Demo.bundle "c"; file := Demo.movie "Broken" |} ]
      "http://zurg:9999" 2 3 2000 4
      {| Demo.manage := inr (Demo.okResponse "a"); Demo.deletes := inr (Demo.okResponse "");
         Demo.restores := inr (Demo.okResponse "");
         Demo.details := [inr (Demo.okResponse "broken"); inr (Demo.okResponse "available")];
         Demo.order := [1; 0; 1; 1; 0] |}
    = (Normal results, w', tr) /\
    concat chunks
    = [ {| torrent := Demo.bundle "a"; file := Demo.movie "Broken" |};
        {| torrent := Demo.bundle "b"; file := Demo.movie "Deleted" |};
        {| torrent := Demo.bundle "c"; file := Demo.movie "Broken" |} ] /\
    Forall (fun chunk => 1 <= length chunk <= 2) chunks /\
    tr = concat segments /\
    Forall2 (fun chunk segment =>
               Forall (fun ob =>
                         exists target,
                           In target chunk /\
                           touches (torrent target) (file target) "http://zurg:9999" 2000 ob)
                      segment)
            chunks segments.
Proof.
  apply (repairFilesConcurrently_batches (parser := Demo.parser)
           (service := Demo.scripted)); simpl; lia.
Defined.

(** ** When [repairFilesConcurrently] returns *)

Section ReturnsIff.
Context {parser : HtmlParser} {service : Service}.

Lemma repairLoop_stuck (repairs : list RepairTarget) (baseUrl : string)
    (maxRetries retryDelay : nat) :
  repairs <> [] ->
  forall (fuel : nat) (results : list RepairResult) (w : world),
  fst (fst (repairLoop repairs baseUrl 0 maxRetries retryDelay fuel 0 results w)) = OutOfFuel.
Proof.
  intros Hne. induction fuel as [| fuel IH]; intros results w; cbn [repairLoop];
    [reflexivity |].
  destruct repairs as [| target repairs]; [congruence |].
  cbn [length Nat.ltb Nat.leb]. unfold_monad. unfold bindM.
  destruct (allSettled_run
              (map (fun repair =>
                      repairFile (torrent repair) (file repair) baseUrl maxRetries
                        retryDelay)
                 (slice (target :: repairs) 0 (0 + 0))) w)
    as (outcomes & w1 & tr1 & -> & _).
  specialize (IH (pushChunkResults (slice (target :: repairs) 0 (0 + 0)) outcomes 0 results)
                w1).
  destruct (repairLoop _ _ _ _ _ fuel _ _ w1) as [[c2 w2] tr2].
  simpl in *. exact IH.
Qed.

(** X11. [repairFilesConcurrently] returns exactly when the concurrency limit
    is at least 1 or there is nothing to repair; with nothing to repair it
    returns the empty list without any operation, whatever the limit. *)
Theorem repairFilesConcurrently_returns_iff (repairs : list RepairTarget)
    (baseUrl : string) (concurrencyLimit maxRetries retryDelay : nat) (w : world) :
  ((exists fuel results w' tr,
       repairFilesConcurrently repairs baseUrl concurrencyLimit maxRetries retryDelay fuel w
       = (Normal results, w', tr)) <->
   (1 <= concurrencyLimit \/ repairs = [])) /\
  forall fuel,
    repairFilesConcurrently [] baseUrl concurrencyLimit maxRetries retryDelay (S fuel) w
    = (Normal [], w, []).
Proof.
  split; [| reflexivity]. split.
  - intros (fuel & results & w' & tr & Hrun).
    destruct concurrencyLimit as [| limit]; [right | left; lia].
    destruct repairs as [| target repairs]; [reflexivity | exfalso].
    pose proof (repairLoop_stuck (target :: repairs) baseUrl maxRetries retryDelay
                  ltac:(discriminate) fuel [] w) as Hstuck.
    unfold repairFilesConcurrently in Hrun. rewrite Hrun in Hstuck. discriminate Hstuck.
  - intros [Hlimit | ->].
    + destruct (repairLoop_spec repairs baseUrl concurrencyLimit maxRetries retryDelay
                  Hlimit (S (length repairs)) 0 [] w)
        as (results & w' & tr & Hrun & _); [lia | lia | constructor |].
      exists (S (length repairs)), results, w', tr. exact Hrun.
    + exists 1, [], w, []. reflexivity.
Qed.

End ReturnsIff.

(** ** [runRepairForInstance]: [summarize] and [collectBrokenFiles] *)

Lemma foldl_countStatus (results : list RepairResult) :
  forall acc,
  Summary.repaired (foldl countStatus acc results)
  = Summary.repaired acc + length (List.filter (hasStatus repaired) results) /\
  Summary.failed (foldl countStatus acc results)
  = Summary.failed acc + length (List.filter (hasStatus failed) results) /\
  Summary.error (foldl countStatus acc results)
  = Summary.error acc + length (List.filter (hasStatus error) results).
Proof.
  induction results as [| result results IH]; intros acc; simpl; [lia |].
  destruct (IH (countStatus acc result)) as (-> & -> & ->).
  unfold countStatus, hasStatus. destruct (status result); simpl; lia.
Qed.

(** X12. The summary counts every result once, under its status: each count
    is the number of results of that status, the three counts add up to the
    number of results, and the condition under which [runRepairForInstance]
    throws holds exactly when some result is not [repaired]. *)
Theorem summarize_counts (repairResults : list RepairResult) :
  Summary.repaired (summarize repairResults)
  = length (List.filter (hasStatus repaired) repairResults) /\
  Summary.failed (summarize repairResults)
  = length (List.filter (hasStatus failed) repairResults) /\
  Summary.error (summarize repairResults)
  = length (List.filter (hasStatus error) repairResults) /\
  Summary.repaired (summarize repairResults) + Summary.failed (summarize repairResults)
  + Summary.error (summarize repairResults) = length repairResults /\
  ((0 <? Summary.failed (summarize repairResults))%nat
   || (0 <? Summary.error (summarize repairResults))%nat = true <->
   exists result, In result repairResults /\ status result <> repaired).
Proof.
  unfold summarize.
  destruct (foldl_countStatus repairResults (Summary.mk 0 0 0)) as (Hr & Hf & He).
  simpl in Hr, Hf, He. rewrite Hr, Hf, He. clear Hr Hf He.
  split; [reflexivity |]. split; [reflexivity |]. split; [reflexivity |].
  induction repairResults as [| result results [IHsum IHiff]]; cbn [List.filter length In].
  - split; [reflexivity |]. split; [discriminate | intros (result & [] & _)].
  - rewrite orb_true_iff, !Nat.ltb_lt in *.
    destruct (hasStatus repaired result) eqn:H1, (hasStatus failed result) eqn:H2,
      (hasStatus error result) eqn:H3;
      unfold hasStatus in H1, H2, H3; destruct (status result) eqn:Hstatus;
      try discriminate; cbn [length]; (split; [lia |]).
    + rewrite IHiff. split.
      * intros (r & Hr & Hne). eauto.
      * intros (r & [<- | Hr] & Hne); [congruence | eauto].
    + split; [intros _ | lia]. exists result. split; [auto | congruence].
    + split; [intros _ | lia]. exists result. split; [auto | congruence].
Qed.

Lemma In_collectBrokenFiles (detailedTorrents : list DetailedTorrent.t)
    (target : RepairTarget) :
  In target (collectBrokenFiles detailedTorrents) <->
  exists detailed,
    In detailed detailedTorrents /\
    torrent target = DetailedTorrent.upcast detailed /\
    In (file target) (DetailedTorrent.files detailed) /\
    isAvailable (file target) = false.
Proof.
  unfold collectBrokenFiles. rewrite in_flat_map. split.
  - intros (detailed & Hd & Htarget). exists detailed.
    apply in_map_iff in Htarget as (f & <- & Hf).
    apply List.filter_In in Hf as [Hf Hbroken].
    apply negb_true_iff in Hbroken. auto.
  - intros (detailed & Hd & Ht & Hf & Hbroken). exists detailed. split; [exact Hd |].
    apply in_map_iff. exists (file target). split.
    + destruct target as [t f]. simpl in *. subst t. reflexivity.
    + apply List.filter_In. split; [exact Hf |]. rewrite Hbroken. reflexivity.
Qed.

(** ** The operations of a run of [runRepairForInstance] *)

Lemma app_split_at {A : Type} (l1 l2 pre post : list A) (x : A) :
  l1 ++ l2 = pre ++ x :: post -> ~ In x l1 ->
  exists pre', pre = l1 ++ pre' /\ l2 = pre' ++ x :: post.
Proof.
  revert pre. induction l1 as [| a l1 IH]; intros pre Heq Hnot; simpl in *.
  - exists pre. auto.
  - destruct pre as [| b pre]; simpl in Heq.
    + injection Heq as -> _. exfalso. apply Hnot. auto.
    + injection Heq as -> Heq.
      destruct (IH pre Heq) as (pre' & -> & ->); [tauto |]. eauto.
Qed.

Section RunnerTraces.
Context {parser : HtmlParser} {service : Service}.

Lemma getTorrentList_run (baseUrl : string) (w : world) :
  awaitTask (getTorrentList baseUrl) w =
  let '(answer, w1) := respond _ (fetch ManagePage baseUrl) w in
  (match answer with
   | inl e => Abrupt e
   | inr response =>
       if ok response then Normal (parseTorrentList (text response))
       else Abrupt (newError ("Failed to fetch manage page from " +:+ baseUrl +:+ ": "
                               +:+ statusText response))
   end, w1, [Observed (fetch ManagePage baseUrl) answer]).
Proof.
  unfold awaitTask, getTorrentList, getManagePageHtml. unfold_monad. simpl.
  destruct (respond _ _ w) as [[e | response] w1]; simpl; [reflexivity |].
  destruct (ok response); reflexivity.
Qed.

Lemma repairLoop_issues (repairs : list RepairTarget) (baseUrl : string)
    (concurrencyLimit maxRetries retryDelay : nat) :
  forall (fuel i : nat) (results : list RepairResult) (w : world),
  Forall (repairs_one_of repairs baseUrl retryDelay)
    (snd (repairLoop repairs baseUrl concurrencyLimit maxRetries retryDelay fuel i results w)).
Proof.
  induction fuel as [| fuel IH]; intros i results w; cbn [repairLoop]; [constructor |].
  destruct (i <? length repairs)%nat; [| constructor].
  unfold_monad. unfold bindM.
  set (chunk := slice repairs i (i + concurrencyLimit)).
  pose proof (allSettled_issues (repairs_one_of repairs baseUrl retryDelay)
                (map (fun repair =>
                        repairFile (torrent repair) (file repair) baseUrl maxRetries
                          retryDelay) chunk) w) as Hsegment.
  destruct (allSettled_run
              (map (fun repair =>
                      repairFile (torrent repair) (file repair) baseUrl maxRetries
                        retryDelay) chunk) w)
    as (outcomes & w1 & tr1 & Heq & _).
  rewrite Heq in *. simpl in Hsegment.
  specialize (IH (i + concurrencyLimit) (pushChunkResults chunk outcomes 0 results) w1).
  destruct (repairLoop _ _ _ _ _ fuel _ _ w1) as [[c2 w2] tr2].
  simpl in *. apply Forall_app. split; [| exact IH].
  apply Hsegment. apply List.Forall_forall. intros t Ht.
  apply in_map_iff in Ht as (target & <- & Htarget).
  eapply issues_weaken; [| apply repairFile_branches].
  intros ob Hob. exists target. split; [| exact Hob].
  unfold chunk, slice in Htarget.
  apply list_elem_of_In in Htarget. apply list_elem_of_In.
  eapply subseteq_drop, subseteq_take in Htarget. exact Htarget.
Qed.

Lemma getDetailedTorrentsConcurrently_only_details (fuel : nat) (torrents : list Torrent.t)
    (baseUrl : string) (concurrencyLimit : nat) (w : world) (ob : observation) :
  In ob (snd (getDetailedTorrentsConcurrently fuel torrents baseUrl concurrencyLimit w)) ->
  exists torrent, In torrent torrents /\ operationOf ob = detailsRequest baseUrl torrent.
Proof.
  unfold getDetailedTorrentsConcurrently.
  destruct (chunkArray fuel torrents concurrencyLimit) as [chunks |] eqn:Hchunks;
    [| intros []].
  intros Hob. apply (in_map operationOf) in Hob.
  apply list_elem_of_In in Hob.
  rewrite (processChunks_operations baseUrl chunks [] w) in Hob.
  rewrite (chunkLoop_concat torrents concurrencyLimit fuel 0 [] chunks
             ltac:(reflexivity) Hchunks) in Hob.
  apply list_elem_of_In, in_map_iff in Hob as (torrent & Heq & Hin). eauto.
Qed.

End RunnerTraces.

Lemma detailsRequest_observation (baseUrl : string) (torrent : Torrent.t) (ob : observation) :
  operationOf ob = detailsRequest baseUrl torrent ->
  exists answer, ob = Observed (fetch (DetailsPage (Torrent.hash torrent)) baseUrl) answer.
Proof.
  destruct ob as [X c x]. destruct c as [page u | ms]; simpl; [| discriminate].
  intros [= -> ->]. eauto.
Qed.

Section RunnerShape.
Context {parser : HtmlParser} {service : Service}.

(** A run of [runRepairForInstance] that ends, phase by phase: the request
    for the list, the requests for the details pages, the repairs. *)
Lemma runRepairForInstance_phases (fuel : nat) (instance : ZurgInstance.t)
    (w w' : world) (c : completion unit) (tr : trace) :
  runRepairForInstance fuel instance w = (c, w', tr) ->
  c <> OutOfFuel ->
  exists answer allTorrents detailedTorrents tr2 tr3,
    tr = Observed (fetch ManagePage (ZurgInstance.baseUrl instance)) answer :: tr2 ++ tr3 /\
    Forall (fun ob =>
              exists torrent,
                operationOf ob = detailsRequest (ZurgInstance.baseUrl instance) torrent) tr2 /\
    entriesOf (ZurgInstance.baseUrl instance) tr2 allTorrents detailedTorrents /\
    Forall (repairs_one_of (collectBrokenFiles detailedTorrents)
              (ZurgInstance.baseUrl instance) (ZurgInstance.retryDelay instance)) tr3 /\
    (fetchFailed answer = true -> tr2 = [] /\ tr3 = [] /\ exists e, c = Abrupt e) /\
    (fetchFailed answer = false ->
     collectBrokenFiles detailedTorrents = [] -> tr3 = [] /\ c = Normal tt).
Proof.
  intros Hrun Hc.
  assert (Hnone : entriesOf (ZurgInstance.baseUrl instance) [] [] [])
    by (exists []; split; [constructor | reflexivity]).
  destruct (runRepairForInstance_cases fuel instance w w' c tr Hrun Hc)
    as [(e & Hlist & ->)
       | [(Hlist & ->)
         | [(allTorrents & w1 & tr1 & detailedTorrents & tr2 & Hlist & Hdetailed & -> &
             Hbroken & ->)
           | (allTorrents & w1 & tr1 & detailedTorrents & w2 & tr2 & repairResults & tr3 &
              Hlist & Hdetailed & Hrepair & -> & ->)]]];
    rewrite getTorrentList_run in Hlist; cbv zeta in Hlist;
    destruct (respond _ _ w) as [answer w0]; injection Hlist as Hanswer <- <-.
  - assert (Hfailed : fetchFailed answer = true).
    { destruct answer as [e0 | response]; [reflexivity |].
      simpl. destruct (ok response); [discriminate Hanswer | reflexivity]. }
    exists answer, [], [], [], [].
    split; [reflexivity |]. split; [constructor |]. split; [exact Hnone |].
    split; [constructor |]. split; [eauto | congruence].
  - assert (Hok : fetchFailed answer = false).
    { destruct answer as [e0 | response]; [discriminate Hanswer |].
      simpl. destruct (ok response); [reflexivity | discriminate Hanswer]. }
    exists answer, [], [], [], [].
    split; [reflexivity |]. split; [constructor |]. split; [exact Hnone |].
    split; [constructor |]. split; [congruence | auto].
  - assert (Hok : fetchFailed answer = false).
    { destruct answer as [e0 | response]; [discriminate Hanswer |].
      simpl. destruct (ok response); [reflexivity | discriminate Hanswer]. }
    exists answer, allTorrents, detailedTorrents, tr2, [].
    rewrite app_nil_r. split; [reflexivity |]. split; [| split; [| split; [| split]]].
    + apply List.Forall_forall. intros ob Hob.
      pose proof (getDetailedTorrentsConcurrently_only_details fuel allTorrents
                    (ZurgInstance.baseUrl instance)
                    (ZurgInstance.concurrencyLimit instance) w0 ob) as Hdet.
      rewrite Hdetailed in Hdet. destruct (Hdet Hob) as (torrent & _ & Hop). eauto.
    + destruct (getDetailedTorrentsConcurrently_run fuel allTorrents
                  (ZurgInstance.baseUrl instance)
                  (ZurgInstance.concurrencyLimit instance) w0)
        as [[_ Hout] | (r & w3 & tr3 & Hret & Hent)]; [congruence |].
      rewrite Hret in Hdetailed. injection Hdetailed as -> _ ->. exact Hent.
    + constructor.
    + congruence.
    + auto.
  - assert (Hok : fetchFailed answer = false).
    { destruct answer as [e0 | response]; [discriminate Hanswer |].
      simpl. destruct (ok response); [reflexivity | discriminate Hanswer]. }
    exists answer, allTorrents, detailedTorrents, tr2, tr3.
    split; [reflexivity |]. split; [| split; [| split; [| split]]].
    + apply List.Forall_forall. intros ob Hob.
      pose proof (getDetailedTorrentsConcurrently_only_details fuel allTorrents
                    (ZurgInstance.baseUrl instance)
                    (ZurgInstance.concurrencyLimit instance) w0 ob) as Hdet.
      rewrite Hdetailed in Hdet. destruct (Hdet Hob) as (torrent & _ & Hop). eauto.
    + destruct (getDetailedTorrentsConcurrently_run fuel allTorrents
                  (ZurgInstance.baseUrl instance)
                  (ZurgInstance.concurrencyLimit instance) w0)
        as [[_ Hout] | (r & w3 & tr4 & Hret & Hent)]; [congruence |].
      rewrite Hret in Hdetailed. injection Hdetailed as -> _ ->. exact Hent.
    + pose proof (repairLoop_issues (collectBrokenFiles detailedTorrents)
                    (ZurgInstance.baseUrl instance) (ZurgInstance.concurrencyLimit instance)
                    (ZurgInstance.retryAttempts instance) (ZurgInstance.retryDelay instance)
                    fuel 0 [] w2) as Hiss.
      unfold repairFilesConcurrently in Hrepair. rewrite Hrepair in Hiss. exact Hiss.
    + congruence.
    + intros _ Hbroken. rewrite Hbroken in Hrepair.
      unfold repairFilesConcurrently in Hrepair.
      destruct fuel as [| fuel]; [discriminate Hrepair |].
      simpl in Hrepair. injection Hrepair as <- _ <-. auto.
Qed.

End RunnerShape.


Section RunnerRequests.
Context {parser : HtmlParser} {service : Service}.

(** X13. A run of [runRepairForInstance] that ends deletes or restores only
    what it has seen broken: before every delete and every restore request
    of the run, for a file of a torrent, the run got a details page of that
    torrent that lists the file with a status other than "available". *)
Theorem runRepairForInstance_changes_only_seen_broken (fuel : nat)
    (instance : ZurgInstance.t) (w w' : world) (c : completion unit) (tr : trace) :
  runRepairForInstance fuel instance w = (c, w', tr) ->
  c <> OutOfFuel ->
  forall pre ob post torrentHash fileId,
    tr = pre ++ ob :: post ->
    changes ob = Some (torrentHash, fileId) ->
    seenBroken (ZurgInstance.baseUrl instance) pre torrentHash fileId.
Proof.
  intros Hrun Hc pre ob post torrentHash fileId Htr Hchanges.
  destruct (runRepairForInstance_phases fuel instance w w' c tr Hrun Hc)
    as (answer & allTorrents & detailedTorrents & tr2 & tr3 & -> & Hdetails & Hentries &
        Hrepairs & _ & _).
  assert (Hnot : ~ In ob (Observed (fetch ManagePage (ZurgInstance.baseUrl instance)) answer
                            :: tr2)).
  { intros [<- | Hin]; [discriminate Hchanges |].
    rewrite List.Forall_forall in Hdetails.
    destruct (Hdetails ob Hin) as (torrent & Hop).
    apply detailsRequest_observation in Hop as (a & ->). discriminate Hchanges. }
  change (Observed (fetch ManagePage (ZurgInstance.baseUrl instance)) answer :: tr2 ++ tr3)
    with ((Observed (fetch ManagePage (ZurgInstance.baseUrl instance)) answer :: tr2) ++ tr3)
    in Htr.
  destruct (app_split_at _ _ _ _ _ Htr Hnot) as (pre3 & -> & ->).
  rewrite List.Forall_forall in Hrepairs.
  destruct (Hrepairs ob ltac:(apply in_or_app; right; left; reflexivity))
    as (target & Htarget & Htouches).
  apply In_collectBrokenFiles in Htarget
    as (detailed & Hdetailed & Htorrent & Hfile & Hbroken).
  destruct Hentries as (parts & Hparts & ->).
  apply in_concat in Hdetailed as (part & Hpart & Hdetailed).
  destruct (Forall2_In_r _ _ _ _ Hparts Hpart) as (torrent & _ & a & Hobs & ->).
  assert (Hpage : exists response,
             a = inr response /\ ok response = true /\
             detailed = DetailedTorrent.spread torrent (parseTorrentFiles (text response))).
  { unfold entryFor in Hdetailed. destruct (fetchFailed a) eqn:Hfailed.
    - destruct Hdetailed as [<- | []]. destruct Hfile.
    - destruct a as [e | response]; [destruct Hdetailed |].
      destruct (forallb isAvailable _); [destruct Hdetailed |].
      destruct Hdetailed as [<- | []]. exists response.
      simpl in Hfailed. destruct (ok response); [auto | discriminate Hfailed]. }
  destruct Hpage as (response & -> & Hok & ->).
  assert (Hids : torrentHash = Torrent.hash torrent /\ fileId = TorrentFile.id (file target)).
  { rewrite Htorrent in Htouches. destruct ob as [X c0 x].
    destruct c0 as [[| h | h i | h i] u | ms]; simpl in *; try discriminate Hchanges;
      injection Hchanges as <- <-; tauto. }
  destruct Hids as [-> ->].
  exists response, (file target). split; [| auto].
  apply in_or_app. left. right. exact Hobs.
Qed.


(** X15. A torrent whose details page could not be fetched is kept by
    [getDetailedTorrentsConcurrently] with no file, so it gives
    [runRepairForInstance] nothing to repair: a run that fetched the list
    and whose requests for details pages all failed returns normally, and
    makes no delete and no restore request. *)
Theorem runRepairForInstance_unfetched_are_not_repaired (fuel : nat)
    (instance : ZurgInstance.t) (w w' : world) (c : completion unit) (tr : trace) :
  runRepairForInstance fuel instance w = (c, w', tr) ->
  c <> OutOfFuel ->
  (forall answer,
      In (Observed (fetch ManagePage (ZurgInstance.baseUrl instance)) answer) tr ->
      fetchFailed answer = false) ->
  (forall hash answer,
      In (Observed (fetch (DetailsPage hash) (ZurgInstance.baseUrl instance)) answer) tr ->
      fetchFailed answer = true) ->
  c = Normal tt /\ Forall (fun ob => changes ob = None) tr.
Proof.
  intros Hrun Hc Hlist Hfailed.
  destruct (runRepairForInstance_phases fuel instance w w' c tr Hrun Hc)
    as (answer & allTorrents & detailedTorrents & tr2 & tr3 & -> & Hdetails & Hentries &
        _ & _ & Hnothing).
  assert (Hbroken : collectBrokenFiles detailedTorrents = []).
  { destruct (collectBrokenFiles detailedTorrents) as [| target targets] eqn:Htargets;
      [reflexivity | exfalso].
    assert (Htarget : In target (collectBrokenFiles detailedTorrents))
      by (rewrite Htargets; left; reflexivity).
    apply In_collectBrokenFiles in Htarget as (detailed & Hdetailed & _ & Hfile & _).
    destruct Hentries as (parts & Hparts & ->).
    apply in_concat in Hdetailed as (part & Hpart & Hdetailed).
    destruct (Forall2_In_r _ _ _ _ Hparts Hpart) as (torrent & _ & a & Hobs & ->).
    unfold entryFor in Hdetailed.
    rewrite (Hfailed (Torrent.hash torrent) a) in Hdetailed
      by (right; apply in_or_app; left; exact Hobs).
    destruct Hdetailed as [<- | []]. destruct Hfile. }
  destruct (Hnothing (Hlist answer ltac:(left; reflexivity)) Hbroken) as [-> ->].
  split; [reflexivity |]. constructor; [reflexivity |].
  rewrite app_nil_r. eapply Forall_impl; [exact Hdetails |].
  intros ob (torrent & Hop). apply detailsRequest_observation in Hop as (a & ->).
  reflexivity.
Qed.

End RunnerRequests.

Lemma runRepairForInstance_changes_only_seen_broken_witness :
  fst (fst (runRepairForInstance (parser := Demo.parser) (service := Demo.scripted) 5
              Scenario.main
              (Demo.healthy [inr (Demo.okResponse "broken");
                             inr (Demo.okResponse "available")])))
  = Normal tt /\
  forall pre ob post torrentHash fileId,
    snd (runRepairForInstance (parser := Demo.parser) (service := Demo.scripted) 5
           Scenario.main
           (Demo.healthy [inr (Demo.okResponse "broken"); inr (Demo.okResponse "available")]))
    = pre ++ ob :: post ->
    changes ob = Some (torrentHash, fileId) ->
    seenBroken (parser := Demo.parser) "http://zurg:9999" pre torrentHash fileId.
Proof.
  destruct (runRepairForInstance _ _ _) as [[c w'] tr] eqn:Hrun. simpl fst. simpl snd.
  assert (Hc : c = Normal tt) by (vm_compute in Hrun; congruence).
  split; [exact Hc |].
  apply (runRepairForInstance_changes_only_seen_broken (parser := Demo.parser)
           (service := Demo.scripted) _ _ _ _ _ _ Hrun).
  rewrite Hc. discriminate.
Defined.


Lemma runRepairForInstance_unfetched_are_not_repaired_witness :
  fst (fst (runRepairForInstance (parser := Demo.parser) (service := Demo.scripted) 5
              Scenario.main (Demo.healthy [])))
  = Normal tt /\
  Forall (fun ob => changes ob = None)
    (snd (runRepairForInstance (parser := Demo.parser) (service := Demo.scripted) 5
            Scenario.main (Demo.healthy []))).
Proof.
  destruct (runRepairForInstance _ _ _) as [[c w'] tr] eqn:Hrun. simpl fst. simpl snd.
  apply (runRepairForInstance_unfetched_are_not_repaired (parser := Demo.parser)
           (service := Demo.scripted) _ _ _ _ _ _ Hrun).
  - vm_compute in Hrun. injection Hrun as <- _ _. discriminate.
  - vm_compute in Hrun. injection Hrun as _ _ <-.
    intros answer Hin. apply In_fetched in Hin. vm_compute in Hin.
    destruct Hin as [Hin | [Hin | []]]; [injection Hin as <-; reflexivity | discriminate Hin].
  - vm_compute in Hrun. injection Hrun as _ _ <-.
    intros hash answer Hin. apply In_fetched in Hin. vm_compute in Hin.
    destruct Hin as [Hin | [Hin | []]]; [discriminate Hin | injection Hin as _ <-; reflexivity].
Defined.

(** ** The delete requests of a run *)




Section DeleteFacts.
Context {service : Service}.







End DeleteFacts.

Section RepairFileDeletes.
Context {parser : HtmlParser}.



End RepairFileDeletes.

Section RepairManyDeletes.
Context {parser : HtmlParser} {service : Service}.
Variables (repairs : list RepairTarget) (baseUrl : string).
Variables (concurrencyLimit maxRetries retryDelay : nat).


End RepairManyDeletes.



(** ** What a run deletes, and what it saw broken *)


Section LedgerFacts.
Context {parser : HtmlParser}.





End LedgerFacts.


Section LedgerRuns.
Context {parser : HtmlParser} {service : Service}.


End LedgerRuns.


(** ** The other methods of the scheduler *)

Lemma JsMap_has_set {V : Type} (key key' : string) (value : V) (m : JsMap.t V) :
  JsMap.has key (JsMap.set key' value m) = String.eqb key' key || JsMap.has key m.
Proof.
  unfold JsMap.has. induction m as [| [k v] m IH]; simpl.
  - rewrite orb_false_r. reflexivity.
  - destruct (String.eqb k key') eqn:Hk; simpl.
    + apply String.eqb_eq in Hk. subst k.
      destruct (String.eqb key' key); reflexivity.
    + rewrite IH. destruct (String.eqb k key), (String.eqb key' key); reflexivity.
Qed.

Lemma JsMap_set_fresh {V : Type} (key : string) (value : V) (m : JsMap.t V) :
  JsMap.has key m = false -> JsMap.set key value m = m ++ [(key, value)].
Proof.
  unfold JsMap.has. induction m as [| [k v] m IH]; simpl; [reflexivity |].
  intros Hfresh. apply orb_false_iff in Hfresh as [Hk Hm]. simpl in Hk.
  rewrite Hk, (IH Hm). reflexivity.
Qed.

Section SchedulerMethods.
Context {cron : Cron}.

(** X18. After [startAll] the map of jobs holds, besides what it held, the
    names of exactly the instances that are enabled, whose cron expression
    [cron.validate] accepts, and for which [cron.schedule] gave a task: a
    disabled instance is never scheduled, and an instance that cannot be
    scheduled does not keep the ones after it from being scheduled. *)
Theorem startAll_schedules_enabled_valid (timezone : string)
    (instances : list ZurgInstance.t) (jobs : JsMap.t ScheduledTask) (key : string) :
  JsMap.has key (fst (ZurgScheduler.startAll timezone instances jobs)) = true <->
  JsMap.has key jobs = true \/
  exists instance task,
    In instance instances /\
    ZurgInstance.name instance = key /\
    ZurgInstance.enabled instance = true /\
    validate (ZurgInstance.cronSchedule instance) = true /\
    schedule (ZurgInstance.cronSchedule instance) instance timezone = inr task.
Proof.
  revert jobs. induction instances as [| instance instances IH]; intros jobs; simpl.
  - split; [auto | intros [H | (i & t & [] & _)]; exact H].
  - assert (Hstep : forall jobs1 calls,
               (if ZurgInstance.enabled instance
                then ZurgScheduler.scheduleInstance timezone instance jobs
                else (jobs, [])) = (jobs1, calls) ->
               (JsMap.has key jobs1 = true <->
                JsMap.has key jobs = true \/
                exists task,
                  ZurgInstance.name instance = key /\
                  ZurgInstance.enabled instance = true /\
                  validate (ZurgInstance.cronSchedule instance) = true /\
                  schedule (ZurgInstance.cronSchedule instance) instance timezone
                  = inr task)).
    { intros jobs1 calls. unfold ZurgScheduler.scheduleInstance.
      destruct (ZurgInstance.enabled instance);
        [| intros [= <- _]; split; [auto | intros [H | (t & _ & H & _)]; [exact H | discriminate H]]].
      destruct (validate (ZurgInstance.cronSchedule instance)); simpl;
        [| intros [= <- _]; split;
           [auto | intros [H | (t & _ & _ & H & _)]; [exact H | discriminate H]]].
      destruct (schedule _ instance timezone) as [caught | task];
        [intros [= <- _]; split;
           [auto | intros [H | (t & _ & _ & _ & H)]; [exact H | discriminate H]] |].
      intros [= <- _]. rewrite JsMap_has_set, orb_true_iff, String.eqb_eq.
      split; [intros [H | H]; [right; eauto | auto] | intros [H | (t & H & _)]; auto]. }
    destruct (if ZurgInstance.enabled instance
              then ZurgScheduler.scheduleInstance timezone instance jobs
              else (jobs, [])) as [jobs1 calls] eqn:Hfirst.
    specialize (Hstep jobs1 calls eq_refl). specialize (IH jobs1).
    destruct (ZurgScheduler.startAll timezone instances jobs1) as [jobs2 calls2].
    simpl in *. rewrite IH, Hstep. split.
    + intros [[H | (task & Hn & He & Hv & Hs)] | (i & task & Hi & H)];
        [auto | right; exists instance, task; auto | right; exists i, task; tauto].
    + intros [H | (i & task & [<- | Hi] & H)];
        [auto | left; right; exists task; exact H | right; exists i, task; auto].
Qed.

Lemma destroyAll_all (entries : JsMap.t ScheduledTask) :
  (forall task, In task (map snd entries) -> destroy task = None) ->
  ZurgScheduler.destroyAll entries
  = (None, map ZurgScheduler.Destroyed (map snd entries)).
Proof.
  induction entries as [| [name task] entries IH]; simpl; [reflexivity |].
  intros Hnone. rewrite (Hnone task) by auto. rewrite IH by auto. reflexivity.
Qed.

Lemma startAll_fresh (timezone : string) (instances : list ZurgInstance.t) :
  NoDup (map ZurgInstance.name instances) ->
  forall jobs,
  (forall instance, In instance instances ->
                    JsMap.has (ZurgInstance.name instance) jobs = false) ->
  exists added,
    ZurgScheduler.startAll timezone instances jobs
    = (jobs ++ added, map ZurgScheduler.Started (map snd added)).
Proof.
  induction instances as [| instance instances IH]; intros Hnodup jobs Hfresh; simpl.
  - exists []. rewrite app_nil_r. reflexivity.
  - apply NoDup_cons in Hnodup as [Hnew Hnodup].
    assert (Hstep : exists added,
               (if ZurgInstance.enabled instance
                then ZurgScheduler.scheduleInstance timezone instance jobs
                else (jobs, []))
               = (jobs ++ added, map ZurgScheduler.Started (map snd added)) /\
               forall key, JsMap.has key added = true -> key = ZurgInstance.name instance).
    { unfold ZurgScheduler.scheduleInstance.
      destruct (ZurgInstance.enabled instance);
        [| exists []; rewrite app_nil_r; split; [reflexivity | intros key H; discriminate H]].
      destruct (validate _); simpl;
        [| exists []; rewrite app_nil_r; split; [reflexivity | intros key H; discriminate H]].
      destruct (schedule _ instance timezone) as [caught | task];
        [exists []; rewrite app_nil_r; split; [reflexivity | intros key H; discriminate H] |].
      exists [(ZurgInstance.name instance, task)].
      rewrite JsMap_set_fresh by (apply Hfresh; left; reflexivity).
      split; [reflexivity |]. intros key. unfold JsMap.has. simpl.
      rewrite orb_false_r, String.eqb_eq. auto. }
    destruct Hstep as (added & -> & Hadded).
    destruct (IH Hnodup (jobs ++ added)) as (added' & -> ).
    + intros i Hi. unfold JsMap.has. rewrite existsb_app. apply orb_false_iff. split.
      * apply Hfresh. right. exact Hi.
      * destruct (JsMap.has (ZurgInstance.name i) added) eqn:Hhas; [| exact Hhas].
        exfalso. apply Hnew. rewrite <- (Hadded _ Hhas).
        apply list_elem_of_In, in_map, Hi.
    + exists (added ++ added'). rewrite app_assoc, !map_app. reflexivity.
Qed.

(** X19. [stopAll] calls [destroy] on the tasks of the map, in order. When a
    call throws, [stopAll] throws that value at once and the map is left as
    it was; otherwise every task is destroyed and the map is emptied. So,
    for instances with distinct names, a [stopAll] after [startAll] on a
    fresh scheduler destroys exactly the tasks that were started, in the
    order they were started. *)
Theorem stopAll_destroys_what_startAll_started (timezone : string)
    (instances : list ZurgInstance.t) :
  (forall jobs,
      match ZurgScheduler.stopAll jobs with
      | (Some thrown, jobs', calls) =>
          jobs' = jobs /\
          exists task, last calls = Some (ZurgScheduler.Destroyed task) /\
                       destroy task = Some thrown
      | (None, jobs', calls) =>
          jobs' = [] /\ calls = map ZurgScheduler.Destroyed (map snd jobs)
      end) /\
  (NoDup (map ZurgInstance.name instances) ->
   exists tasks,
     snd (ZurgScheduler.startAll timezone instances []) = map ZurgScheduler.Started tasks /\
     ((forall task, In task tasks -> destroy task = None) ->
      ZurgScheduler.stopAll (fst (ZurgScheduler.startAll timezone instances []))
      = (None, [], map ZurgScheduler.Destroyed tasks))).
Proof.
  split.
  - intros jobs. unfold ZurgScheduler.stopAll.
    assert (Hdestroy : match ZurgScheduler.destroyAll jobs with
                       | (Some thrown, calls) =>
                           exists task, last calls = Some (ZurgScheduler.Destroyed task) /\
                                        destroy task = Some thrown
                       | (None, calls) =>
                           calls = map ZurgScheduler.Destroyed (map snd jobs)
                       end).
    { induction jobs as [| [name task] jobs IH]; simpl; [reflexivity |].
      destruct (destroy task) as [thrown |] eqn:Htask; [eauto |].
      destruct (ZurgScheduler.destroyAll jobs) as [[thrown |] calls].
      - destruct IH as (t & Hlast & Ht). exists t. split; [| exact Ht].
        destruct calls; [discriminate Hlast | exact Hlast].
      - rewrite IH. reflexivity. }
    destruct (ZurgScheduler.destroyAll jobs) as [[thrown |] calls]; auto.
  - intros Hnodup.
    destruct (startAll_fresh timezone instances Hnodup [] ltac:(reflexivity))
      as (added & ->).
    exists (map snd added). split; [reflexivity |]. intros Hnone.
    unfold ZurgScheduler.stopAll. simpl. rewrite destroyAll_all by exact Hnone.
    reflexivity.
Qed.

End SchedulerMethods.

(** [find] gives the first instance of the name. *)
Lemma find_first_of_name (before after : list ZurgInstance.t) (instance : ZurgInstance.t)
    (wanted : string) :
  (forall i, In i before -> ZurgInstance.name i <> wanted) ->
  ZurgInstance.name instance = wanted ->
  List.find (fun i => String.eqb (ZurgInstance.name i) wanted) (before ++ instance :: after)
  = Some instance.
Proof.
  intros Hbefore Hname. induction before as [| i before IH]; simpl.
  - rewrite (proj2 (String.eqb_eq _ _) Hname). reflexivity.
  - destruct (String.eqb (ZurgInstance.name i) wanted) eqn:Hi.
    + apply String.eqb_eq in Hi. destruct (Hbefore i (or_introl eq_refl) Hi).
    + apply IH. intros i' Hi'. apply Hbefore. right. exact Hi'.
Qed.

(** X20. [runInstanceNow] rejects only for a name that no instance of the
    configuration has ("not found") and for a first instance of that name
    that is disabled ("is disabled"), and then it leaves the scheduler as it
    was. For an enabled instance it is [executeInstance] of it: it resolves
    without a run when the instance is running, and otherwise starts the
    run and resolves however the run settles, the name removed. *)
Theorem runInstanceNow_outcome (instances : list ZurgInstance.t) (instanceName : string)
    (st : Scheduler.state) :
  ((forall instance, In instance instances -> ZurgInstance.name instance <> instanceName) ->
   Scheduler.advance (ZurgScheduler.runInstanceNow instances instanceName) st
   = (Scheduler.Settled
        (rejected (newError ("Instance '" +:+ instanceName +:+ "' not found"))), st)) /\
  (forall before instance after,
      instances = before ++ instance :: after ->
      (forall i, In i before -> ZurgInstance.name i <> instanceName) ->
      ZurgInstance.name instance = instanceName ->
      (ZurgInstance.enabled instance = false ->
       Scheduler.advance (ZurgScheduler.runInstanceNow instances instanceName) st
       = (Scheduler.Settled
            (rejected (newError ("Instance '" +:+ instanceName +:+ "' is disabled"))), st)) /\
      (ZurgInstance.enabled instance = true ->
       (instanceName ∈ Scheduler.runningJobs st ->
        Scheduler.advance (ZurgScheduler.runInstanceNow instances instanceName) st
        = (Scheduler.Settled (fulfilled tt), st)) /\
       (instanceName ∉ Scheduler.runningJobs st ->
        exists resume,
          Scheduler.advance (ZurgScheduler.runInstanceNow instances instanceName) st
          = (Scheduler.Suspended instance resume,
             {| Scheduler.runningJobs := {[instanceName]} ∪ Scheduler.runningJobs st |}) /\
          forall outcome st',
            Scheduler.advance (resume outcome) st'
            = (Scheduler.Settled (fulfilled tt),
               {| Scheduler.runningJobs :=
                    Scheduler.runningJobs st' ∖ {[instanceName]} |})))).
Proof.
  unfold ZurgScheduler.runInstanceNow. split.
  - intros Hnone.
    destruct (List.find _ instances) as [instance |] eqn:Hfind; [| reflexivity].
    apply List.find_some in Hfind as [Hin Hname]. apply String.eqb_eq in Hname.
    destruct (Hnone instance Hin Hname).
  - intros before instance after -> Hbefore Hname.
    rewrite (find_first_of_name before after instance instanceName Hbefore Hname). split.
    + intros ->. reflexivity.
    + intros ->. simpl negb. cbv iota. rewrite advance_executeInstance, Hname. split.
      * intros Hrunning. rewrite bool_decide_eq_true_2 by exact Hrunning. reflexivity.
      * intros Hrunning. rewrite bool_decide_eq_false_2 by exact Hrunning.
        exists (continuation instance). split; [reflexivity |].
        rewrite <- Hname. apply (continuation_clears instance).
Qed.

(** X21. [getStatus] gives one entry per instance of the configuration, in
    order. On a scheduler reached from the initial one by any sequence of
    triggers and settlements, an entry says [running] exactly when a run of
    an instance of that name is in flight. *)
Theorem getStatus_reports_runs_in_flight {cron : Cron} (instances : list ZurgInstance.t)
    (jobs : JsMap.t ScheduledTask) (events : list Scheduler.event) :
  let s := foldl Scheduler.step Scheduler.initial events in
  let statuses := ZurgScheduler.getStatus instances jobs (Scheduler.fields s) in
  map ZurgScheduler.name statuses = map ZurgInstance.name instances /\
  Forall (fun status =>
            ZurgScheduler.running status = true <->
            ZurgScheduler.name status ∈ Scheduler.inFlight s) statuses.
Proof.
  intros s statuses.
  destruct (exclusive_foldl events Scheduler.initial exclusive_initial)
    as (_ & Hkeys & _). fold s in Hkeys.
  unfold statuses, ZurgScheduler.getStatus. split.
  - rewrite map_map. reflexivity.
  - apply Forall_map. apply List.Forall_forall. intros instance _. simpl.
    rewrite bool_decide_eq_true. apply Hkeys.
Qed.

Lemma foldl_step_rounds (s : Scheduler.scheduler) (during : list (list Scheduler.event))
    (n : nat) :
  foldl Scheduler.step (foldl Scheduler.step s (hd [] during)) (concat (take n (tl during)))
  = foldl Scheduler.step s (concat (take (S n) during)).
Proof.
  destruct during as [| evs during]; simpl.
  - rewrite take_nil. reflexivity.
  - rewrite foldl_app. reflexivity.
Qed.

Lemma waitLoop_spec :
  forall (fuel k : nat) (s : Scheduler.scheduler) (during : list (list Scheduler.event)),
  k <= 30 -> 30 - k < fuel ->
  exists n,
    k + n <= 30 /\
    ZurgScheduler.waitLoop fuel (k * 1000) s during
    = Some ((k + n) * 1000, foldl Scheduler.step s (concat (take n during))) /\
    (k + n < 30 ->
     size (Scheduler.runningJobs
             (Scheduler.fields (foldl Scheduler.step s (concat (take n during))))) = 0) /\
    (forall j,
        j < n ->
        0 < size (Scheduler.runningJobs
                    (Scheduler.fields (foldl Scheduler.step s (concat (take j during)))))).
Proof.
  induction fuel as [| fuel IH]; intros k s during Hk Hfuel; [lia |].
  cbn [ZurgScheduler.waitLoop].
  destruct (0 <? size (Scheduler.runningJobs (Scheduler.fields s)))%nat eqn:Hsize.
  - apply Nat.ltb_lt in Hsize.
    destruct (k * 1000 <? ZurgScheduler.maxWait)%nat eqn:Hwaited; simpl.
    + apply Nat.ltb_lt in Hwaited. unfold ZurgScheduler.maxWait in Hwaited.
      destruct (IH (S k) (foldl Scheduler.step s (hd [] during)) (tl during))
        as (n & Hn & Hloop & Hdone & Hbusy); [lia | lia |].
      exists (S n). unfold ZurgScheduler.checkInterval.
      replace (k * 1000 + 1000) with (S k * 1000) by lia.
      rewrite Hloop, foldl_step_rounds in *.
      split; [lia |]. split; [do 2 f_equal; lia |]. split.
      * intros Hlt. apply Hdone. lia.
      * intros [| j] Hj; [exact Hsize |].
        rewrite <- foldl_step_rounds. apply Hbusy. lia.
    + apply Nat.ltb_ge in Hwaited. unfold ZurgScheduler.maxWait in Hwaited.
      exists 0. rewrite Nat.add_0_r. split; [lia |]. split; [reflexivity |].
      split; [lia | intros j Hj; lia].
  - apply Nat.ltb_ge in Hsize. simpl. exists 0. rewrite Nat.add_0_r.
    split; [lia |]. split; [reflexivity |]. split; [simpl; lia | intros j Hj; lia].
Qed.

(** X22. The wait for the running jobs at shutdown ends, after at most 30
    waits of one second, with [process.exit(0)]: at once when no job is
    running, as soon as a check finds no job running, and after 30 seconds
    at the latest, whether jobs are still running or not. *)
Theorem waitForJobs_is_bounded (fuel : nat) (s : Scheduler.scheduler)
    (during : list (list Scheduler.event)) :
  31 <= fuel ->
  exists n,
    n <= 30 /\
    ZurgScheduler.waitForJobs fuel s during
    = Some (n * ZurgScheduler.checkInterval,
            foldl Scheduler.step s (concat (take n during)), 0) /\
    (n < 30 ->
     size (Scheduler.runningJobs
             (Scheduler.fields (foldl Scheduler.step s (concat (take n during))))) = 0) /\
    (forall j,
        j < n ->
        0 < size (Scheduler.runningJobs
                    (Scheduler.fields (foldl Scheduler.step s (concat (take j during)))))).
Proof.
  intros Hfuel.
  destruct (waitLoop_spec fuel 0 s during) as (n & Hn & Hloop & Hdone & Hbusy);
    [lia | lia |].
  exists n. unfold ZurgScheduler.waitForJobs, ZurgScheduler.checkInterval.
  simpl in Hloop. rewrite Hloop. simpl in *. auto.
Qed.

Lemma stopAll_destroys_what_startAll_started_witness :
  exists tasks,
    snd (ZurgScheduler.startAll (cron := Scenario.cron) "UTC"
           [Scenario.main; Scenario.backup] [])
    = map ZurgScheduler.Started tasks /\
    ZurgScheduler.stopAll
      (fst (ZurgScheduler.startAll (cron := Scenario.cron) "UTC"
              [Scenario.main; Scenario.backup] []))
    = (None, [], map ZurgScheduler.Destroyed tasks).
Proof.
  destruct (stopAll_destroys_what_startAll_started (cron := Scenario.cron) "UTC"
              [Scenario.main; Scenario.backup]) as [_ Hstarts].
  destruct Hstarts as (tasks & Hstarted & Hstopped).
  - apply NoDup_cons. split; [| apply NoDup_singleton].
    intros Hin. apply list_elem_of_singleton in Hin. discriminate Hin.
  - exists tasks. split; [exact Hstarted |]. apply Hstopped. reflexivity.
Defined.

Lemma runInstanceNow_outcome_witness :
  exists resume,
    Scheduler.advance (ZurgScheduler.runInstanceNow [Scenario.backup; Scenario.main] "main")
      {| Scheduler.runningJobs := ∅ |}
    = (Scheduler.Suspended Scenario.main resume,
       {| Scheduler.runningJobs := {["main"]} ∪ ∅ |}) /\
    forall outcome st',
      Scheduler.advance (resume outcome) st'
      = (Scheduler.Settled (fulfilled tt),
         {| Scheduler.runningJobs := Scheduler.runningJobs st' ∖ {["main"]} |}).
Proof.
  destruct (runInstanceNow_outcome [Scenario.backup; Scenario.main] "main"
              {| Scheduler.runningJobs := ∅ |}) as [_ Hfound].
  destruct (Hfound [Scenario.backup] Scenario.main [] eq_refl) as [_ Henabled].
  - intros i [<- | []]. discriminate.
  - reflexivity.
  - destruct (Henabled eq_refl) as [_ Hstart]. apply Hstart. simpl. set_solver.
Defined.

Lemma waitForJobs_is_bounded_witness :
  exists n,
    n <= 30 /\
    ZurgScheduler.waitForJobs 31
      (foldl Scheduler.step Scheduler.initial [Scheduler.Trigger Scenario.main])
      [[]; [Scheduler.Settle 0 (fulfilled tt)]]
    = Some (n * ZurgScheduler.checkInterval,
            foldl Scheduler.step
              (foldl Scheduler.step Scheduler.initial [Scheduler.Trigger Scenario.main])
              (concat (take n [[]; [Scheduler.Settle 0 (fulfilled tt)]])), 0) /\
    (n < 30 ->
     size (Scheduler.runningJobs
             (Scheduler.fields
                (foldl Scheduler.step
                   (foldl Scheduler.step Scheduler.initial [Scheduler.Trigger Scenario.main])
                   (concat (take n [[]; [Scheduler.Settle 0 (fulfilled tt)]]))))) = 0) /\
    (forall j,
        j < n ->
        0 < size (Scheduler.runningJobs
                    (Scheduler.fields
                       (foldl Scheduler.step
                          (foldl Scheduler.step Scheduler.initial
                             [Scheduler.Trigger Scenario.main])
                          (concat (take j [[]; [Scheduler.Settle 0 (fulfilled tt)]])))))).
Proof.
  apply (waitForJobs_is_bounded 31
           (foldl Scheduler.step Scheduler.initial [Scheduler.Trigger Scenario.main])
           [[]; [Scheduler.Settle 0 (fulfilled tt)]]).
  lia.
Defined.

(** ** [runOneTimeExecution] *)

Section FuelFacts.
Context {parser : HtmlParser} {service : Service}.






End FuelFacts.

Section OneTimeRuns.
Context {parser : HtmlParser} {service : Service}.


(** X24. With [RUN_INSTANCE] set to a name, [runOneTimeExecution] ends the
    process with code 1, before any request, when no instance has the name
    or the first instance of that name is disabled. For an enabled instance
    it runs the repair once: it returns when the run returns, and ends the
    process with code 1 when the run throws. *)
Theorem runOneTimeExecution_of_one_instance (fuel : nat) (instances : list ZurgInstance.t)
    (wanted : string) (w : world) :
  wanted <> "" ->
  ((forall instance, In instance instances -> ZurgInstance.name instance <> wanted) ->
   runOneTimeExecution fuel instances (Some wanted) w = (Normal (Exits 1), w, [])) /\
  (forall before instance after,
      instances = before ++ instance :: after ->
      (forall i, In i before -> ZurgInstance.name i <> wanted) ->
      ZurgInstance.name instance = wanted ->
      (ZurgInstance.enabled instance = false ->
       runOneTimeExecution fuel instances (Some wanted) w = (Normal (Exits 1), w, [])) /\
      (ZurgInstance.enabled instance = true ->
       forall c w' tr,
         runRepairForInstance fuel instance w = (c, w', tr) ->
         runOneTimeExecution fuel instances (Some wanted) w
         = (match c with
            | Normal _ => Normal Returns
            | Abrupt _ => Normal (Exits 1)
            | OutOfFuel => OutOfFuel
            end, w', tr))).
Proof.
  intros Hwanted.
  assert (Htruthy : negb (String.eqb wanted "") = true).
  { apply negb_true_iff. apply String.eqb_neq. exact Hwanted. }
  unfold runOneTimeExecution, try_catchM. rewrite Htruthy. split.
  - intros Hnone.
    destruct (List.find _ instances) as [instance |] eqn:Hfind; [| reflexivity].
    apply List.find_some in Hfind as [Hin Hname]. apply String.eqb_eq in Hname.
    destruct (Hnone instance Hin Hname).
  - intros before instance after -> Hbefore Hname.
    rewrite (find_first_of_name before after instance wanted Hbefore Hname). split.
    + intros ->. reflexivity.
    + intros -> c w' tr Hrun. unfold_monad. unfold bindM. cbn [negb]. cbv beta iota.
      rewrite Hrun. destruct c as [[] | e |]; simpl; rewrite ?app_nil_r; reflexivity.
Qed.

End OneTimeRuns.


Lemma runOneTimeExecution_of_one_instance_witness :
  runOneTimeExecution (parser := Demo.parser) (service := Demo.scripted) 5
    [Scenario.backup; Scenario.main] (Some "backup")
    (Demo.healthy [inr (Demo.okResponse "broken")])
  = (Normal (Exits 1), Demo.healthy [inr (Demo.okResponse "broken")], []).
Proof.
  destruct (runOneTimeExecution_of_one_instance (parser := Demo.parser)
              (service := Demo.scripted) 5 [Scenario.backup; Scenario.main] "backup"
              (Demo.healthy [inr (Demo.okResponse "broken")])) as [_ Hfound].
  - discriminate.
  - destruct (Hfound [] Scenario.backup [Scenario.main] eq_refl) as [Hdisabled _].
    + intros i [].
    + reflexivity.
    + apply Hdisabled. reflexivity.
Defined.

(** ** [parseTorrentFiles], row by row

    In this section [parseTorrentFiles] and the names beside it are those of
    [TorrentDetailsParser]. *)

Section ParserFacts.
Import TorrentDetailsParser.

Lemma digits_allDigits (s ds after : string) :
  digits s = (ds, after) -> allDigits ds = true /\ s = ds +:+ after.
Proof.
  revert ds after. induction s as [| c s IH]; intros ds after; simpl.
  - intros [= <- <-]. auto.
  - destruct (isDigit c) eqn:Hc.
    + destruct (digits s) as [ds' after'] eqn:Hs. intros [= <- <-].
      destruct (IH _ _ eq_refl) as [Hds ->]. unfold allDigits in *. simpl.
      rewrite Hc, Hds. auto.
    + intros [= <- <-]. auto.
Qed.

Lemma digits_app (ds rest : string) :
  allDigits ds = true -> digits (ds +:+ String "/" rest) = (ds, String "/" rest).
Proof.
  unfold allDigits. induction ds as [| c ds IH]; simpl; [reflexivity |].
  intros H. apply andb_true_iff in H as [-> H]. rewrite (IH H). reflexivity.
Qed.

Lemma matchHere_group (s group : string) :
  matchHere s = Some group -> group <> "" /\ allDigits group = true.
Proof.
  unfold matchHere. destruct (stripPrefix "/files/" s) as [after |]; [| discriminate].
  destruct (digits after) as [ds rest] eqn:Hdigits.
  destruct (digits_allDigits _ _ _ Hdigits) as [Hds _].
  destruct ds as [| d ds]; [discriminate |].
  destruct rest as [| c rest]; [discriminate |].
  destruct (Ascii.eqb c "/") eqn:Hc.
  - apply Ascii.eqb_eq in Hc. subst c. intros [= <-]. split; [discriminate | exact Hds].
  - assert (Hne : c <> "/"%char) by (apply Ascii.eqb_neq; exact Hc).
    clear -Hne. intros H. exfalso.
    destruct c as [[] [] [] [] [] [] [] []]; try discriminate H. apply Hne. reflexivity.
Qed.

Lemma matchFileId_group (s group : string) :
  matchFileId s = Some group -> group <> "" /\ allDigits group = true.
Proof.
  induction s as [| c s IH]; cbn [matchFileId].
  - destruct (matchHere "") eqn:Hhere; [| discriminate].
    intros [= <-]. eapply matchHere_group, Hhere.
  - destruct (matchHere (String c s)) eqn:Hhere; [| exact IH].
    intros [= <-]. eapply matchHere_group, Hhere.
Qed.

Lemma fileIdOf_digits (formActions : list (option string)) :
  allDigits (fileIdOf formActions) = true.
Proof.
  induction formActions as [| action formActions IH]; simpl; [reflexivity |].
  destruct (matchFileId (default "" action)) as [group |] eqn:Hmatch; [| exact IH].
  destruct (String.eqb group ""); [exact IH |].
  eapply matchFileId_group, Hmatch.
Qed.

Lemma truthy_nonempty (s : string) : truthy s = true <-> s <> "".
Proof. unfold truthy. rewrite negb_true_iff. apply String.eqb_neq. Qed.

(** X25. Every file [parseTorrentFiles] returns has a name, a size and a
    status that are not empty, and an id that is a non-empty string of
    decimal digits. *)
Theorem parseTorrentFiles_files_are_complete (rows : list Row) :
  Forall (fun f =>
            TorrentFile.name f <> "" /\ TorrentFile.size f <> "" /\
            TorrentFile.status f <> "" /\ TorrentFile.id f <> "" /\
            allDigits (TorrentFile.id f) = true)
         (parseTorrentFiles rows).
Proof.
  unfold parseTorrentFiles. generalize false.
  assert (Hinit : Forall (fun f =>
                            TorrentFile.name f <> "" /\ TorrentFile.size f <> "" /\
                            TorrentFile.status f <> "" /\ TorrentFile.id f <> "" /\
                            allDigits (TorrentFile.id f) = true) []) by constructor.
  revert Hinit. generalize (@nil TorrentFile.t).
  induction rows as [| row rows IH]; intros files Hfiles found; simpl; [exact Hfiles |].
  destruct (String.eqb (headerText row) "Files"); [apply IH, Hfiles |].
  destruct (negb found); [apply IH, Hfiles |].
  destruct (0 <? headers row)%nat; [exact Hfiles |].
  destruct (fileOfRow row) as [file |] eqn:Hfile; [| apply IH, Hfiles].
  apply IH. apply Forall_app. split; [exact Hfiles |]. constructor; [| constructor].
  unfold fileOfRow in Hfile.
  destruct (tds row) as [| leftCell [| rightCell [| third cells]]]; try discriminate Hfile.
  destruct (truthy (cellText leftCell)) eqn:H1; [| discriminate Hfile].
  destruct (truthy (memoryStat rightCell)) eqn:H2; [| discriminate Hfile].
  destruct (truthy (badge rightCell)) eqn:H3; [| discriminate Hfile].
  destruct (truthy (fileIdOf (formActions rightCell))) eqn:H4; [| discriminate Hfile].
  injection Hfile as <-. simpl.
  rewrite <- !truthy_nonempty. repeat split; auto. apply fileIdOf_digits.
Qed.

Lemma parseRows_before (before rows : list Row) (files : list TorrentFile.t) :
  Forall (fun row => headerText row <> "Files") before ->
  parseRows (before ++ rows) false files = parseRows rows false files.
Proof.
  induction 1 as [| row before Hrow _ IH]; simpl; [reflexivity |].
  rewrite (proj2 (String.eqb_neq _ _) Hrow). exact IH.
Qed.

Lemma parseRows_body (body rows : list Row) :
  Forall (fun row => headerText row <> "Files" /\ headers row = 0) body ->
  forall files,
  parseRows (body ++ rows) true files = parseRows rows true (files ++ omap fileOfRow body).
Proof.
  induction 1 as [| row body [Hrow Hth] _ IH]; intros files; simpl.
  - rewrite app_nil_r. reflexivity.
  - rewrite (proj2 (String.eqb_neq _ _) Hrow), Hth. simpl.
    destruct (fileOfRow row) as [file |]; rewrite IH; [| reflexivity].
    rewrite <- app_assoc. reflexivity.
Qed.

(** X26. [parseTorrentFiles] reads the rows of the "Files" section only: the
    rows before the header row whose text is "Files" give nothing, the rows
    after it give their files up to the next row with a header cell, and
    no row from that one on is read. *)
Theorem parseTorrentFiles_reads_the_files_section (before body rest : list Row)
    (header : Row) :
  Forall (fun row => headerText row <> "Files") before ->
  headerText header = "Files" ->
  Forall (fun row => headerText row <> "Files" /\ headers row = 0) body ->
  match rest with
  | [] => True
  | next :: _ => headerText next <> "Files" /\ 0 < headers next
  end ->
  parseTorrentFiles (before ++ header :: body ++ rest) = omap fileOfRow body.
Proof.
  intros Hbefore Hheader Hbody Hrest. unfold parseTorrentFiles.
  rewrite parseRows_before by exact Hbefore.
  cbn [parseRows]. rewrite Hheader. simpl String.eqb. cbv iota.
  rewrite parseRows_body by exact Hbody. simpl.
  destruct rest as [| next rest]; [reflexivity |].
  destruct Hrest as [Hnext Hth]. simpl.
  rewrite (proj2 (String.eqb_neq _ _) Hnext).
  rewrite (proj2 (Nat.ltb_lt _ _) Hth). reflexivity.
Qed.

Lemma matchFileId_skip (pre s : string) :
  noSlash pre = true -> matchFileId (pre +:+ s) = matchFileId s.
Proof.
  unfold noSlash. induction pre as [| c pre IH]; simpl; [reflexivity |].
  intros H. apply andb_true_iff in H as [Hc H].
  apply negb_true_iff in Hc. rewrite Ascii.eqb_sym in Hc.
  unfold matchHere. cbn [stripPrefix]. rewrite Hc. exact (IH H).
Qed.

Lemma stripPrefix_app (p s : string) : stripPrefix p (p +:+ s) = Some s.
Proof.
  induction p as [| a p IH]; simpl; [reflexivity |].
  rewrite Ascii.eqb_refl. exact IH.
Qed.

Lemma matchHere_files (fileId rest : string) :
  allDigits fileId = true -> fileId <> "" ->
  matchHere ("/files/" +:+ fileId +:+ String "/" rest) = Some fileId.
Proof.
  intros Hdigits Hne. unfold matchHere.
  rewrite stripPrefix_app, digits_app by exact Hdigits.
  destruct fileId as [| d ds]; [destruct Hne; reflexivity | reflexivity].
Qed.

Lemma stripPrefix_cons (a b : ascii) (p s : string) :
  stripPrefix (String a p) (String b s) = if Ascii.eqb a b then stripPrefix p s else None.
Proof. reflexivity. Qed.

Lemma append_cons (c : ascii) (s1 s2 : string) : String c s1 +:+ s2 = String c (s1 +:+ s2).
Proof. reflexivity. Qed.

Lemma matchHere_after_manage (hash fileId rest : string) :
  noSlash hash = true ->
  matchHere (String "/" (hash +:+ "/files/" +:+ fileId +:+ rest)) = None.
Proof.
  intros Hno. unfold matchHere. rewrite stripPrefix_cons, Ascii.eqb_refl.
  destruct hash as [| c1 hash]; [reflexivity |]. rewrite append_cons, stripPrefix_cons.
  destruct (Ascii.eqb "f" c1) eqn:H1; [| reflexivity]. apply Ascii.eqb_eq in H1. subst c1.
  destruct hash as [| c2 hash]; [reflexivity |]. rewrite append_cons, stripPrefix_cons.
  destruct (Ascii.eqb "i" c2) eqn:H2; [| reflexivity]. apply Ascii.eqb_eq in H2. subst c2.
  destruct hash as [| c3 hash]; [reflexivity |]. rewrite append_cons, stripPrefix_cons.
  destruct (Ascii.eqb "l" c3) eqn:H3; [| reflexivity]. apply Ascii.eqb_eq in H3. subst c3.
  destruct hash as [| c4 hash]; [reflexivity |]. rewrite append_cons, stripPrefix_cons.
  destruct (Ascii.eqb "e" c4) eqn:H4; [| reflexivity]. apply Ascii.eqb_eq in H4. subst c4.
  destruct hash as [| c5 hash]; [reflexivity |]. rewrite append_cons, stripPrefix_cons.
  destruct (Ascii.eqb "s" c5) eqn:H5; [| reflexivity]. apply Ascii.eqb_eq in H5. subst c5.
  destruct hash as [| c6 hash]; [reflexivity |]. rewrite append_cons, stripPrefix_cons.
  destruct (Ascii.eqb "/" c6) eqn:H6; [| reflexivity]. apply Ascii.eqb_eq in H6. subst c6.
  discriminate Hno.
Qed.

Lemma matchFileId_path (hash fileId rest : string) :
  noSlash hash = true -> allDigits fileId = true -> fileId <> "" ->
  matchFileId ("/manage/" +:+ hash +:+ "/files/" +:+ fileId +:+ String "/" rest)
  = Some fileId.
Proof.
  intros Hno Hdigits Hne.
  change ("/manage/" +:+ hash +:+ "/files/" +:+ fileId +:+ String "/" rest)
    with (String "/" (String "m" (String "a" (String "n" (String "a" (String "g"
           (String "e" (String "/"
              (hash +:+ "/files/" +:+ fileId +:+ String "/" rest))))))))).
  do 7 (cbn [matchFileId];
        match goal with
        | |- context [matchHere (String ?c ?s)] =>
            change (matchHere (String c s)) with (@None string)
        end; cbv iota).
  cbn [matchFileId]. rewrite matchHere_after_manage by exact Hno.
  rewrite matchFileId_skip by exact Hno.
  destruct ("/files/" +:+ fileId +:+ String "/" rest) as [| c s] eqn:Hs;
    [discriminate Hs |].
  cbn [matchFileId]. rewrite <- Hs, matchHere_files by assumption. reflexivity.
Qed.

(** X27. The id [parseTorrentFiles] reads in the action of a form is the id
    [deleteFile] and [restoreFile] put in the path of their request: for a
    hash without a slash and an id of decimal digits, the pattern finds the
    id in both paths, and a cell whose first form has one of them as its
    action gives that id. *)
Theorem matchFileId_reads_the_id_of_an_action (torrentHash fileId : string)
    (others : list (option string)) :
  noSlash torrentHash = true ->
  allDigits fileId = true ->
  fileId <> "" ->
  matchFileId (pathOf (DeleteAction torrentHash fileId)) = Some fileId /\
  matchFileId (pathOf (RestoreAction torrentHash fileId)) = Some fileId /\
  fileIdOf (Some (pathOf (DeleteAction torrentHash fileId)) :: others) = fileId /\
  fileIdOf (Some (pathOf (RestoreAction torrentHash fileId)) :: others) = fileId.
Proof.
  intros Hno Hdigits Hne.
  assert (Hdelete : matchFileId (pathOf (DeleteAction torrentHash fileId)) = Some fileId)
    by (apply (matchFileId_path torrentHash fileId "delete"); assumption).
  assert (Hrestore : matchFileId (pathOf (RestoreAction torrentHash fileId)) = Some fileId)
    by (apply (matchFileId_path torrentHash fileId "restore"); assumption).
  split; [exact Hdelete |]. split; [exact Hrestore |].
  cbn [fileIdOf default from_option id]. rewrite Hdelete, Hrestore.
  rewrite (proj2 (String.eqb_neq _ _) Hne). auto.
Qed.

End ParserFacts.

Lemma parseTorrentFiles_reads_the_files_section_witness :
  TorrentDetailsParser.parseTorrentFiles
    ([Scenario.infoRow] ++ Scenario.header "Files" :: [Scenario.fileRow]
       ++ [Scenario.header "Actions"; Scenario.fileRow])
  = omap TorrentDetailsParser.fileOfRow [Scenario.fileRow].
Proof.
  apply parseTorrentFiles_reads_the_files_section.
  - repeat constructor. discriminate.
  - reflexivity.
  - repeat constructor. discriminate.
  - split; [discriminate | simpl; lia].
Defined.

Lemma matchFileId_reads_the_id_of_an_action_witness :
  TorrentDetailsParser.matchFileId (pathOf (DeleteAction "abc123" "7")) = Some "7" /\
  TorrentDetailsParser.matchFileId (pathOf (RestoreAction "abc123" "7")) = Some "7" /\
  TorrentDetailsParser.fileIdOf [Some (pathOf (DeleteAction "abc123" "7"))] = "7" /\
  TorrentDetailsParser.fileIdOf [Some (pathOf (RestoreAction "abc123" "7"))] = "7".
Proof.
  apply (matchFileId_reads_the_id_of_an_action "abc123" "7" []);
    [reflexivity | reflexivity | discriminate].
Defined.
